(** * transform_bounds: the AABB kernel of pykotor.gl.native

    A shallow embedding of the C function [transform_bounds] found in
    [src/pykotor/gl/native/__pycache__/_cffi__x91c9641bx774e66ba.c]
    together with the properties stated about it.

    Modelling choices, all visible in the definitions below:
    - a C [float] is an IEEE-754 binary32 value, represented by the
      Standard Library's [spec_float] at precision 24 and [emax] 128; every
      [*] and [+] of the source is one correctly rounded operation
      (round to nearest, ties to even), in the source's association order;
    - the vertex buffer is a list of bytes, because the source addresses it
      through a [const char*]; a float is loaded from four bytes, little
      endian, with no alignment trap: the model also reads a position
      that is not a multiple of four bytes from the base, which the
      source's cast to [const float*] does not allow; the theorem that
      says when a call returns, [call_returns_within_buffer], asks for
      that alignment;
    - the matrix is a list of floats, because the source indexes it as a
      [const float*];
    - a null pointer is [None];
    - [int] arithmetic that leaves the 32-bit range, and any load outside
      the buffer it addresses, is undefined behaviour: the model returns
      [None] there; in [base + i * stride_bytes + position_offset] only
      the product is [int] arithmetic, the offset is added to a pointer;
    - the two output arrays, the vertex buffer and the matrix are disjoint
      regions;
    - every memory access is recorded in a log, most recent first.

    The file has four parts: the machine model of the kernel; the same
    computation as pure functions, with the vocabulary of the properties;
    the proof that the two agree ([call_spec]); and the properties. The
    last of them needs that single-precision addition is monotone, which
    is derived from the definition of [SFadd] by reading the rounding as
    arithmetic on integer multiples of 2^-149.

    Around the kernel the same source file holds the glue that cffi
    generates. Its parts that can be read without the Python runtime are
    modelled too: the integer conversion macros, the list of heap blocks
    kept for large array arguments, the wrapper [_cffi_f_transform_bounds]
    and [_cffi_init]. What the runtime and the cffi backend answer is a
    parameter of these definitions. *)

From Stdlib Require Import ZArith List Lia Bool Permutation SpecFloat.
From Stdlib Require Import Strings.Byte.
Import ListNotations.
Local Open Scope Z_scope.

(** ** Single-precision floats *)

Definition float : Type := spec_float.

Module F32.

Definition prec : Z := 24.
Definition emax : Z := 128.

Definition add : float -> float -> float := SFadd prec emax.
Definition mul : float -> float -> float := SFmul prec emax.

(** The C comparisons [a < b], [a > b], [a <= b], [a == b]: all false as
    soon as one side is a NaN. *)
Definition ltb (a b : float) : bool := SFltb a b.
Definition gtb (a b : float) : bool :=
  match SFcompare a b with Some Gt => true | _ => false end.
Definition leb (a b : float) : bool := SFleb a b.
Definition eqb (a b : float) : bool := SFeqb a b.

(** The literal [0.0f]. *)
Definition zero : float := S754_zero false.

Definition is_nan (a : float) : bool :=
  match a with S754_nan => true | _ => false end.

Definition is_finite (a : float) : bool :=
  match a with S754_zero _ | S754_finite _ _ _ => true | _ => false end.

(** A float that a 32-bit pattern can hold. *)
Definition valid (a : float) : bool := valid_binary prec emax a.

(** The value of a 32-bit pattern: sign bit 31, biased exponent in bits
    30..23, fraction in bits 22..0. *)
Definition of_bits (w : Z) : float :=
  let s := Z.testbit w 31 in
  let e := Z.land (Z.shiftr w 23) 255 in
  let m := Z.land w 8388607 in
  if e =? 0 then
    match m with
    | Zpos p => S754_finite s p (-149)
    | _ => S754_zero s
    end
  else if e =? 255 then
    (if m =? 0 then S754_infinity s else S754_nan)
  else
    match Z.lor m 8388608 with
    | Zpos p => S754_finite s p (e - 150)
    | _ => S754_nan
    end.

(** The 32-bit pattern of a float (of a valid one; the quiet NaN
    0x7fc00000 for NaN). It is used to lay out buffers, the kernel itself
    never stores a float into bytes. *)
Definition to_bits (a : float) : Z :=
  let sign (s : bool) := if s then Z.shiftl 1 31 else 0 in
  match a with
  | S754_zero s => sign s
  | S754_infinity s => Z.lor (sign s) 2139095040
  | S754_nan => 2143289344
  | S754_finite s m e =>
      if Zpos m <? 8388608 then Z.lor (sign s) (Zpos m)
      else Z.lor (sign s)
             (Z.lor (Z.shiftl (e + 150) 23) (Z.land (Zpos m) 8388607))
  end.

(** The float nearest to an integer. *)
Definition of_Z (n : Z) : float := binary_normalize prec emax n 0 false.

End F32.

(** ** Bytes and loads *)

Definition byte_val (b : byte) : Z := Z.of_N (Byte.to_N b).

Definition le_word (b0 b1 b2 b3 : byte) : Z :=
  Z.lor (byte_val b0)
    (Z.lor (Z.shiftl (byte_val b1) 8)
       (Z.lor (Z.shiftl (byte_val b2) 16) (Z.shiftl (byte_val b3) 24))).

Definition byte_of_Z (n : Z) : byte :=
  match Byte.of_N (Z.to_N (Z.land n 255)) with
  | Some b => b
  | None => x00
  end.

Definition le_bytes (w : Z) : list byte :=
  [byte_of_Z w; byte_of_Z (Z.shiftr w 8);
   byte_of_Z (Z.shiftr w 16); byte_of_Z (Z.shiftr w 24)].

Definition float_bytes (a : float) : list byte := le_bytes (F32.to_bits a).

(** [*(const float* )(base + off)]: four bytes inside the buffer. *)
Definition load_f32 (buf : list byte) (off : Z) : option float :=
  if (0 <=? off) && (off + 4 <=? Z.of_nat (length buf)) then
    match firstn 4 (skipn (Z.to_nat off) buf) with
    | [b0; b1; b2; b3] => Some (F32.of_bits (le_word b0 b1 b2 b3))
    | _ => None
    end
  else None.

(** ** C [int] *)

Definition INT_MIN : Z := -2147483648.
Definition INT_MAX : Z := 2147483647.

Definition in_int (n : Z) : bool := (INT_MIN <=? n) && (n <=? INT_MAX).

(** A signed operation, undefined when the result does not fit. *)
Definition int_op (n : Z) : option Z := if in_int n then Some n else None.

(** ** The machine: output arrays and access log *)

Record vec3 : Type := mkvec3 { c0 : float; c1 : float; c2 : float }.

Definition vset (a : vec3) (k : nat) (v : float) : option vec3 :=
  match k with
  | 0%nat => Some (mkvec3 v (c1 a) (c2 a))
  | 1%nat => Some (mkvec3 (c0 a) v (c2 a))
  | 2%nat => Some (mkvec3 (c0 a) (c1 a) v)
  | _ => None
  end.

Inductive event : Type :=
| RdVertex (off : Z)     (* a float loaded at this byte offset of vertices *)
| RdMatrix (idx : nat)   (* matrix[idx] loaded *)
| WrMin (idx : nat)      (* out_min[idx] stored *)
| WrMax (idx : nat).     (* out_max[idx] stored *)

Record machine : Type := mkmachine {
  out_min : vec3;
  out_max : vec3;
  log : list event
}.

Definition M (A : Type) : Type := machine -> option (A * machine).

Definition ret {A} (a : A) : M A := fun s => Some (a, s).

Definition bind {A B} (c : M A) (k : A -> M B) : M B :=
  fun s => match c s with
           | Some (a, s') => k a s'
           | None => None
           end.

Notation "x <- c ;; k" := (bind c (fun x => k))
  (at level 61, c at next level, right associativity).
Notation "c ;; k" := (bind c (fun _ => k))
  (at level 61, right associativity).

Definition lift {A} (o : option A) : M A :=
  fun s => match o with Some a => Some (a, s) | None => None end.

Definition emit (e : event) : M unit :=
  fun s => Some (tt, mkmachine (out_min s) (out_max s) (e :: log s)).

Definition read_vertex (buf : list byte) (off : Z) : M float :=
  v <- lift (load_f32 buf off) ;; emit (RdVertex off) ;; ret v.

Definition read_matrix (matrix : option (list float)) (k : nat) : M float :=
  v <- lift (match matrix with
             | Some m => nth_error m k
             | None => None
             end) ;;
  emit (RdMatrix k) ;; ret v.

Definition write_min (k : nat) (v : float) : M unit :=
  fun s => match vset (out_min s) k v with
           | Some a => Some (tt, mkmachine a (out_max s) (WrMin k :: log s))
           | None => None
           end.

Definition write_max (k : nat) (v : float) : M unit :=
  fun s => match vset (out_max s) k v with
           | Some a => Some (tt, mkmachine (out_min s) a (WrMax k :: log s))
           | None => None
           end.

(** ** transform_bounds *)

(** The twelve coefficients [m00 .. m23]. *)
Record coeffs : Type := mkcoeffs {
  m00 : float; m01 : float; m02 : float; m03 : float;
  m10 : float; m11 : float; m12 : float; m13 : float;
  m20 : float; m21 : float; m22 : float; m23 : float
}.

(** The six running locals. *)
Record bounds : Type := mkbounds {
  minx : float; maxx : float;
  miny : float; maxy : float;
  minz : float; maxz : float
}.

(** [m_r0 * x + m_r1 * y + m_r2 * z + m_r3], left to right. *)
Definition affine_row (a b c d x y z : float) : float :=
  F32.add (F32.add (F32.add (F32.mul a x) (F32.mul b y)) (F32.mul c z)) d.

Definition transform (m : coeffs) (p : vec3) : vec3 :=
  let x := c0 p in
  let y := c1 p in
  let z := c2 p in
  mkvec3 (affine_row (m00 m) (m01 m) (m02 m) (m03 m) x y z)
         (affine_row (m10 m) (m11 m) (m12 m) (m13 m) x y z)
         (affine_row (m20 m) (m21 m) (m22 m) (m23 m) x y z).

(** [minx = maxx = tx; ...] *)
Definition seed (t : vec3) : bounds :=
  mkbounds (c0 t) (c0 t) (c1 t) (c1 t) (c2 t) (c2 t).

(** [if (t < lo) lo = t;] and [if (t > hi) hi = t;] *)
Definition lower (t lo : float) : float := if F32.ltb t lo then t else lo.
Definition upper (t hi : float) : float := if F32.gtb t hi then t else hi.

Definition widen (b : bounds) (t : vec3) : bounds :=
  mkbounds (lower (c0 t) (minx b)) (upper (c0 t) (maxx b))
           (lower (c1 t) (miny b)) (upper (c1 t) (maxy b))
           (lower (c2 t) (minz b)) (upper (c2 t) (maxz b)).

(** The twelve matrix loads, in source order. *)
Definition read_coeffs (matrix : option (list float)) : M coeffs :=
  a00 <- read_matrix matrix 0 ;;  a01 <- read_matrix matrix 4 ;;
  a02 <- read_matrix matrix 8 ;;  a03 <- read_matrix matrix 12 ;;
  a10 <- read_matrix matrix 1 ;;  a11 <- read_matrix matrix 5 ;;
  a12 <- read_matrix matrix 9 ;;  a13 <- read_matrix matrix 13 ;;
  a20 <- read_matrix matrix 2 ;;  a21 <- read_matrix matrix 6 ;;
  a22 <- read_matrix matrix 10 ;; a23 <- read_matrix matrix 14 ;;
  ret (mkcoeffs a00 a01 a02 a03 a10 a11 a12 a13 a20 a21 a22 a23).

(** [pos = base + i * stride_bytes + position_offset; x = pos[0]; ...] *)
Definition read_position (buf : list byte) (stride_bytes position_offset i : Z)
  : M vec3 :=
  prod <- lift (int_op (i * stride_bytes)) ;;
  let off := prod + position_offset in
  x <- read_vertex buf off ;;
  y <- read_vertex buf (off + 4) ;;
  z <- read_vertex buf (off + 8) ;;
  ret (mkvec3 x y z).

(** One iteration of the [for] body at index [i]. *)
Definition body (buf : list byte) (stride_bytes position_offset : Z)
  (m : coeffs) (i : Z) (b : bounds) : M bounds :=
  p <- read_position buf stride_bytes position_offset i ;;
  let t := transform m p in
  ret (if i =? 0 then seed t else widen b t).

(** [for (; i < vertex_count; ++i)] with [n] iterations left. *)
Fixpoint loop (n : nat) (buf : list byte) (stride_bytes position_offset : Z)
  (m : coeffs) (i : Z) (b : bounds) : M bounds :=
  match n with
  | O => ret b
  | S n' =>
      b' <- body buf stride_bytes position_offset m i b ;;
      loop n' buf stride_bytes position_offset m (i + 1) b'
  end.

Definition zero_bounds : bounds :=
  mkbounds F32.zero F32.zero F32.zero F32.zero F32.zero F32.zero.

(** [out_min[0] = out_min[1] = out_min[2] = 0.0f;] and the same for
    [out_max]: a chained assignment stores right to left. *)
Definition write_zero : M unit :=
  write_min 2 F32.zero ;; write_min 1 F32.zero ;; write_min 0 F32.zero ;;
  write_max 2 F32.zero ;; write_max 1 F32.zero ;; write_max 0 F32.zero.

(** [!vertices || vertex_count <= 0] *)
Definition degenerate (vertices : option (list byte)) (vertex_count : Z)
  : bool :=
  match vertices with
  | None => true
  | Some _ => vertex_count <=? 0
  end.

Definition transform_bounds (vertices : option (list byte))
  (vertex_count stride_bytes position_offset : Z)
  (matrix : option (list float)) : M unit :=
  match vertices with
  | None => write_zero
  | Some buf =>
      if vertex_count <=? 0 then write_zero
      else
        m <- read_coeffs matrix ;;
        b <- loop (Z.to_nat vertex_count) buf stride_bytes position_offset
               m 0 zero_bounds ;;
        write_min 0 (minx b) ;; write_min 1 (miny b) ;; write_min 2 (minz b) ;;
        write_max 0 (maxx b) ;; write_max 1 (maxy b) ;; write_max 2 (maxz b)
  end.

(** A call: the caller's arrays hold [omin] and [omax], the log is empty. *)
Definition call (vertices : option (list byte))
  (vertex_count stride_bytes position_offset : Z)
  (matrix : option (list float)) (omin omax : vec3) : option machine :=
  match transform_bounds vertices vertex_count stride_bytes position_offset
          matrix (mkmachine omin omax []) with
  | Some (_, s) => Some s
  | None => None
  end.

(** What the caller sees afterwards. *)
Definition outputs (r : option machine) : option (vec3 * vec3) :=
  match r with
  | Some s => Some (out_min s, out_max s)
  | None => None
  end.

(** The machine after more accesses. *)
Definition push (lg : list event) (s : machine) : machine :=
  mkmachine (out_min s) (out_max s) (lg ++ log s).

(** ** The kernel without the machine

    The same computation as pure functions: which coefficients are loaded,
    which address record [i] has, which positions are gathered and what the
    running bounds become. [call_spec] below proves that [call] computes
    exactly this. *)

Definition coeffs_of (matrix : option (list float)) : option coeffs :=
  match matrix with
  | Some m =>
      match nth_error m 0, nth_error m 4, nth_error m 8, nth_error m 12,
            nth_error m 1, nth_error m 5, nth_error m 9, nth_error m 13,
            nth_error m 2, nth_error m 6, nth_error m 10, nth_error m 14
      with
      | Some a00, Some a01, Some a02, Some a03,
        Some a10, Some a11, Some a12, Some a13,
        Some a20, Some a21, Some a22, Some a23 =>
          Some (mkcoeffs a00 a01 a02 a03 a10 a11 a12 a13 a20 a21 a22 a23)
      | _, _, _, _, _, _, _, _, _, _, _, _ => None
      end
  | None => None
  end.

(** The byte offset of record [i], when the [int] product is defined. *)
Definition address (stride_bytes position_offset i : Z) : option Z :=
  match int_op (i * stride_bytes) with
  | Some p => Some (p + position_offset)
  | None => None
  end.

(** The three floats at a byte offset. *)
Definition position_at (buf : list byte) (off : Z) : option vec3 :=
  match load_f32 buf off, load_f32 buf (off + 4), load_f32 buf (off + 8) with
  | Some x, Some y, Some z => Some (mkvec3 x y z)
  | _, _, _ => None
  end.

(** The position of record [i]. *)
Definition record_position (buf : list byte)
  (stride_bytes position_offset i : Z) : option vec3 :=
  match address stride_bytes position_offset i with
  | Some o => position_at buf o
  | None => None
  end.

(** The positions of records [i], [i+1], ..., [i+n-1]. *)
Fixpoint gather (n : nat) (buf : list byte)
  (stride_bytes position_offset i : Z) : option (list vec3) :=
  match n with
  | O => Some []
  | S n' =>
      match record_position buf stride_bytes position_offset i with
      | Some p =>
          match gather n' buf stride_bytes position_offset (i + 1) with
          | Some ps => Some (p :: ps)
          | None => None
          end
      | None => None
      end
  end.

(** The running bounds after the transformed points [ts], the first of
    which has index [i]. *)
Fixpoint accumulate (i : Z) (b : bounds) (ts : list vec3) : bounds :=
  match ts with
  | [] => b
  | t :: ts' => accumulate (i + 1) (if i =? 0 then seed t else widen b t) ts'
  end.

(** The bounds of a list of points: the first seeds, the others widen. *)
Definition aabb (ts : list vec3) : bounds :=
  match ts with
  | [] => zero_bounds
  | t :: ts' => fold_left widen ts' (seed t)
  end.

Definition lo_corner (b : bounds) : vec3 := mkvec3 (minx b) (miny b) (minz b).
Definition hi_corner (b : bounds) : vec3 := mkvec3 (maxx b) (maxy b) (maxz b).

(** The log of the loads of records [i .. i+n-1], most recent first. *)
Fixpoint vertex_log (n : nat) (stride_bytes position_offset i : Z)
  : list event :=
  match n with
  | O => []
  | S n' =>
      let o := i * stride_bytes + position_offset in
      vertex_log n' stride_bytes position_offset (i + 1)
        ++ [RdVertex (o + 8); RdVertex (o + 4); RdVertex o]
  end.

Definition matrix_log : list event :=
  [RdMatrix 14; RdMatrix 10; RdMatrix 6; RdMatrix 2;
   RdMatrix 13; RdMatrix 9; RdMatrix 5; RdMatrix 1;
   RdMatrix 12; RdMatrix 8; RdMatrix 4; RdMatrix 0].

Definition store_log : list event :=
  [WrMax 2; WrMax 1; WrMax 0; WrMin 2; WrMin 1; WrMin 0].

Definition zero_log : list event :=
  [WrMax 0; WrMax 1; WrMax 2; WrMin 0; WrMin 1; WrMin 2].

Definition zero3 : vec3 := mkvec3 F32.zero F32.zero F32.zero.

(** ** Axes *)

Inductive axis : Type := AX | AY | AZ.

Definition coord (k : axis) (v : vec3) : float :=
  match k with AX => c0 v | AY => c1 v | AZ => c2 v end.

Definition lo (k : axis) (b : bounds) : float :=
  match k with AX => minx b | AY => miny b | AZ => minz b end.

Definition hi (k : axis) (b : bounds) : float :=
  match k with AX => maxx b | AY => maxy b | AZ => maxz b end.

(** ** The order behind the comparisons

    [SFcompare] is a lexicographic comparison of (sign class, exponent,
    mantissa); [key] makes the three components explicit. *)

Definition key (a : float) : Z * Z * Z :=
  match a with
  | S754_zero _ => (0, 0, 0)
  | S754_infinity false => (2, 0, 0)
  | S754_infinity true => (-2, 0, 0)
  | S754_nan => (0, 0, 0)
  | S754_finite false m e => (1, e, Zpos m)
  | S754_finite true m e => (-1, - e, - Zpos m)
  end.

Definition klt (x y : Z * Z * Z) : Prop :=
  let '(a1, a2, a3) := x in
  let '(b1, b2, b3) := y in
  a1 < b1 \/ (a1 = b1 /\ (a2 < b2 \/ (a2 = b2 /\ a3 < b3))).

Definition keq (x y : Z * Z * Z) : Prop :=
  let '(a1, a2, a3) := x in
  let '(b1, b2, b3) := y in
  a1 = b1 /\ a2 = b2 /\ a3 = b3.

(** ** Laying out buffers *)

Definition fz (n : Z) : float := F32.of_Z n.

Definition pos_bytes (p : vec3) : list byte :=
  float_bytes (c0 p) ++ float_bytes (c1 p) ++ float_bytes (c2 p).

(** A tightly packed buffer: stride 12, offset 0. *)
Definition packed (ps : list vec3) : list byte := concat (map pos_bytes ps).

Definition vz (x y z : Z) : vec3 := mkvec3 (fz x) (fz y) (fz z).

Definition identity : list float :=
  map fz [1;0;0;0; 0;1;0;0; 0;0;1;0; 0;0;0;1].

(** Arbitrary prior contents of an output array. *)
Definition junk : vec3 := mkvec3 S754_nan S754_nan S754_nan.

(** The buffer of the worked example. *)
Definition spec_example : list byte :=
  packed [vz 0 0 0; vz 1 2 3; vz (-1) 5 0].

(** ** Reading the log *)

Definition is_read (e : event) : bool :=
  match e with
  | RdVertex _ | RdMatrix _ => true
  | WrMin _ | WrMax _ => false
  end.

Definition is_store_min (k : nat) (e : event) : bool :=
  match e with WrMin j => Nat.eqb j k | _ => false end.

Definition is_store_max (k : nat) (e : event) : bool :=
  match e with WrMax j => Nat.eqb j k | _ => false end.

(** How many times [out_min[k]], [out_max[k]] were stored. *)
Definition stores_min (k : nat) (lg : list event) : nat :=
  length (filter (is_store_min k) lg).

Definition stores_max (k : nat) (lg : list event) : nat :=
  length (filter (is_store_max k) lg).

(** Column-major index of the last row: 3, 7, 11, 15. *)
Definition last_row (k : nat) : bool :=
  Nat.eqb k 3 || Nat.eqb k 7 || Nat.eqb k 11 || Nat.eqb k 15.

(** Two matrices that differ at most in their last row. *)
Definition same_affine_part (m m' : list float) : Prop :=
  forall k : nat, last_row k = false -> nth_error m k = nth_error m' k.

(** [matrix] with its last row replaced by [a b c d]. *)
Definition with_last_row (a b c d : float) (m : list float) : list float :=
  match m with
  | [e0; e1; e2; _; e4; e5; e6; _; e8; e9; e10; _; e12; e13; e14; _] =>
      [e0; e1; e2; a; e4; e5; e6; b; e8; e9; e10; c; e12; e13; e14; d]
  | _ => m
  end.

(** ** Vocabulary of the properties *)

(** The transformed position of record [i]. *)
Definition transformed (buf : list byte) (st off : Z)
  (matrix : option (list float)) (i : Z) : option vec3 :=
  match coeffs_of matrix, record_position buf st off i with
  | Some m, Some p => Some (transform m p)
  | _, _ => None
  end.

(** The transformed positions of records [0 .. n-1]. *)
Definition transformed_all (buf : list byte) (n st off : Z)
  (matrix : option (list float)) : option (list vec3) :=
  match coeffs_of matrix, gather (Z.to_nat n) buf st off 0 with
  | Some m, Some ps => Some (map (transform m) ps)
  | _, _ => None
  end.

(** [v] is the least (greatest) of [vs] for the C comparison [<=]. *)
Definition is_min_of (v : float) (vs : list float) : Prop :=
  In v vs /\ forall u, In u vs -> F32.leb v u = true.

Definition is_max_of (v : float) (vs : list float) : Prop :=
  In v vs /\ forall u, In u vs -> F32.leb u v = true.

Definition no_nan (vs : list float) : Prop :=
  forall u, In u vs -> F32.is_nan u = false.

(** One running minimum (maximum) over a list of values. *)
Definition run_lo (l0 : float) (vs : list float) : float :=
  fold_left (fun l v => lower v l) vs l0.

Definition run_hi (h0 : float) (vs : list float) : float :=
  fold_left (fun h v => upper v h) vs h0.

(** ** The properties as they are claimed, for a non-null buffer *)

(** [out_min] and [out_max] hold the componentwise minimum and maximum of
    the transformed positions. *)
Definition extremes_claim (buf : list byte) (n st off : Z)
  (matrix : option (list float)) : Prop :=
  0 < n ->
  forall omin omax s,
    call (Some buf) n st off matrix omin omax = Some s ->
    exists ts, transformed_all buf n st off matrix = Some ts /\
      forall k, is_min_of (coord k (out_min s)) (map (coord k) ts) /\
                is_max_of (coord k (out_max s)) (map (coord k) ts).

(** Every transformed position lies between [out_min] and [out_max]. *)
Definition containment_claim (buf : list byte) (n st off : Z)
  (matrix : option (list float)) : Prop :=
  0 < n ->
  forall omin omax s,
    call (Some buf) n st off matrix omin omax = Some s ->
    forall i t, 0 <= i < n -> transformed buf st off matrix i = Some t ->
    forall k, F32.leb (coord k (out_min s)) (coord k t) = true /\
              F32.leb (coord k t) (coord k (out_max s)) = true.

(** [out_min[k] <= out_max[k]] on every axis. *)
Definition ordered_claim (buf : list byte) (n st off : Z)
  (matrix : option (list float)) : Prop :=
  0 < n ->
  forall omin omax s,
    call (Some buf) n st off matrix omin omax = Some s ->
    forall k, F32.leb (coord k (out_min s)) (coord k (out_max s)) = true.

(** ** Data for the examples *)

(** The largest finite float, 0x7f7fffff. *)
Definition FLT_MAX : float := S754_finite false 16777215 104.

(** A finite matrix whose first row is (FLT_MAX, -FLT_MAX, 0, 0): at the
    point (2, 2, 0) the two products overflow to +inf and -inf, and their
    sum is a NaN. *)
Definition cancelling : list float :=
  [FLT_MAX; fz 0; fz 0; fz 0;
   SFopp FLT_MAX; fz 1; fz 0; fz 0;
   fz 0; fz 0; fz 1; fz 0;
   fz 0; fz 0; fz 0; fz 1].

(** ** Buffers seen as a sequence of records *)

(** The position stored in one record, [zero3] if the record is too
    short to hold one at [off]. *)
Definition decode_position (off : Z) (r : list byte) : vec3 :=
  match position_at r off with
  | Some p => p
  | None => zero3
  end.

(** Records of [st] bytes with room for a position at [off], in a buffer
    whose size fits an [int]. *)
Definition well_formed (st off : Z) (recs : list (list byte)) : Prop :=
  0 <= off /\ off + 12 <= st /\
  Forall (fun r => Z.of_nat (length r) = st) recs /\
  Z.of_nat (length recs) * st <= INT_MAX.

(** A record with padding: the bytes before the position, the twelve
    bytes of the position, the bytes after it. *)
Definition padded_record : Type := list byte * list byte * list byte.

Definition whole (r : padded_record) : list byte :=
  let '(a, p, b) := r in a ++ p ++ b.

Definition position_bytes (r : padded_record) : list byte :=
  let '(_, p, _) := r in p.

(** Every record has [off] bytes before its position and [st] bytes in
    all. *)
Definition well_padded (st off : Z) (recs : list padded_record) : Prop :=
  Forall (fun r : padded_record =>
            let '(a, p, b) := r in
            Z.of_nat (length a) = off /\ length p = 12%nat /\
            Z.of_nat (length a + 12 + length b) = st) recs
  /\ Z.of_nat (length recs) * st <= INT_MAX.

(** The interleaved buffer and the tightly packed one. *)
Definition padded_buffer (recs : list padded_record) : list byte :=
  concat (map whole recs).

Definition tight_buffer (recs : list padded_record) : list byte :=
  concat (map position_bytes recs).

(** Two corners, or two boxes, that the C comparison [==] cannot tell
    apart. *)
Definition same_corner (a b : vec3) : Prop :=
  forall k, F32.eqb (coord k a) (coord k b) = true.

Definition same_box (r r' : option (vec3 * vec3)) : Prop :=
  match r, r' with
  | Some (l, h), Some (l', h') => same_corner l l' /\ same_corner h h'
  | _, _ => False
  end.

(** Reordering the records leaves the outputs unchanged. *)
Definition permutation_claim (st off : Z) (matrix : option (list float))
  (recs recs' : list (list byte)) : Prop :=
  Permutation recs recs' ->
  forall omin omax,
    outputs (call (Some (concat recs)) (Z.of_nat (length recs)) st off
               matrix omin omax)
    = outputs (call (Some (concat recs')) (Z.of_nat (length recs')) st off
                 matrix omin omax).

(** A matrix whose translation is (-0, 0, 0): with it a transformed x
    can be the negative zero. *)
Definition minus_zero : float := S754_zero true.

Definition tiny_shift : list float :=
  [fz 1; fz 0; fz 0; fz 0;
   fz 0; fz 1; fz 0; fz 0;
   fz 0; fz 0; fz 1; fz 0;
   minus_zero; fz 0; fz 0; fz 1].

(** ** Rounding, as arithmetic on integers *)

(** Round to nearest, ties to even, of N / 2^n. *)
Definition rne_shift (N n : Z) : Z :=
  let q := N / 2 ^ n in
  let r := N mod 2 ^ n in
  if 2 ^ n <? 2 * r then q + 1
  else if (2 ^ n =? 2 * r) && Z.odd q then q + 1
  else q.

(** The number of binary digits of a mantissa. *)
Definition digits (m : positive) : Z := Zpos (digits2_pos m).

(** What a shift record holds after [n] steps of [shr_1] from
    [(N, false, false)]: the quotient, and the position of the remainder
    relative to one half. *)
Definition shifted (N n : Z) (x : shr_record) : Prop :=
  shr_m x = N / 2 ^ n /\
  (shr_r x = true <-> 2 ^ n <= 2 * (N mod 2 ^ n)) /\
  (shr_s x = false <-> (N mod 2 ^ n = 0 \/ 2 * (N mod 2 ^ n) = 2 ^ n)).

(** The float nearest to [N] units of 2^-149, for [N > 0], with sign [s]. *)
Definition round_ulps (s : bool) (N : Z) : float :=
  let n := Z.max (Z.log2 N + 1 - 24) 0 in
  let q := rne_shift N n in
  if q =? 2 ^ 24 then
    if n + 1 - 149 <=? 104 then S754_finite s 8388608 (n + 1 - 149)
    else S754_infinity s
  else
    if n - 149 <=? 104 then S754_finite s (Z.to_pos q) (n - 149)
    else S754_infinity s.

(** Exponent (plus 149) and mantissa of [round_ulps s N]. *)
Definition rank (N : Z) : Z * Z :=
  let n := Z.max (Z.log2 N + 1 - 24) 0 in
  let q := rne_shift N n in
  if q =? 2 ^ 24 then (n + 1, 2 ^ 23) else (n, q).

(** The float nearest to [N] units of 2^-149, for any integer [N]. *)
Definition round_int (N : Z) : float :=
  match N with
  | Z0 => S754_zero false
  | Zpos p => round_ulps false (Zpos p)
  | Zneg p => round_ulps true (Zpos p)
  end.

(** A zero or a finite number that fits the format. *)
Definition finite_valid (x : float) : bool := F32.is_finite x && F32.valid x.

(** The value of a finite float, in units of 2^-149. *)
Definition ulps (x : float) : Z :=
  match x with
  | S754_finite s m e => cond_Zopp s (Zpos m * 2 ^ (e + 149))
  | _ => 0
  end.

Definition is_zero (x : float) : bool :=
  match x with S754_zero _ => true | _ => false end.

(** Upper 3x3 block identity, translation column [t]. *)
Definition translation (t : vec3) : list float :=
  [fz 1; fz 0; fz 0; fz 0;
   fz 0; fz 1; fz 0; fz 0;
   fz 0; fz 0; fz 1; fz 0;
   c0 t; c1 t; c2 t; fz 1].

(** The coefficients [transform_bounds] loads from [translation t]. *)
Definition translation_coeffs (t : vec3) : coeffs :=
  mkcoeffs (fz 1) (fz 0) (fz 0) (c0 t)
           (fz 0) (fz 1) (fz 0) (c1 t)
           (fz 0) (fz 0) (fz 1) (c2 t).

(** A corner moved by [t], in single precision. *)
Definition shift (v t : vec3) : vec3 :=
  mkvec3 (F32.add (c0 v) (c0 t)) (F32.add (c1 v) (c1 t))
         (F32.add (c2 v) (c2 t)).

(** No coordinate is an infinity or a NaN. *)
Definition finite3 (p : vec3) : bool :=
  F32.is_finite (c0 p) && F32.is_finite (c1 p) && F32.is_finite (c2 p).

(** Row [k] of the identity block applied to [p], before the translation
    is added. *)
Definition base (k : axis) (p : vec3) : float :=
  match k with
  | AX => F32.add (F32.add (F32.mul (fz 1) (c0 p)) (F32.mul (fz 0) (c1 p)))
            (F32.mul (fz 0) (c2 p))
  | AY => F32.add (F32.add (F32.mul (fz 0) (c0 p)) (F32.mul (fz 1) (c1 p)))
            (F32.mul (fz 0) (c2 p))
  | AZ => F32.add (F32.add (F32.mul (fz 0) (c0 p)) (F32.mul (fz 0) (c1 p)))
            (F32.mul (fz 1) (c2 p))
  end.

(** The box under a translation is the box under the identity, moved. *)
Definition translation_claim (buf : list byte) (n st off : Z) (t : vec3)
  : Prop :=
  0 < n ->
  forall omin omax sI sT,
    call (Some buf) n st off (Some identity) omin omax = Some sI ->
    call (Some buf) n st off (Some (translation t)) omin omax = Some sT ->
    out_min sT = shift (out_min sI) t /\ out_max sT = shift (out_max sI) t.

(** One coordinate after the identity block, with and without the
  translation added. *)
Definition moved (t w : float) : float := F32.add w t.
Definition unmoved (w : float) : float := F32.add w F32.zero.

(** [INFINITY] and [-INFINITY]. *)
Definition plus_infinity : float := S754_infinity false.
Definition minus_infinity : float := S754_infinity true.

(** ** Further vocabulary for the kernel *)

(** Scale by 2, then translate by (10, 0, 0). *)
Definition scale2_shift10 : list float :=
  [fz 2; fz 0; fz 0; fz 0;
   fz 0; fz 2; fz 0; fz 0;
   fz 0; fz 0; fz 2; fz 0;
   fz 10; fz 0; fz 0; fz 1].

(** The values a running bound can take over: those that are not NaN. *)
Definition not_nan (v : float) : bool := negb (F32.is_nan v).

(** Record [i] can be read: the product is computed without overflow and
    the twelve bytes of the position lie inside the buffer. *)
Definition record_in_bounds (buf : list byte) (st off i : Z) : Prop :=
  in_int (i * st) = true /\
  0 <= i * st + off /\ i * st + off + 12 <= Z.of_nat (length buf).

(** Record [i] can be read the way the source reads it: the product
    [i * stride_bytes] fits in an [int], the pointer it gives is inside
    the buffer or just past it, the position starts a multiple of four
    bytes from the base, which is a [const float*], and its twelve bytes
    are inside the buffer. *)
Definition record_readable (buf : list byte) (st off i : Z) : Prop :=
  in_int (i * st) = true /\ 0 <= i * st <= Z.of_nat (length buf) /\
  (i * st + off) mod 4 = 0 /\
  0 <= i * st + off /\ i * st + off + 12 <= Z.of_nat (length buf).

(** The two buffers hold the same bytes wherever a position of records
    [0 .. n-1] lies. *)
Definition same_position_bytes (buf buf' : list byte) (n st off : Z) : Prop :=
  forall i o j,
    0 <= i < n -> address st off i = Some o -> 0 <= o -> o <= j < o + 12 ->
    nth_error buf (Z.to_nat j) = nth_error buf' (Z.to_nat j).

(** ** C integer conversions *)

(** [(unsigned T)x] and [(signed T)x] for a type of [bits] bits. *)
Definition to_unsigned (bits x : Z) : Z := x mod 2 ^ bits.
Definition to_signed (bits x : Z) : Z :=
  (x + 2 ^ (bits - 1)) mod 2 ^ bits - 2 ^ (bits - 1).

(** Which constructor of a Python integer a macro ends in, with the C
    value it passes. *)
Inductive py_int_call : Type :=
| PyInt_FromLong (v : Z)
| PyLong_FromUnsignedLong (v : Z)
| PyLong_FromUnsignedLongLong (v : Z)
| PyLong_FromLongLong (v : Z).

(** The Python integer that results: the value of the C argument. *)
Definition py_value (c : py_int_call) : Z :=
  match c with
  | PyInt_FromLong v | PyLong_FromUnsignedLong v
  | PyLong_FromUnsignedLongLong v | PyLong_FromLongLong v => v
  end.

(** [_cffi_from_c_int_const(x)], where [long] has [long_bits] bits and
    [long long] has 64. *)
Definition cffi_from_c_int_const (long_bits x : Z) : py_int_call :=
  let long_max := 2 ^ (long_bits - 1) - 1 in
  let long_min := - 2 ^ (long_bits - 1) in
  if x >? 0 then
    if to_unsigned 64 x <=? to_unsigned 64 long_max
    then PyInt_FromLong (to_signed long_bits x)
    else PyLong_FromUnsignedLongLong (to_unsigned 64 x)
  else
    if to_signed 64 x >=? to_signed 64 long_min
    then PyInt_FromLong (to_signed long_bits x)
    else PyLong_FromLongLong (to_signed 64 x).

(** [(type)x] for a type of [size] bytes. *)
Definition to_type (size : Z) (unsigned : bool) (x : Z) : Z :=
  if unsigned then to_unsigned (8 * size) x else to_signed (8 * size) x.

(** [_cffi_from_c_int(x, type)], where [long] has [long_size] bytes. *)
Definition cffi_from_c_int (long_size size : Z) (unsigned : bool) (x : Z)
  : py_int_call :=
  if to_type size unsigned (-1) >? 0 then
    if size <? long_size then PyInt_FromLong (to_signed (8 * long_size) x)
    else if size =? long_size
         then PyLong_FromUnsignedLong (to_unsigned (8 * long_size) x)
         else PyLong_FromUnsignedLongLong (to_unsigned 64 x)
  else
    if size <=? long_size then PyInt_FromLong (to_signed (8 * long_size) x)
    else PyLong_FromLongLong (to_signed 64 x).

(** The values a type of [size] bytes holds. *)
Definition in_type (size : Z) (unsigned : bool) (x : Z) : Prop :=
  if unsigned then 0 <= x < 2 ^ (8 * size)
  else - 2 ^ (8 * size - 1) <= x < 2 ^ (8 * size - 1).

(** ** The heap blocks of large arguments

    What the glue owns is a singly linked list of [struct _cffi_freeme_s]
    blocks obtained from [PyObject_Malloc]. The model keeps, for every
    block that is allocated, its [next] field; the calls that touch the
    data (memset, the backend's converter) are recorded as events. *)

(** The address of a block; [None] is the null pointer. *)
Definition addr : Type := nat.

(** Allocated blocks with their [next] field, most recent first. *)
Definition heap : Type := list (addr * option addr).

Fixpoint heap_get (h : heap) (a : addr) : option (option addr) :=
  match h with
  | [] => None
  | (b, nx) :: h' => if Nat.eqb a b then Some nx else heap_get h' a
  end.

(** [PyObject_Free(a)]. *)
Definition heap_del (h : heap) (a : addr) : heap :=
  filter (fun e => negb (Nat.eqb (fst e) a)) h.

(** The heap after freeing the blocks [l] one after the other. *)
Definition heap_without (h : heap) (l : list addr) : heap :=
  fold_left heap_del l h.

(** A [char*] the glue handles: null, the buffer [alloca] made for
    argument [i], the data of a heap block, or a pointer the backend
    gave for a cdata object. *)
Inductive data_ptr : Type :=
| NullPtr
| Alloca (i : nat)
| BlockData (a : addr)
| Foreign (p : nat).

(** A Python object, by identity, and [_cffi_type(num)], by its index. *)
Definition py_object : Type := nat.
Definition ctype : Type := nat.
Definition cffi_type (num : nat) : ctype := num.

Inductive glue_event : Type :=
| EvMemset (p : data_ptr) (size : Z)
| EvConvert (p : data_ptr) (ct : ctype) (arg : py_object)
| EvAllowThreads
| EvRestoreErrno
| EvKernel (x0 : data_ptr) (x1 x2 x3 : Z) (x4 x5 x6 : data_ptr)
| EvSaveErrno
| EvEndAllowThreads.

Definition is_conversion (e : glue_event) : bool :=
  match e with
  | EvMemset _ _ | EvConvert _ _ _ => true
  | _ => false
  end.

(** Allocated blocks, and what happened so far, most recent first. *)
Record glue : Type := mkglue { g_heap : heap; g_trace : list glue_event }.

(** How a loop of the glue ends. *)
Inductive run (A : Type) : Type :=
| Done (a : A)
| Undefined
| OutOfFuel.
Arguments Done {A} a.
Arguments Undefined {A}.
Arguments OutOfFuel {A}.

(** The do-while of [_cffi_free_array_arguments]. *)
Fixpoint free_loop (fuel : nat) (freeme : option addr) (h : heap)
  : run heap :=
  match fuel with
  | O => OutOfFuel
  | S fuel' =>
      match freeme with
      | None => Undefined                      (* freeme->next at null *)
      | Some p =>
          match heap_get h p with
          | None => Undefined                  (* not an allocated block *)
          | Some nx =>
              let h' := heap_del h p in
              match nx with
              | None => Done h'
              | Some _ => free_loop fuel' nx h'
              end
          end
      end
  end.

(** [_cffi_free_array_arguments]: every round frees a block, so one round
    more than there are blocks is enough. *)
Definition cffi_free_array_arguments (freeme : option addr) (h : heap)
  : run heap :=
  free_loop (S (length h)) freeme h.

(** The blocks reachable from [freeme], in order: allocated, distinct,
    ending in null. *)
Inductive chain (h : heap) : option addr -> list addr -> Prop :=
| chain_nil : chain h None []
| chain_cons (a : addr) (nx : option addr) (l : list addr) :
    heap_get h a = Some nx -> ~ In a l -> chain h nx l ->
    chain h (Some a) (a :: l).

(** A step of the wrapper: [large_args_free] and the state go in and come
    out; no value stands for [return NULL]. *)
Definition W (A : Type) : Type :=
  option addr -> glue -> option A * option addr * glue.

Definition wret {A : Type} (a : A) : W A := fun fm g => (Some a, fm, g).

Definition wbind {A B : Type} (c : W A) (k : A -> W B) : W B :=
  fun fm g =>
    match c fm g with
    | (Some a, fm', g') => k a fm' g'
    | (None, fm', g') => (None, fm', g')
    end.

Notation "x <-- c ;;; k" := (wbind c (fun x => k))
  (at level 61, c at next level, right associativity).

(** What the wrapper hands back. *)
Inductive py_result : Type := PyNULL | PyNone.

Section Backend.

(** What the Python runtime and the cffi backend answer; an answer may
    depend on what happened before. *)
Variable PyObject_Malloc : glue -> Z -> option addr.
Variable convert_array_from_object :
  glue -> data_ptr -> ctype -> py_object -> Z.
Variable prepare_pointer_call_argument :
  glue -> ctype -> py_object -> Z * data_ptr.
(** The value and whether [PyErr_Occurred()] afterwards. *)
Variable to_c_i32 : glue -> py_object -> Z * bool.
Variable PyArg_ParseTuple :
  py_object -> option (py_object * py_object * py_object * py_object
                       * py_object * py_object * py_object).

(** [offsetof(struct _cffi_freeme_s, alignment)] and the width of
    [size_t]. *)
Variable header : Z.
Variable size_bits : Z.

(** [_cffi_convert_array_argument]: the return code, [*output_data],
    [*freeme] and the state afterwards. *)
Definition cffi_convert_array_argument (ctptr : ctype) (arg : py_object)
  (output_data : data_ptr) (datasize : Z) (freeme : option addr) (g : glue)
  : Z * data_ptr * option addr * glue :=
  if datasize <? 0 then (-1, output_data, freeme, g)
  else
    let fill p fm hp :=
      let g1 := mkglue hp (EvMemset p (to_unsigned size_bits datasize)
                           :: g_trace g) in
      (convert_array_from_object g1 p ctptr arg, p, fm,
       mkglue hp (EvConvert p ctptr arg :: g_trace g1)) in
    match output_data with
    | NullPtr =>
        match PyObject_Malloc g
                (to_unsigned size_bits
                   (header + to_unsigned size_bits datasize)) with
        | None => (-1, NullPtr, freeme, g)
        | Some fp => fill (BlockData fp) (Some fp) ((fp, freeme) :: g_heap g)
        end
    | p => fill p freeme (g_heap g)
    end.

(** A pointer argument of the wrapper, the [i]-th, of type
    [_cffi_type(t)]. *)
Definition pointer_argument (i : nat) (t : nat) (arg : py_object)
  : W data_ptr :=
  fun large_args_free g =>
    let '(datasize, x) := prepare_pointer_call_argument g (cffi_type t) arg in
    if negb (datasize =? 0) then
      let x := if to_unsigned size_bits datasize <=? 640
               then Alloca i else NullPtr in
      let '(rc, x, large_args_free, g) :=
        cffi_convert_array_argument (cffi_type t) arg x datasize
          large_args_free g in
      if rc <? 0 then (None, large_args_free, g)
      else (Some x, large_args_free, g)
    else (Some x, large_args_free, g).

(** An [int] argument of the wrapper: [_cffi_to_c_int(arg, int)] and the
    test after it. *)
Definition int_argument (arg : py_object) : W Z :=
  fun large_args_free g =>
    let '(v, err) := to_c_i32 g arg in
    let x := to_type 4 false v in
    if (x =? to_type 4 false (-1)) && err then (None, large_args_free, g)
    else (Some x, large_args_free, g).

(** The arguments of the wrapper, converted in the order of the source. *)
Definition convert_arguments
  (a : py_object * py_object * py_object * py_object
       * py_object * py_object * py_object)
  : W (data_ptr * Z * Z * Z * data_ptr * data_ptr * data_ptr) :=
  let '(arg0, arg1, arg2, arg3, arg4, arg5, arg6) := a in
  x0 <-- pointer_argument 0 0 arg0 ;;;
  x1 <-- int_argument arg1 ;;;
  x2 <-- int_argument arg2 ;;;
  x3 <-- int_argument arg3 ;;;
  x4 <-- pointer_argument 4 0 arg4 ;;;
  x5 <-- pointer_argument 5 1 arg5 ;;;
  x6 <-- pointer_argument 6 1 arg6 ;;;
  wret (x0, x1, x2, x3, x4, x5, x6).

(** The events of the call of the kernel, most recent first. *)
Definition kernel_call
  (x : data_ptr * Z * Z * Z * data_ptr * data_ptr * data_ptr)
  : list glue_event :=
  let '(x0, x1, x2, x3, x4, x5, x6) := x in
  [EvEndAllowThreads; EvSaveErrno; EvKernel x0 x1 x2 x3 x4 x5 x6;
   EvRestoreErrno; EvAllowThreads].

(** [_cffi_f_transform_bounds], entered with the blocks [h] allocated. *)
Definition cffi_f_transform_bounds (args : py_object) (h : heap)
  : run (py_result * glue) :=
  let g := mkglue h [] in
  match PyArg_ParseTuple args with
  | None => Done (PyNULL, g)
  | Some a =>
      match convert_arguments a None g with
      | (None, _, g) => Done (PyNULL, g)
      | (Some x, large_args_free, g) =>
          let tr := kernel_call x ++ g_trace g in
          match large_args_free with
          | None => Done (PyNone, mkglue (g_heap g) tr)
          | Some _ =>
              match cffi_free_array_arguments large_args_free (g_heap g) with
              | Done h' => Done (PyNone, mkglue h' tr)
              | Undefined => Undefined
              | OutOfFuel => OutOfFuel
              end
          end
      end
  end.

End Backend.

(** An allocator that never hands out a block twice, and a backend that
    wants a large array for argument 10, a small one for 14, has a pointer
    for 15, wants a large array for 16, and fails on the integer 99. *)
Definition bump_malloc (g : glue) (n : Z) : option addr :=
  Some (S (list_max (map fst (g_heap g)))).
Definition demo_convert (g : glue) (p : data_ptr) (ct : ctype)
  (arg : py_object) : Z := 0.
Definition demo_prepare (g : glue) (ct : ctype) (arg : py_object)
  : Z * data_ptr :=
  match arg with
  | 10%nat => (4096, NullPtr)
  | 14%nat => (64, NullPtr)
  | 16%nat => (1000, NullPtr)
  | _ => (0, Foreign arg)
  end.
Definition demo_to_c_i32 (g : glue) (arg : py_object) : Z * bool :=
  match arg with
  | 99%nat => (-1, true)
  | _ => (Z.of_nat arg, false)
  end.
Definition demo_parse (args : py_object)
  : option (py_object * py_object * py_object * py_object
            * py_object * py_object * py_object) :=
  match args with
  | 0%nat => None
  | 1%nat => Some (10, 3, 12, 0, 14, 15, 16)%nat
  | _ => Some (10, 3, 99, 0, 14, 15, 16)%nat
  end.
Definition demo_wrapper : py_object -> heap -> run (py_result * glue) :=
  cffi_f_transform_bounds bump_malloc demo_convert demo_prepare
    demo_to_c_i32 demo_parse 8 64.


(** ** What the steps of the wrapper keep *)

(** A property of [large_args_free] and the state that a step keeps. *)
Definition preserves {A : Type} (P : option addr -> glue -> Prop) (c : W A)
  : Prop :=
  forall fm g r fm' g', P fm g -> c fm g = (r, fm', g') -> P fm' g'.

(** The blocks the wrapper has allocated since it was entered with [h]:
    they sit in front of [h], [large_args_free] lists them, and none of
    them was allocated before. *)
Definition owns (h : heap) (fm : option addr) (g : glue) : Prop :=
  exists blocks,
    g_heap g = blocks ++ h
    /\ chain (g_heap g) fm (map fst blocks)
    /\ Forall (fun a => heap_get h a = None) (map fst blocks).

(** Nothing freed, and nothing done but conversions. *)
Definition converting (h : heap) (fm : option addr) (g : glue) : Prop :=
  (exists blocks, g_heap g = blocks ++ h)
  /\ forallb is_conversion (g_trace g) = true.

(** No block allocated. *)
Definition untouched (h : heap) (fm : option addr) (g : glue) : Prop :=
  fm = None /\ g_heap g = h.

(** ** Importing the backend *)

(** The references a function holds, one entry for each. *)
Definition held : Type := list py_object.

(** [Py_DECREF(o)]: gives up one reference to [o]; there is no value when
    none is held. *)
Fixpoint release (o : py_object) (hs : held) : option held :=
  match hs with
  | [] => None
  | o' :: hs' =>
      if Nat.eqb o o' then Some hs'
      else match release o hs' with
           | Some r => Some (o' :: r)
           | None => None
           end
  end.

(** [Py_XDECREF(o)]. *)
Definition xrelease (o : option py_object) (hs : held) : option held :=
  match o with
  | None => Some hs
  | Some o => release o hs
  end.

(** [_CFFI_NUM_EXPORTS]. *)
Definition CFFI_NUM_EXPORTS : nat := 25.

(** What [_cffi_init] leaves: its return code, the references it still
    holds, the pointers copied into [_cffi_exports] if any were, and
    whether it has set [ImportError] itself. *)
Record init_result : Type := mkinit {
  init_code : Z;
  init_held : held;
  init_exports : option (list nat);
  init_error : bool
}.

(** [_cffi_init], given what the runtime answers: the module imported,
    its attribute [_C_API], whether that is a capsule, and the pointer
    the capsule gives for the name [cffi]: null, or the address of an
    array, given here by the pointers that can be read from it. *)
Definition cffi_init
  (PyImport_ImportModule : option py_object)
  (PyObject_GetAttrString : py_object -> option py_object)
  (PyCapsule_CheckExact : py_object -> bool)
  (PyCapsule_GetPointer : py_object -> option (list nat))
  : run init_result :=
  let failure module c_api_object hs err :=
    match xrelease module hs with
    | None => Undefined
    | Some hs =>
        match xrelease c_api_object hs with
        | None => Undefined
        | Some hs => Done (mkinit (-1) hs None err)
        end
    end in
  match PyImport_ImportModule with
  | None => failure None None [] false
  | Some module =>
      let hs := [module] in
      match PyObject_GetAttrString module with
      | None => failure (Some module) None hs false
      | Some c_api_object =>
          let hs := c_api_object :: hs in
          if negb (PyCapsule_CheckExact c_api_object)
          then failure (Some module) (Some c_api_object) hs true
          else
            match PyCapsule_GetPointer c_api_object with
            | None => Undefined                (* memcpy from null *)
            | Some table =>
                if Nat.ltb (length table) CFFI_NUM_EXPORTS
                then Undefined                 (* memcpy past the array *)
                else
                  match release module hs with
                  | None => Undefined
                  | Some hs =>
                      match release c_api_object hs with
                      | None => Undefined
                      | Some hs =>
                          Done (mkinit 0 hs
                                  (Some (firstn CFFI_NUM_EXPORTS table))
                                  false)
                      end
                  end
            end
      end
  end.

(** ** Translations that are not finite *)

(** [u] is the infinity opposite to the infinity [t]: their sum is a NaN. *)
Definition cancels (t u : float) : bool :=
  match t, u with
  | S754_infinity s, S754_infinity s' => xorb s s'
  | _, _ => false
  end.

(** [u] is a number, and not the infinity opposite to [t]. *)
Definition survives (t u : float) : bool :=
  negb (F32.is_nan u) && negb (cancels t u).

(** Equal for [==], or NaN both. *)
Definition alike (x y : float) : bool :=
  F32.eqb x y || (F32.is_nan x && F32.is_nan y).

(** Where the translation [t] of an axis does not commute with the box:
    [us] are the coordinates of the records under the identity; the first
    is a number, one of them is the infinity opposite to [t], and one of
    them is a number other than that infinity. *)
Definition broken (t : float) (us : list float) : bool :=
  match us with
  | [] => false
  | u0 :: _ =>
      negb (F32.is_nan u0) && existsb (cancels t) us
      && existsb (survives t) us
  end.

(** The claim on axis [k], up to the sign of a zero: the box under the
    translation against the box under the identity, moved. *)
Definition shifted_axis (k : axis) (t : vec3) (sI sT : machine) : bool :=
  alike (coord k (out_min sT)) (coord k (shift (out_min sI) t))
  && alike (coord k (out_max sT)) (coord k (shift (out_max sI) t)).

(** A value of an axis before the translation is added: if it is finite
    it fits the format. *)
Definition sound (w : float) : Prop :=
  F32.is_finite w = true -> finite_valid w = true.

(** A number that is [sound]. *)
Definition num (w : float) : Prop := F32.is_nan w = false /\ sound w.

(** A translation to infinity along x. *)
Definition far_shift : vec3 := mkvec3 plus_infinity (fz (-2)) (fz 7).

(** * Order facts about binary32 *)

Lemma SFcompare_key (a b : float) :
  F32.is_nan a = false -> F32.is_nan b = false ->
  exists c, SFcompare a b = Some c /\
    match c with
    | Lt => klt (key a) (key b)
    | Eq => keq (key a) (key b)
    | Gt => klt (key b) (key a)
    end.
Proof.
  intros Ha Hb.
  destruct a as [sa|sa| |sa ma ea]; try discriminate;
  destruct b as [sb|sb| |sb mb eb]; try discriminate;
  try destruct sa; try destruct sb; simpl;
  try (eexists; split; [reflexivity|]; simpl; lia).
  - change (Pos.compare_cont Eq ma mb) with (Pos.compare ma mb).
    destruct (Z.compare_spec ea eb);
      try (eexists; split; [reflexivity|]; simpl; lia).
    destruct (Pos.compare_spec ma mb);
      (eexists; split; [reflexivity|]; simpl; lia).
  - change (Pos.compare_cont Eq ma mb) with (Pos.compare ma mb).
    destruct (Z.compare_spec ea eb);
      try (eexists; split; [reflexivity|]; simpl; lia).
    destruct (Pos.compare_spec ma mb);
      (eexists; split; [reflexivity|]; simpl; lia).
Qed.

Lemma SFcompare_nan_r (a : float) : SFcompare a S754_nan = None.
Proof. destruct a; reflexivity. Qed.

Lemma SFcompare_some (a b : float) (c : comparison) :
  SFcompare a b = Some c -> F32.is_nan a = false /\ F32.is_nan b = false.
Proof.
  destruct a, b; simpl; try discriminate; auto.
Qed.

Lemma ltb_iff (a b : float) :
  F32.ltb a b = true <->
  F32.is_nan a = false /\ F32.is_nan b = false /\ klt (key a) (key b).
Proof.
  unfold F32.ltb, SFltb. split.
  - destruct (SFcompare a b) as [c|] eqn:E; try discriminate.
    destruct (SFcompare_some _ _ _ E) as [Ha Hb].
    destruct (SFcompare_key a b Ha Hb) as [c' [E' H]].
    rewrite E in E'. injection E' as <-.
    destruct c; try discriminate. auto.
  - intros [Ha [Hb H]].
    destruct (SFcompare_key a b Ha Hb) as [c [E Hc]]. rewrite E.
    destruct (key a) as [[a1 a2] a3], (key b) as [[b1 b2] b3].
    destruct c; simpl in *; auto; lia.
Qed.

Lemma gtb_iff (a b : float) :
  F32.gtb a b = true <->
  F32.is_nan a = false /\ F32.is_nan b = false /\ klt (key b) (key a).
Proof.
  unfold F32.gtb. split.
  - destruct (SFcompare a b) as [c|] eqn:E; try discriminate.
    destruct (SFcompare_some _ _ _ E) as [Ha Hb].
    destruct (SFcompare_key a b Ha Hb) as [c' [E' H]].
    rewrite E in E'. injection E' as <-.
    destruct c; try discriminate. auto.
  - intros [Ha [Hb H]].
    destruct (SFcompare_key a b Ha Hb) as [c [E Hc]]. rewrite E.
    destruct (key a) as [[a1 a2] a3], (key b) as [[b1 b2] b3].
    destruct c; simpl in *; auto; lia.
Qed.

Lemma leb_iff (a b : float) :
  F32.leb a b = true <->
  F32.is_nan a = false /\ F32.is_nan b = false /\
  (klt (key a) (key b) \/ keq (key a) (key b)).
Proof.
  unfold F32.leb, SFleb. split.
  - destruct (SFcompare a b) as [c|] eqn:E; try discriminate.
    destruct (SFcompare_some _ _ _ E) as [Ha Hb].
    destruct (SFcompare_key a b Ha Hb) as [c' [E' H]].
    rewrite E in E'. injection E' as <-.
    destruct c; try discriminate; auto.
  - intros [Ha [Hb H]].
    destruct (SFcompare_key a b Ha Hb) as [c [E Hc]]. rewrite E.
    destruct (key a) as [[a1 a2] a3], (key b) as [[b1 b2] b3].
    destruct c; simpl in *; auto; lia.
Qed.

Lemma eqb_iff (a b : float) :
  F32.eqb a b = true <->
  F32.is_nan a = false /\ F32.is_nan b = false /\ keq (key a) (key b).
Proof.
  unfold F32.eqb, SFeqb. split.
  - destruct (SFcompare a b) as [c|] eqn:E; try discriminate.
    destruct (SFcompare_some _ _ _ E) as [Ha Hb].
    destruct (SFcompare_key a b Ha Hb) as [c' [E' H]].
    rewrite E in E'. injection E' as <-.
    destruct c; try discriminate; auto.
  - intros [Ha [Hb H]].
    destruct (SFcompare_key a b Ha Hb) as [c [E Hc]]. rewrite E.
    destruct (key a) as [[a1 a2] a3], (key b) as [[b1 b2] b3].
    destruct c; simpl in *; auto; lia.
Qed.

(** Turns every comparison in sight into a statement about keys. *)
Ltac float_order :=
  repeat match goal with
         | H : F32.ltb _ _ = true |- _ => apply ltb_iff in H
         | H : F32.gtb _ _ = true |- _ => apply gtb_iff in H
         | H : F32.leb _ _ = true |- _ => apply leb_iff in H
         | H : F32.eqb _ _ = true |- _ => apply eqb_iff in H
         | H : _ /\ _ |- _ => destruct H
         | |- F32.ltb _ _ = true => apply ltb_iff
         | |- F32.gtb _ _ = true => apply gtb_iff
         | |- F32.leb _ _ = true => apply leb_iff
         | |- F32.eqb _ _ = true => apply eqb_iff
         end;
  repeat match goal with
         | |- context [key ?a] =>
             let k1 := fresh "k" in let k2 := fresh "k" in
             let k3 := fresh "k" in
             destruct (key a) as [[k1 k2] k3]
         | H : context [key ?a] |- _ =>
             let k1 := fresh "k" in let k2 := fresh "k" in
             let k3 := fresh "k" in
             destruct (key a) as [[k1 k2] k3]
         end;
  unfold klt, keq in *; repeat split; auto; try lia.

Lemma leb_trans (a b c : float) :
  F32.leb a b = true -> F32.leb b c = true -> F32.leb a c = true.
Proof. intros H1 H2. float_order. Qed.

Lemma leb_refl (a : float) : F32.is_nan a = false -> F32.leb a a = true.
Proof. intros H. float_order. Qed.

Lemma ltb_leb (a b : float) : F32.ltb a b = true -> F32.leb a b = true.
Proof. intros H. float_order. Qed.

Lemma gtb_leb (a b : float) : F32.gtb a b = true -> F32.leb b a = true.
Proof. intros H. float_order. Qed.

Lemma not_ltb_leb (a b : float) :
  F32.is_nan a = false -> F32.is_nan b = false ->
  F32.ltb a b = false -> F32.leb b a = true.
Proof.
  intros Ha Hb H.
  destruct (F32.leb b a) eqn:E; auto.
  exfalso. assert (F32.ltb a b = true); [|congruence].
  apply ltb_iff. repeat split; auto.
  assert (N : ~ (klt (key b) (key a) \/ keq (key b) (key a))).
  { intro K. assert (F32.leb b a = true) by (apply leb_iff; auto).
    congruence. }
  clear E H. float_order.
Qed.

Lemma not_gtb_leb (a b : float) :
  F32.is_nan a = false -> F32.is_nan b = false ->
  F32.gtb a b = false -> F32.leb a b = true.
Proof.
  intros Ha Hb H.
  destruct (F32.leb a b) eqn:E; auto.
  exfalso. assert (F32.gtb a b = true); [|congruence].
  apply gtb_iff. repeat split; auto.
  assert (N : ~ (klt (key a) (key b) \/ keq (key a) (key b))).
  { intro K. assert (F32.leb a b = true) by (apply leb_iff; auto).
    congruence. }
  clear E H. float_order.
Qed.

Lemma leb_antisym (a b : float) :
  F32.leb a b = true -> F32.leb b a = true -> F32.eqb a b = true.
Proof. intros H1 H2. float_order. Qed.

(** * The machine run equals the pure computation *)

Lemma push_push (l1 l2 : list event) (s : machine) :
  push l1 (push l2 s) = push (l1 ++ l2) s.
Proof. unfold push; simpl. now rewrite app_assoc. Qed.

Lemma push_nil (s : machine) : push [] s = s.
Proof. now destruct s. Qed.

Lemma read_vertex_run (buf : list byte) (off : Z) (s : machine) :
  read_vertex buf off s =
  match load_f32 buf off with
  | Some v => Some (v, push [RdVertex off] s)
  | None => None
  end.
Proof.
  unfold read_vertex, bind, lift, emit, ret.
  now destruct (load_f32 buf off).
Qed.

Lemma read_matrix_run (matrix : option (list float)) (k : nat) (s : machine) :
  read_matrix matrix k s =
  match match matrix with Some m => nth_error m k | None => None end with
  | Some v => Some (v, push [RdMatrix k] s)
  | None => None
  end.
Proof.
  unfold read_matrix, bind, lift, emit, ret.
  now destruct matrix as [m|]; [destruct (nth_error m k)|].
Qed.

Lemma read_coeffs_run (matrix : option (list float)) (s : machine) :
  read_coeffs matrix s =
  match coeffs_of matrix with
  | Some m => Some (m, push matrix_log s)
  | None => None
  end.
Proof.
  unfold read_coeffs, coeffs_of.
  destruct matrix as [m|].
  - repeat (unfold bind at 1; rewrite read_matrix_run;
            match goal with
            | |- context [nth_error m ?k] => destruct (nth_error m k)
            end; [|reflexivity]).
    unfold ret. rewrite !push_push. reflexivity.
  - reflexivity.
Qed.

Lemma read_position_run (buf : list byte) (st off i : Z) (s : machine) :
  read_position buf st off i s =
  match record_position buf st off i with
  | Some p =>
      let o := i * st + off in
      Some (p, push [RdVertex (o + 8); RdVertex (o + 4); RdVertex o] s)
  | None => None
  end.
Proof.
  unfold read_position, record_position, address, position_at, int_op.
  unfold bind at 1. unfold lift at 1.
  destruct (in_int (i * st)); [|reflexivity].
  cbv zeta.
  unfold bind at 1. rewrite read_vertex_run.
  destruct (load_f32 buf (i * st + off)); [|reflexivity].
  unfold bind at 1. rewrite read_vertex_run.
  destruct (load_f32 buf (i * st + off + 4)); [|reflexivity].
  unfold bind at 1. rewrite read_vertex_run.
  destruct (load_f32 buf (i * st + off + 8)); [|reflexivity].
  unfold ret. rewrite !push_push. reflexivity.
Qed.

Lemma loop_run (buf : list byte) (st off : Z) (m : coeffs) (n : nat) :
  forall (i : Z) (b : bounds) (s : machine),
  loop n buf st off m i b s =
  match gather n buf st off i with
  | Some ps => Some (accumulate i b (map (transform m) ps),
                     push (vertex_log n st off i) s)
  | None => None
  end.
Proof.
  induction n as [|n IH]; intros i b s; simpl.
  - unfold ret. now rewrite push_nil.
  - unfold bind at 1. unfold body. unfold bind at 1.
    rewrite read_position_run.
    destruct (record_position buf st off i) as [p|]; [|reflexivity].
    cbv zeta. unfold ret at 1. rewrite IH.
    destruct (gather n buf st off (i + 1)) as [ps|]; [|reflexivity].
    simpl. now rewrite push_push.
Qed.

Lemma accumulate_later (ts : list vec3) :
  forall (i : Z) (b : bounds),
  0 < i -> accumulate i b ts = fold_left widen ts b.
Proof.
  induction ts as [|t ts IH]; intros i b Hi; simpl; [reflexivity|].
  replace (i =? 0) with false by (symmetry; apply Z.eqb_neq; lia).
  apply IH. lia.
Qed.

Lemma accumulate_aabb (ts : list vec3) :
  accumulate 0 zero_bounds ts = aabb ts.
Proof.
  destruct ts as [|t ts]; simpl; [reflexivity|].
  apply accumulate_later. lia.
Qed.

(** What a call computes, in one equation. *)
Lemma call_spec (vertices : option (list byte)) (n st off : Z)
  (matrix : option (list float)) (omin omax : vec3) :
  call vertices n st off matrix omin omax =
  match vertices with
  | None => Some (mkmachine zero3 zero3 zero_log)
  | Some buf =>
      if n <=? 0 then Some (mkmachine zero3 zero3 zero_log)
      else
        match coeffs_of matrix with
        | Some m =>
            match gather (Z.to_nat n) buf st off 0 with
            | Some ps =>
                let b := aabb (map (transform m) ps) in
                Some (mkmachine (lo_corner b) (hi_corner b)
                        (store_log ++ vertex_log (Z.to_nat n) st off 0
                           ++ matrix_log))
            | None => None
            end
        | None => None
        end
  end.
Proof.
  unfold call, transform_bounds.
  destruct vertices as [buf|]; [|reflexivity].
  destruct (n <=? 0); [reflexivity|].
  unfold bind at 1. rewrite read_coeffs_run.
  destruct (coeffs_of matrix) as [m|]; [|reflexivity].
  unfold bind at 1. rewrite loop_run.
  destruct (gather (Z.to_nat n) buf st off 0) as [ps|]; [|reflexivity].
  rewrite accumulate_aabb. reflexivity.
Qed.

(** * Facts about the log *)

Lemma vertex_log_reads (n : nat) (st off : Z) :
  forall i e, In e (vertex_log n st off i) -> exists o, e = RdVertex o.
Proof.
  induction n as [|n IH]; intros i e H; simpl in H; [contradiction|].
  apply in_app_or in H. destruct H as [H|H]; [now apply IH in H|].
  simpl in H. intuition eauto.
Qed.

Lemma filter_nil_when {A} (f : A -> bool) (l : list A) :
  (forall x, In x l -> f x = false) -> filter f l = [].
Proof.
  induction l as [|x l IH]; intros H; simpl; [reflexivity|].
  rewrite (H x (or_introl eq_refl)). apply IH. intros y Hy. apply H. now right.
Qed.

Lemma vertex_log_no_store_min (k n : nat) (st off i : Z) :
  filter (is_store_min k) (vertex_log n st off i) = [].
Proof.
  apply filter_nil_when. intros e H.
  apply vertex_log_reads in H. destruct H as [o ->]. reflexivity.
Qed.

Lemma vertex_log_no_store_max (k n : nat) (st off i : Z) :
  filter (is_store_max k) (vertex_log n st off i) = [].
Proof.
  apply filter_nil_when. intros e H.
  apply vertex_log_reads in H. destruct H as [o ->]. reflexivity.
Qed.

Lemma coeffs_of_same_affine (m m' : list float) :
  same_affine_part m m' -> coeffs_of (Some m) = coeffs_of (Some m').
Proof.
  intros H. unfold coeffs_of.
  rewrite (H 0%nat), (H 4%nat), (H 8%nat), (H 12%nat), (H 1%nat), (H 5%nat),
    (H 9%nat), (H 13%nat), (H 2%nat), (H 6%nat), (H 10%nat), (H 14%nat);
    reflexivity.
Qed.

(** * Degenerate input *)

(** C2. When [vertices] is null or [vertex_count <= 0] the call returns
    with (0,0,0) in both output arrays, all six elements stored, whatever
    the stride, the offset, the matrix and the prior output contents. *)
Theorem degenerate_zero_box (vertices : option (list byte)) (n st off : Z)
  (matrix : option (list float)) (omin omax : vec3) :
  degenerate vertices n = true ->
  call vertices n st off matrix omin omax
  = Some (mkmachine zero3 zero3 zero_log).
Proof.
  intros H. rewrite call_spec.
  destruct vertices as [buf|]; [|reflexivity].
  simpl in H. now rewrite H.
Qed.

Lemma degenerate_zero_box_witness :
  degenerate None 3 = true /\
  degenerate (Some spec_example) 0 = true /\
  call None 3 12 0 (Some identity) junk junk
  = Some (mkmachine zero3 zero3 zero_log) /\
  call (Some spec_example) 0 12 0 None junk junk
  = Some (mkmachine zero3 zero3 zero_log).
Proof.
  split; [reflexivity|]. split; [reflexivity|]. split.
  - apply (degenerate_zero_box None 3 12 0 (Some identity) junk junk).
    reflexivity.
  - apply (degenerate_zero_box (Some spec_example) 0 12 0 None junk junk).
    reflexivity.
Defined.

(** C10. In the degenerate case the call returns without loading anything
    from the vertex buffer or from the matrix: the log holds no read, and
    a null matrix gives the same run as any other. *)
Theorem degenerate_reads_nothing (vertices : option (list byte))
  (n st off : Z) (matrix : option (list float)) (omin omax : vec3) :
  degenerate vertices n = true ->
  exists s : machine,
    call vertices n st off matrix omin omax = Some s /\
    call vertices n st off None omin omax = Some s /\
    Forall (fun e => is_read e = false) (log s).
Proof.
  intros H. exists (mkmachine zero3 zero3 zero_log).
  rewrite !call_spec.
  destruct vertices as [buf|].
  - simpl in H. rewrite H. repeat split. simpl. repeat constructor.
  - repeat split. simpl. repeat constructor.
Qed.

Lemma degenerate_reads_nothing_witness :
  degenerate (Some spec_example) (-1) = true /\
  exists s : machine,
    call (Some spec_example) (-1) 12 0 (Some identity) junk junk = Some s /\
    call (Some spec_example) (-1) 12 0 None junk junk = Some s /\
    Forall (fun e => is_read e = false) (log s).
Proof.
  split; [reflexivity|].
  apply (degenerate_reads_nothing (Some spec_example) (-1) 12 0
           (Some identity) junk junk).
  reflexivity.
Defined.

(** * What the call does not look at *)

(** C8. Matrix entries 3, 7, 11 and 15 are never loaded, and two calls
    whose matrices differ at most there end in the same machine: same
    [out_min], same [out_max], same log. *)
Theorem last_row_ignored (vertices : option (list byte)) (n st off : Z)
  (m m' : list float) (omin omax : vec3) :
  same_affine_part m m' ->
  call vertices n st off (Some m) omin omax
  = call vertices n st off (Some m') omin omax
  /\ forall (s : machine) (k : nat),
       call vertices n st off (Some m) omin omax = Some s ->
       In (RdMatrix k) (log s) -> last_row k = false.
Proof.
  intros H. split.
  - rewrite !call_spec. now rewrite (coeffs_of_same_affine m m' H).
  - intros s k Hs Hin. rewrite call_spec in Hs.
    destruct vertices as [buf|].
    + destruct (n <=? 0).
      * injection Hs as <-. simpl in Hin.
        repeat (destruct Hin as [Hin|Hin]; [discriminate|]). contradiction.
      * destruct (coeffs_of (Some m)); [|discriminate].
        destruct (gather (Z.to_nat n) buf st off 0); [|discriminate].
        injection Hs as <-. cbn [log store_log app] in Hin.
        do 6 (destruct Hin as [Hin|Hin]; [discriminate|]).
        apply in_app_or in Hin. destruct Hin as [Hin|Hin].
        { apply vertex_log_reads in Hin. destruct Hin as [o Ho].
          discriminate. }
        simpl in Hin.
        repeat (destruct Hin as [Hin|Hin];
                [injection Hin as <-; reflexivity|]).
        contradiction.
    + injection Hs as <-. simpl in Hin.
      repeat (destruct Hin as [Hin|Hin]; [discriminate|]). contradiction.
Qed.

Lemma with_last_row_same (a b c d : float) (m : list float) :
  same_affine_part m (with_last_row a b c d m).
Proof.
  intros k Hk. unfold with_last_row.
  do 16 (destruct m as [|? m]; [reflexivity|]).
  destruct m as [|? m]; [|reflexivity].
  do 16 (destruct k as [|k]; [reflexivity || discriminate|]).
  reflexivity.
Qed.

Lemma last_row_ignored_witness :
  same_affine_part identity
    (with_last_row (fz 7) (fz 8) (fz 9) S754_nan identity) /\
  outputs (call (Some spec_example) 3 12 0
             (Some (with_last_row (fz 7) (fz 8) (fz 9) S754_nan identity))
             junk junk)
  = Some (vz (-1) 0 0, vz 1 5 3).
Proof.
  split; [apply with_last_row_same|].
  rewrite <- (proj1 (last_row_ignored (Some spec_example) 3 12 0 identity
                       (with_last_row (fz 7) (fz 8) (fz 9) S754_nan identity)
                       junk junk (with_last_row_same _ _ _ _ _))).
  vm_compute. reflexivity.
Defined.

(** C9. The prior contents of [out_min] and [out_max] have no influence
    on the run, and a call that returns has stored each of the six output
    elements exactly once. *)
Theorem outputs_write_only (vertices : option (list byte)) (n st off : Z)
  (matrix : option (list float)) (omin omax omin' omax' : vec3) :
  call vertices n st off matrix omin omax
  = call vertices n st off matrix omin' omax'
  /\ forall s : machine,
       call vertices n st off matrix omin omax = Some s ->
       forall k : nat, (k < 3)%nat ->
       stores_min k (log s) = 1%nat /\ stores_max k (log s) = 1%nat.
Proof.
  split; [now rewrite !call_spec|].
  intros s Hs k Hk. rewrite call_spec in Hs.
  assert (Z0 : stores_min k zero_log = 1%nat /\ stores_max k zero_log = 1%nat).
  { destruct k as [|[|[|k]]]; try lia; split; reflexivity. }
  destruct vertices as [buf|]; [|now injection Hs as <-].
  destruct (n <=? 0); [now injection Hs as <-|].
  destruct (coeffs_of matrix); [|discriminate].
  destruct (gather (Z.to_nat n) buf st off 0); [|discriminate].
  injection Hs as <-. cbn [log]. unfold stores_min, stores_max.
  destruct k as [|[|[|k]]]; try lia; split; simpl;
    rewrite filter_app,
      ?vertex_log_no_store_min, ?vertex_log_no_store_max; reflexivity.
Qed.

Lemma outputs_write_only_witness :
  call (Some spec_example) 3 12 0 (Some identity) junk junk
  = call (Some spec_example) 3 12 0 (Some identity) zero3 (vz 4 4 4)
  /\ exists s : machine,
       call (Some spec_example) 3 12 0 (Some identity) junk junk = Some s /\
       stores_min 0 (log s) = 1%nat /\ stores_max 2 (log s) = 1%nat.
Proof.
  pose proof (outputs_write_only (Some spec_example) 3 12 0 (Some identity)
                junk junk zero3 (vz 4 4 4)) as [E W].
  split; [exact E|].
  assert (Hs : exists s : machine,
             call (Some spec_example) 3 12 0 (Some identity) junk junk
             = Some s) by (eexists; vm_compute; reflexivity).
  destruct Hs as [s Hs]. exists s. split; [exact Hs|].
  split; [apply (W s Hs 0%nat); lia | apply (W s Hs 2%nat); lia].
Defined.

(** * The running minimum and maximum *)

Lemma lower_not_nan (v l : float) :
  F32.is_nan l = false -> F32.is_nan (lower v l) = false.
Proof.
  intros H. unfold lower. destruct (F32.ltb v l) eqn:E; [|exact H].
  apply ltb_iff in E. tauto.
Qed.

Lemma upper_not_nan (v h : float) :
  F32.is_nan h = false -> F32.is_nan (upper v h) = false.
Proof.
  intros H. unfold upper. destruct (F32.gtb v h) eqn:E; [|exact H].
  apply gtb_iff in E. tauto.
Qed.

Lemma lower_le_old (v l : float) :
  F32.is_nan l = false -> F32.leb (lower v l) l = true.
Proof.
  intros H. unfold lower. destruct (F32.ltb v l) eqn:E.
  - now apply ltb_leb.
  - now apply leb_refl.
Qed.

Lemma upper_ge_old (v h : float) :
  F32.is_nan h = false -> F32.leb h (upper v h) = true.
Proof.
  intros H. unfold upper. destruct (F32.gtb v h) eqn:E.
  - now apply gtb_leb.
  - now apply leb_refl.
Qed.

Lemma lower_le_new (v l : float) :
  F32.is_nan l = false -> F32.is_nan v = false ->
  F32.leb (lower v l) v = true.
Proof.
  intros Hl Hv. unfold lower. destruct (F32.ltb v l) eqn:E.
  - now apply leb_refl.
  - now apply not_ltb_leb.
Qed.

Lemma upper_ge_new (v h : float) :
  F32.is_nan h = false -> F32.is_nan v = false ->
  F32.leb v (upper v h) = true.
Proof.
  intros Hh Hv. unfold upper. destruct (F32.gtb v h) eqn:E.
  - now apply leb_refl.
  - now apply not_gtb_leb.
Qed.

Lemma run_lo_in (vs : list float) :
  forall l0, In (run_lo l0 vs) (l0 :: vs).
Proof.
  induction vs as [|v vs IH]; intros l0; [now left|].
  change (run_lo l0 (v :: vs)) with (run_lo (lower v l0) vs).
  destruct (IH (lower v l0)) as [H|H].
  - rewrite <- H. unfold lower. destruct (F32.ltb v l0); simpl; auto.
  - right. now right.
Qed.

Lemma run_hi_in (vs : list float) :
  forall h0, In (run_hi h0 vs) (h0 :: vs).
Proof.
  induction vs as [|v vs IH]; intros h0; [now left|].
  change (run_hi h0 (v :: vs)) with (run_hi (upper v h0) vs).
  destruct (IH (upper v h0)) as [H|H].
  - rewrite <- H. unfold upper. destruct (F32.gtb v h0); simpl; auto.
  - right. now right.
Qed.

Lemma run_lo_le_seed (vs : list float) :
  forall l0, F32.is_nan l0 = false ->
  F32.is_nan (run_lo l0 vs) = false /\ F32.leb (run_lo l0 vs) l0 = true.
Proof.
  induction vs as [|v vs IH]; intros l0 H.
  - split; [exact H | now apply leb_refl].
  - change (run_lo l0 (v :: vs)) with (run_lo (lower v l0) vs).
    destruct (IH (lower v l0) (lower_not_nan v l0 H)) as [N L].
    split; [exact N|].
    eapply leb_trans; [exact L | now apply lower_le_old].
Qed.

Lemma run_hi_ge_seed (vs : list float) :
  forall h0, F32.is_nan h0 = false ->
  F32.is_nan (run_hi h0 vs) = false /\ F32.leb h0 (run_hi h0 vs) = true.
Proof.
  induction vs as [|v vs IH]; intros h0 H.
  - split; [exact H | now apply leb_refl].
  - change (run_hi h0 (v :: vs)) with (run_hi (upper v h0) vs).
    destruct (IH (upper v h0) (upper_not_nan v h0 H)) as [N L].
    split; [exact N|].
    eapply leb_trans; [now apply upper_ge_old | exact L].
Qed.

Lemma run_lo_le (vs : list float) :
  forall l0 v, F32.is_nan l0 = false -> In v vs -> F32.is_nan v = false ->
  F32.leb (run_lo l0 vs) v = true.
Proof.
  induction vs as [|u vs IH]; intros l0 v H Hin Hv; [contradiction|].
  change (run_lo l0 (u :: vs)) with (run_lo (lower u l0) vs).
  destruct Hin as [->|Hin].
  - eapply leb_trans.
    + apply run_lo_le_seed. now apply lower_not_nan.
    + now apply lower_le_new.
  - apply IH; auto. now apply lower_not_nan.
Qed.

Lemma run_hi_ge (vs : list float) :
  forall h0 v, F32.is_nan h0 = false -> In v vs -> F32.is_nan v = false ->
  F32.leb v (run_hi h0 vs) = true.
Proof.
  induction vs as [|u vs IH]; intros h0 v H Hin Hv; [contradiction|].
  change (run_hi h0 (u :: vs)) with (run_hi (upper u h0) vs).
  destruct Hin as [->|Hin].
  - apply (leb_trans _ (upper v h0)).
    + now apply upper_ge_new.
    + apply run_hi_ge_seed. now apply upper_not_nan.
  - apply IH; auto. now apply upper_not_nan.
Qed.

(** The six locals are three independent pairs of running bounds. *)
Lemma lo_fold_widen (k : axis) (ts : list vec3) :
  forall b, lo k (fold_left widen ts b) = run_lo (lo k b) (map (coord k) ts).
Proof.
  induction ts as [|t ts IH]; intros b; [reflexivity|].
  simpl. rewrite IH. now destruct k.
Qed.

Lemma hi_fold_widen (k : axis) (ts : list vec3) :
  forall b, hi k (fold_left widen ts b) = run_hi (hi k b) (map (coord k) ts).
Proof.
  induction ts as [|t ts IH]; intros b; [reflexivity|].
  simpl. rewrite IH. now destruct k.
Qed.

Lemma lo_aabb (k : axis) (t : vec3) (ts : list vec3) :
  lo k (aabb (t :: ts)) = run_lo (coord k t) (map (coord k) ts).
Proof. simpl. rewrite lo_fold_widen. now destruct k. Qed.

Lemma hi_aabb (k : axis) (t : vec3) (ts : list vec3) :
  hi k (aabb (t :: ts)) = run_hi (coord k t) (map (coord k) ts).
Proof. simpl. rewrite hi_fold_widen. now destruct k. Qed.

Lemma coord_lo_corner (k : axis) (b : bounds) :
  coord k (lo_corner b) = lo k b.
Proof. now destruct k. Qed.

Lemma coord_hi_corner (k : axis) (b : bounds) :
  coord k (hi_corner b) = hi k b.
Proof. now destruct k. Qed.

(** Containment of one point, on one axis. *)
Lemma aabb_contains (k : axis) (t0 t : vec3) (ts : list vec3) :
  F32.is_nan (coord k t0) = false ->
  In t (t0 :: ts) -> F32.is_nan (coord k t) = false ->
  F32.leb (lo k (aabb (t0 :: ts))) (coord k t) = true /\
  F32.leb (coord k t) (hi k (aabb (t0 :: ts))) = true.
Proof.
  intros H0 Hin Ht. rewrite lo_aabb, hi_aabb.
  destruct Hin as [<-|Hin].
  - split; [now apply run_lo_le_seed | now apply run_hi_ge_seed].
  - split; [apply run_lo_le | apply run_hi_ge]; auto;
      now apply in_map.
Qed.

Lemma aabb_attained (k : axis) (t0 : vec3) (ts : list vec3) :
  In (lo k (aabb (t0 :: ts))) (map (coord k) (t0 :: ts)) /\
  In (hi k (aabb (t0 :: ts))) (map (coord k) (t0 :: ts)).
Proof.
  rewrite lo_aabb, hi_aabb. split; [apply run_lo_in | apply run_hi_in].
Qed.

(** * Records and their positions *)

Lemma gather_length (buf : list byte) (st off : Z) (n : nat) :
  forall i ps, gather n buf st off i = Some ps -> length ps = n.
Proof.
  induction n as [|n IH]; intros i ps H; simpl in H.
  - now injection H as <-.
  - destruct (record_position buf st off i); [|discriminate].
    destruct (gather n buf st off (i + 1)) as [qs|] eqn:E; [|discriminate].
    injection H as <-. simpl. f_equal. eapply IH, E.
Qed.

Lemma gather_nth (buf : list byte) (st off : Z) (n : nat) :
  forall i ps, gather n buf st off i = Some ps ->
  forall j : nat, (j < n)%nat ->
  record_position buf st off (i + Z.of_nat j) = nth_error ps j.
Proof.
  induction n as [|n IH]; intros i ps H j Hj; [lia|]. simpl in H.
  destruct (record_position buf st off i) as [p|] eqn:Ep; [|discriminate].
  destruct (gather n buf st off (i + 1)) as [qs|] eqn:E; [|discriminate].
  injection H as <-.
  destruct j as [|j]; simpl.
  - now rewrite Z.add_0_r.
  - rewrite <- (IH (i + 1) qs E j) by lia. f_equal. lia.
Qed.

(** * Non-degenerate calls *)

Lemma call_nonempty (buf : list byte) (n st off : Z)
  (matrix : option (list float)) (omin omax : vec3) (s : machine) :
  0 < n ->
  call (Some buf) n st off matrix omin omax = Some s ->
  exists m p0 ps,
    coeffs_of matrix = Some m /\
    gather (Z.to_nat n) buf st off 0 = Some (p0 :: ps) /\
    out_min s = lo_corner (aabb (map (transform m) (p0 :: ps))) /\
    out_max s = hi_corner (aabb (map (transform m) (p0 :: ps))).
Proof.
  intros Hn H. rewrite call_spec in H.
  replace (n <=? 0) with false in H by (symmetry; apply Z.leb_gt; lia).
  destruct (coeffs_of matrix) as [m|]; [|discriminate].
  destruct (gather (Z.to_nat n) buf st off 0) as [ps|] eqn:G; [|discriminate].
  injection H as <-.
  destruct ps as [|p0 ps].
  - apply gather_length in G. simpl in G. lia.
  - exists m, p0, ps. repeat split.
Qed.

Lemma transformed_nth (buf : list byte) (n st off : Z)
  (matrix : option (list float)) (ts : list vec3) :
  transformed_all buf n st off matrix = Some ts ->
  length ts = Z.to_nat n /\
  forall i, 0 <= i < n ->
    transformed buf st off matrix i = nth_error ts (Z.to_nat i).
Proof.
  unfold transformed_all, transformed. intros H.
  destruct (coeffs_of matrix) as [m|]; [|discriminate].
  destruct (gather (Z.to_nat n) buf st off 0) as [ps|] eqn:G; [|discriminate].
  injection H as <-. split.
  - rewrite length_map. eapply gather_length, G.
  - intros i Hi.
    pose proof (gather_nth _ _ _ _ _ _ G (Z.to_nat i) ltac:(lia)) as E.
    rewrite Z2Nat.id in E by lia. simpl in E. rewrite E.
    rewrite nth_error_map. now destruct (nth_error ps (Z.to_nat i)).
Qed.

Lemma run_lo_nan (vs : list float) : run_lo S754_nan vs = S754_nan.
Proof.
  induction vs as [|v vs IH]; [reflexivity|].
  change (run_lo S754_nan (v :: vs)) with (run_lo (lower v S754_nan) vs).
  unfold lower, F32.ltb, SFltb. now rewrite SFcompare_nan_r.
Qed.

Lemma is_nan_true (a : float) : F32.is_nan a = true -> a = S754_nan.
Proof. now destruct a. Qed.

(** * Containment, order and extremes *)

(** C3, counterexample. With the finite matrix [cancelling] and the
    records (2,2,0), (1,0,0) the first transformed x is a NaN; it stays in
    [out_min[0]] and [out_max[0]], and the second record, whose transformed
    x is FLT_MAX, is not within them. *)
Lemma containment_claim_fails :
  ~ containment_claim (packed [vz 2 2 0; vz 1 0 0]) 2 12 0 (Some cancelling).
Proof.
  intros H.
  assert (R : exists s,
             call (Some (packed [vz 2 2 0; vz 1 0 0])) 2 12 0
               (Some cancelling) junk junk = Some s /\
             coord AX (out_min s) = S754_nan)
    by (eexists; split; vm_compute; reflexivity).
  destruct R as [s [Hs Hmin]].
  assert (T : transformed (packed [vz 2 2 0; vz 1 0 0]) 12 0
                (Some cancelling) 1 = Some (mkvec3 FLT_MAX (fz 0) (fz 0)))
    by (vm_compute; reflexivity).
  destruct (H ltac:(lia) junk junk s Hs 1 _ ltac:(lia) T AX) as [L _].
  rewrite Hmin in L. discriminate L.
Qed.

(** C3, amended. After a call that returns, on every axis where neither
    record 0 nor record [i] has a NaN as transformed coordinate, the
    transformed coordinate of record [i] lies between [out_min] and
    [out_max]. *)
Theorem containment_without_nan (buf : list byte) (n st off : Z)
  (matrix : option (list float)) (omin omax : vec3) (s : machine) (i : Z) :
  0 < n ->
  call (Some buf) n st off matrix omin omax = Some s ->
  0 <= i < n ->
  exists t0 t,
    transformed buf st off matrix 0 = Some t0 /\
    transformed buf st off matrix i = Some t /\
    forall k,
      F32.is_nan (coord k t0) = false -> F32.is_nan (coord k t) = false ->
      F32.leb (coord k (out_min s)) (coord k t) = true /\
      F32.leb (coord k t) (coord k (out_max s)) = true.
Proof.
  intros Hn Hs Hi.
  destruct (call_nonempty _ _ _ _ _ _ _ _ Hn Hs)
    as (m & p0 & ps & Hm & G & Emin & Emax).
  assert (TA : transformed_all buf n st off matrix
               = Some (map (transform m) (p0 :: ps)))
    by (unfold transformed_all; now rewrite Hm, G).
  destruct (transformed_nth _ _ _ _ _ _ TA) as [Len Nth].
  pose proof (Nth 0 ltac:(lia)) as E0. simpl in E0.
  pose proof (Nth i Hi) as Ei.
  destruct (nth_error (map (transform m) (p0 :: ps)) (Z.to_nat i))
    as [t|] eqn:Et.
  2:{ apply nth_error_None in Et. lia. }
  exists (transform m p0), t. repeat split; auto.
  - rewrite Emin, coord_lo_corner.
    apply aabb_contains; auto. eapply nth_error_In, Et.
  - rewrite Emax, coord_hi_corner.
    apply aabb_contains; auto. eapply nth_error_In, Et.
Qed.

Lemma containment_without_nan_witness :
  exists s t0 t,
    call (Some spec_example) 3 12 0 (Some identity) junk junk = Some s /\
    transformed spec_example 12 0 (Some identity) 0 = Some t0 /\
    transformed spec_example 12 0 (Some identity) 2 = Some t /\
    F32.leb (coord AY (out_min s)) (coord AY t) = true /\
    F32.leb (coord AY t) (coord AY (out_max s)) = true.
Proof.
  assert (R : exists s,
             call (Some spec_example) 3 12 0 (Some identity) junk junk
             = Some s) by (eexists; vm_compute; reflexivity).
  destruct R as [s Hs].
  destruct (containment_without_nan spec_example 3 12 0 (Some identity)
              junk junk s 2 ltac:(lia) Hs ltac:(lia))
    as (t0 & t & E0 & E & H).
  exists s, t0, t. repeat split; auto.
  - apply (H AY).
    + vm_compute in E0. injection E0 as <-. reflexivity.
    + vm_compute in E. injection E as <-. reflexivity.
  - apply (H AY).
    + vm_compute in E0. injection E0 as <-. reflexivity.
    + vm_compute in E. injection E as <-. reflexivity.
Defined.

(** C4, counterexample. One record (2,2,0) under [cancelling]: both
    [out_min[0]] and [out_max[0]] are the NaN, and NaN <= NaN is false. *)
Lemma ordered_claim_fails :
  ~ ordered_claim (packed [vz 2 2 0]) 1 12 0 (Some cancelling).
Proof.
  intros H.
  assert (R : exists s,
             call (Some (packed [vz 2 2 0])) 1 12 0
               (Some cancelling) zero3 zero3 = Some s /\
             coord AX (out_min s) = S754_nan)
    by (eexists; split; vm_compute; reflexivity).
  destruct R as [s [Hs Hmin]].
  pose proof (H ltac:(lia) zero3 zero3 s Hs AX) as L.
  rewrite Hmin in L. discriminate L.
Qed.

(** C4, amended. After a call that returns with [vertex_count > 0],
    [out_min[k] <= out_max[k]] holds on exactly those axes where the
    transformed coordinate of record 0 is not a NaN. *)
Theorem ordered_iff_first_not_nan (buf : list byte) (n st off : Z)
  (matrix : option (list float)) (omin omax : vec3) (s : machine) :
  0 < n ->
  call (Some buf) n st off matrix omin omax = Some s ->
  exists t0,
    transformed buf st off matrix 0 = Some t0 /\
    forall k,
      F32.leb (coord k (out_min s)) (coord k (out_max s)) = true <->
      F32.is_nan (coord k t0) = false.
Proof.
  intros Hn Hs.
  destruct (call_nonempty _ _ _ _ _ _ _ _ Hn Hs)
    as (m & p0 & ps & Hm & G & Emin & Emax).
  exists (transform m p0). split.
  - unfold transformed. rewrite Hm.
    pose proof (gather_nth _ _ _ _ _ _ G 0%nat ltac:(lia)) as E.
    simpl in E. now rewrite E.
  - intros k. rewrite Emin, Emax, coord_lo_corner, coord_hi_corner.
    simpl map. split.
    + intros L. destruct (F32.is_nan (coord k (transform m p0))) eqn:N; auto.
      apply is_nan_true in N. rewrite lo_aabb, N, run_lo_nan in L.
      discriminate L.
    + intros N.
      apply (leb_trans _ (coord k (transform m p0)));
        apply aabb_contains; simpl; auto.
Qed.

Lemma ordered_iff_first_not_nan_witness :
  exists s,
    call (Some spec_example) 3 12 0 (Some identity) junk junk = Some s /\
    F32.leb (coord AZ (out_min s)) (coord AZ (out_max s)) = true.
Proof.
  assert (R : exists s,
             call (Some spec_example) 3 12 0 (Some identity) junk junk
             = Some s) by (eexists; vm_compute; reflexivity).
  destruct R as [s Hs]. exists s. split; [exact Hs|].
  destruct (ordered_iff_first_not_nan spec_example 3 12 0 (Some identity)
              junk junk s ltac:(lia) Hs) as (t0 & E0 & H).
  apply H. vm_compute in E0. injection E0 as <-. reflexivity.
Defined.

(** C1, counterexample. Records (2,2,0), (1,0,0) under [cancelling]:
    [out_min[0]] is the NaN of record 0, which is not below the FLT_MAX of
    record 1, so it is not the minimum of the transformed x. *)
Lemma extremes_claim_fails :
  ~ extremes_claim (packed [vz 2 2 0; vz 1 0 0]) 2 12 0 (Some cancelling).
Proof.
  intros H.
  assert (R : exists s,
             call (Some (packed [vz 2 2 0; vz 1 0 0])) 2 12 0
               (Some cancelling) zero3 junk = Some s /\
             coord AX (out_min s) = S754_nan)
    by (eexists; split; vm_compute; reflexivity).
  destruct R as [s [Hs Hmin]].
  destruct (H ltac:(lia) zero3 junk s Hs) as (ts & _ & K).
  destruct (K AX) as [[Hin Hle] _].
  specialize (Hle _ Hin). rewrite Hmin in Hle. discriminate Hle.
Qed.

(** C1, amended. After a call that returns with [vertex_count > 0], the
    transformed positions of the [vertex_count] records exist, and on every
    axis where none of their coordinates is a NaN, [out_min] holds their
    minimum and [out_max] their maximum; for the vertices (0,0,0), (1,2,3),
    (-1,5,0) and the identity matrix the result is (-1,0,0), (1,5,3). *)
Theorem extremes_without_nan :
  (forall (buf : list byte) (n st off : Z) (matrix : option (list float))
          (omin omax : vec3) (s : machine),
      0 < n ->
      call (Some buf) n st off matrix omin omax = Some s ->
      exists ts,
        transformed_all buf n st off matrix = Some ts /\
        length ts = Z.to_nat n /\
        (forall i, 0 <= i < n ->
           transformed buf st off matrix i = nth_error ts (Z.to_nat i)) /\
        forall k, no_nan (map (coord k) ts) ->
          is_min_of (coord k (out_min s)) (map (coord k) ts) /\
          is_max_of (coord k (out_max s)) (map (coord k) ts))
  /\
  (forall omin omax : vec3,
      outputs (call (Some spec_example) 3 12 0 (Some identity) omin omax)
      = Some (vz (-1) 0 0, vz 1 5 3)).
Proof.
  split.
  - intros buf n st off matrix omin omax s Hn Hs.
    destruct (call_nonempty _ _ _ _ _ _ _ _ Hn Hs)
      as (m & p0 & ps & Hm & G & Emin & Emax).
    assert (TA : transformed_all buf n st off matrix
                 = Some (map (transform m) (p0 :: ps)))
      by (unfold transformed_all; now rewrite Hm, G).
    destruct (transformed_nth _ _ _ _ _ _ TA) as [Len Nth].
    eexists. split; [exact TA|]. split; [exact Len|]. split; [exact Nth|].
    intros k NN. rewrite Emin, Emax, coord_lo_corner, coord_hi_corner.
    change (map (transform m) (p0 :: ps))
      with (transform m p0 :: map (transform m) ps) in *.
    assert (N0 : F32.is_nan (coord k (transform m p0)) = false)
      by (apply NN; now left).
    split; split; try apply aabb_attained.
    + intros u Hu. apply in_map_iff in Hu. destruct Hu as (t & <- & Ht).
      apply aabb_contains; auto. apply NN. now apply in_map.
    + intros u Hu. apply in_map_iff in Hu. destruct Hu as (t & <- & Ht).
      apply aabb_contains; auto. apply NN. now apply in_map.
  - intros omin omax. rewrite call_spec. vm_compute. reflexivity.
Qed.

Lemma extremes_without_nan_witness :
  exists s ts,
    call (Some spec_example) 3 12 0 (Some identity) junk junk = Some s /\
    transformed_all spec_example 3 12 0 (Some identity) = Some ts /\
    is_min_of (coord AX (out_min s)) (map (coord AX) ts) /\
    is_max_of (coord AX (out_max s)) (map (coord AX) ts).
Proof.
  assert (R : exists s,
             call (Some spec_example) 3 12 0 (Some identity) junk junk
             = Some s) by (eexists; vm_compute; reflexivity).
  destruct R as [s Hs].
  destruct (proj1 extremes_without_nan spec_example 3 12 0 (Some identity)
              junk junk s ltac:(lia) Hs) as (ts & TA & _ & _ & H).
  exists s, ts. split; [exact Hs|]. split; [exact TA|].
  apply H. vm_compute in TA. injection TA as <-.
  intros u Hu. simpl in Hu.
  destruct Hu as [<-|[<-|[<-|[]]]]; reflexivity.
Defined.

(** * Loads inside one record *)

Lemma load_f32_some (buf : list byte) (o : Z) :
  0 <= o -> o + 4 <= Z.of_nat (length buf) ->
  exists v, load_f32 buf o = Some v.
Proof.
  intros H0 H4. unfold load_f32.
  replace ((0 <=? o) && (o + 4 <=? Z.of_nat (length buf))) with true
    by (symmetry; apply andb_true_iff; split; apply Z.leb_le; lia).
  assert (L : length (firstn 4 (skipn (Z.to_nat o) buf)) = 4%nat)
    by (rewrite length_firstn, length_skipn; lia).
  destruct (firstn 4 (skipn (Z.to_nat o) buf)) as [|b0 [|b1 [|b2 [|b3 [|]]]]];
    try discriminate L.
  eauto.
Qed.

Lemma load_f32_inside (pre r rest : list byte) (o : Z) :
  0 <= o -> o + 4 <= Z.of_nat (length r) ->
  load_f32 (pre ++ r ++ rest) (Z.of_nat (length pre) + o) = load_f32 r o.
Proof.
  intros H0 H4. unfold load_f32.
  replace ((0 <=? o) && (o + 4 <=? Z.of_nat (length r))) with true
    by (symmetry; apply andb_true_iff; split; apply Z.leb_le; lia).
  replace ((0 <=? Z.of_nat (length pre) + o) &&
           (Z.of_nat (length pre) + o + 4
            <=? Z.of_nat (length (pre ++ r ++ rest)))) with true
    by (symmetry; apply andb_true_iff; split; apply Z.leb_le;
        rewrite ?length_app; lia).
  replace (Z.to_nat (Z.of_nat (length pre) + o))
    with (length pre + Z.to_nat o)%nat by lia.
  rewrite skipn_app, skipn_all2 by lia.
  replace (length pre + Z.to_nat o - length pre)%nat with (Z.to_nat o) by lia.
  simpl app. rewrite skipn_app.
  replace (Z.to_nat o - length r)%nat with 0%nat by lia.
  simpl skipn. rewrite firstn_app, length_skipn.
  replace (4 - (length r - Z.to_nat o))%nat with 0%nat by lia.
  simpl firstn. now rewrite app_nil_r.
Qed.

Lemma position_at_some (r : list byte) (o : Z) :
  0 <= o -> o + 12 <= Z.of_nat (length r) ->
  exists p, position_at r o = Some p.
Proof.
  intros H0 H12. unfold position_at.
  destruct (load_f32_some r o) as [x ->]; try lia.
  destruct (load_f32_some r (o + 4)) as [y ->]; try lia.
  destruct (load_f32_some r (o + 8)) as [z ->]; try lia.
  eauto.
Qed.

Lemma position_at_inside (pre r rest : list byte) (o : Z) :
  0 <= o -> o + 12 <= Z.of_nat (length r) ->
  position_at (pre ++ r ++ rest) (Z.of_nat (length pre) + o)
  = position_at r o.
Proof.
  intros H0 H12. unfold position_at.
  rewrite <- !Z.add_assoc.
  now rewrite !load_f32_inside by lia.
Qed.

Lemma address_in_range (st off i : Z) :
  0 <= i * st -> 0 <= off -> i * st + off <= INT_MAX ->
  address st off i = Some (i * st + off).
Proof.
  intros H1 H2 H3. unfold address, int_op, in_int, INT_MIN, INT_MAX in *.
  replace ((-2147483648 <=? i * st) && (i * st <=? 2147483647)) with true
    by (symmetry; apply andb_true_iff; split; apply Z.leb_le; lia).
  reflexivity.
Qed.

(** The records of a well-formed buffer are gathered one by one. *)
Lemma gather_records (st off : Z) (recs : list (list byte)) :
  0 <= off -> off + 12 <= st ->
  Forall (fun r => Z.of_nat (length r) = st) recs ->
  forall (pre : list byte) (i : Z),
  0 <= i -> Z.of_nat (length pre) = i * st ->
  (i + Z.of_nat (length recs)) * st <= INT_MAX ->
  gather (length recs) (pre ++ concat recs) st off i
  = Some (map (decode_position off) recs).
Proof.
  intros H0 H12 HF. induction HF as [|r rs Hr HF IH]; intros pre i Hi Hp Hmax.
  - reflexivity.
  - simpl length in *. simpl gather. simpl concat.
    unfold record_position.
    rewrite address_in_range by nia.
    rewrite <- Hp, position_at_inside by lia.
    destruct (position_at_some r off) as [p Ep]; try lia.
    unfold decode_position at 1. simpl map. rewrite Ep.
    rewrite app_assoc, IH; [reflexivity|..];
      rewrite ?length_app; try lia; nia.
Qed.

Lemma gather_concat (st off n : Z) (recs : list (list byte)) :
  well_formed st off recs -> n = Z.of_nat (length recs) ->
  gather (Z.to_nat n) (concat recs) st off 0
  = Some (map (decode_position off) recs).
Proof.
  intros (H0 & H12 & HF & Hmax) ->. rewrite Nat2Z.id.
  apply (gather_records st off recs H0 H12 HF [] 0); simpl; lia.
Qed.

(** * Padding *)

Lemma padded_records (st off : Z) (recs : list padded_record) :
  Forall (fun r : padded_record =>
            let '(a, p, b) := r in
            Z.of_nat (length a) = off /\ length p = 12%nat /\
            Z.of_nat (length a + 12 + length b) = st) recs ->
  Forall (fun r => Z.of_nat (length r) = st) (map whole recs) /\
  Forall (fun r => Z.of_nat (length r) = 12) (map position_bytes recs) /\
  map (decode_position off) (map whole recs)
  = map (decode_position 0) (map position_bytes recs).
Proof.
  intros HF. induction HF as [|[[a p] b] rs (Ha & Hp & Hs) HF IH].
  - simpl. repeat split; constructor.
  - destruct IH as (I1 & I2 & I3).
    repeat split.
    + constructor; auto. simpl. rewrite !length_app. lia.
    + constructor; auto. simpl. lia.
    + simpl. f_equal; auto. unfold decode_position.
      rewrite <- Ha.
      replace (Z.of_nat (length a)) with (Z.of_nat (length a) + 0) by lia.
      rewrite position_at_inside by lia. reflexivity.
Qed.

(** C7. For records that carry [off] bytes of padding before a twelve-byte
    position and more padding after it, [st] bytes in all, the call on the
    interleaved buffer (stride [st], offset [off]) and the call on the
    tightly packed positions (stride 12, offset 0) leave the same [out_min]
    and [out_max], whatever the padding bytes and the matrix are. *)
Theorem padding_invariant (st off : Z) (matrix : option (list float))
  (recs : list padded_record) (omin omax omin' omax' : vec3) :
  well_padded st off recs ->
  outputs (call (Some (padded_buffer recs)) (Z.of_nat (length recs)) st off
             matrix omin omax)
  = outputs (call (Some (tight_buffer recs)) (Z.of_nat (length recs)) 12 0
               matrix omin' omax').
Proof.
  intros [HF Hmax].
  destruct recs as [|r rs] eqn:Er; [reflexivity|]. rewrite <- Er in *.
  assert (B : 0 <= off /\ off + 12 <= st).
  { rewrite Er in HF. inversion HF as [|x l Hx Hl]; subst.
    destruct r as [[a p] b]. lia. }
  destruct (padded_records st off recs HF) as (F1 & F2 & E).
  assert (N : 0 < Z.of_nat (length recs)) by (rewrite Er; simpl; lia).
  rewrite !call_spec. destruct (Z.of_nat (length recs) <=? 0); auto.
  unfold padded_buffer, tight_buffer.
  rewrite (gather_concat st off _ (map whole recs)), E,
    (gather_concat 12 0 _ (map position_bytes recs)).
  - now destruct (coeffs_of matrix).
  - repeat split; auto; try lia. rewrite length_map. nia.
  - now rewrite length_map.
  - repeat split; auto; try lia. now rewrite length_map.
  - now rewrite length_map.
Qed.

Lemma padding_invariant_witness :
  let recs : list padded_record :=
    [([x01; x02; x03; x04], pos_bytes (vz 0 0 0), [xff; xff; xff; xff]);
     ([x05; x06; x07; x08], pos_bytes (vz 1 2 3), [xfe; xfe; xfe; xfe]);
     ([x09; x0a; x0b; x0c], pos_bytes (vz (-1) 5 0), [x00; x00; x00; x00])] in
  well_padded 20 4 recs /\
  outputs (call (Some (padded_buffer recs)) 3 20 4 (Some identity) junk junk)
  = outputs (call (Some spec_example) 3 12 0 (Some identity) junk junk).
Proof.
  intros recs.
  assert (W : well_padded 20 4 recs).
  { split; [|vm_compute; discriminate].
    repeat constructor; simpl; lia. }
  split; [exact W|].
  exact (padding_invariant 20 4 (Some identity) recs junk junk junk junk W).
Defined.

(** * Reordering the records *)

Lemma aabb_extremes (k : axis) (t0 : vec3) (ts : list vec3) :
  no_nan (map (coord k) (t0 :: ts)) ->
  is_min_of (lo k (aabb (t0 :: ts))) (map (coord k) (t0 :: ts)) /\
  is_max_of (hi k (aabb (t0 :: ts))) (map (coord k) (t0 :: ts)).
Proof.
  intros NN.
  assert (N0 : F32.is_nan (coord k t0) = false) by (apply NN; now left).
  split; split; try apply aabb_attained.
  - intros u Hu. apply in_map_iff in Hu. destruct Hu as (t & <- & Ht).
    apply aabb_contains; auto. apply NN. now apply in_map.
  - intros u Hu. apply in_map_iff in Hu. destruct Hu as (t & <- & Ht).
    apply aabb_contains; auto. apply NN. now apply in_map.
Qed.

Lemma min_of_permutation (a b : float) (l l' : list float) :
  Permutation l l' -> is_min_of a l -> is_min_of b l' -> F32.eqb a b = true.
Proof.
  intros P [Ha La] [Hb Lb]. apply leb_antisym.
  - apply La. eapply Permutation_in; [apply Permutation_sym|]; eauto.
  - apply Lb. eapply Permutation_in; eauto.
Qed.

Lemma max_of_permutation (a b : float) (l l' : list float) :
  Permutation l l' -> is_max_of a l -> is_max_of b l' -> F32.eqb a b = true.
Proof.
  intros P [Ha La] [Hb Lb]. apply leb_antisym.
  - apply Lb. eapply Permutation_in; eauto.
  - apply La. eapply Permutation_in; [apply Permutation_sym|]; eauto.
Qed.

Lemma no_nan_permutation (l l' : list float) :
  Permutation l l' -> no_nan l -> no_nan l'.
Proof.
  intros P N u Hu. apply N.
  eapply Permutation_in; [apply Permutation_sym|]; eauto.
Qed.

Lemma aabb_permutation (k : axis) (ts ts' : list vec3) :
  Permutation ts ts' -> ts <> [] ->
  no_nan (map (coord k) ts) ->
  F32.eqb (lo k (aabb ts)) (lo k (aabb ts')) = true /\
  F32.eqb (hi k (aabb ts)) (hi k (aabb ts')) = true.
Proof.
  intros P NE NN.
  assert (P' : Permutation (map (coord k) ts) (map (coord k) ts'))
    by now apply Permutation_map.
  pose proof (no_nan_permutation _ _ P' NN) as NN'.
  destruct ts as [|t0 ts]; [congruence|].
  destruct ts' as [|t0' ts'];
    [apply Permutation_sym, Permutation_nil in P; discriminate|].
  destruct (aabb_extremes k t0 ts NN) as [Mn Mx].
  destruct (aabb_extremes k t0' ts' NN') as [Mn' Mx'].
  split.
  - eapply min_of_permutation; eauto.
  - eapply max_of_permutation; eauto.
Qed.

(** C5, counterexample. Under [cancelling], the records (2,2,0), (1,0,0)
    give a NaN in [out_min[0]]; in the order (1,0,0), (2,2,0) the NaN comes
    second, is skipped, and [out_min[0]] is FLT_MAX. The two results are
    neither identical nor equal for [==]. *)
Lemma permutation_claim_fails :
  ~ permutation_claim 12 0 (Some cancelling)
      [pos_bytes (vz 2 2 0); pos_bytes (vz 1 0 0)]
      [pos_bytes (vz 1 0 0); pos_bytes (vz 2 2 0)]
  /\
  ~ same_box
      (outputs (call (Some (packed [vz 2 2 0; vz 1 0 0])) 2 12 0
                  (Some cancelling) junk junk))
      (outputs (call (Some (packed [vz 1 0 0; vz 2 2 0])) 2 12 0
                  (Some cancelling) junk junk)).
Proof.
  split.
  - intros H. specialize (H (perm_swap _ _ []) junk junk).
    vm_compute in H. discriminate H.
  - intros H. vm_compute in H. destruct H as [H _].
    specialize (H AX). vm_compute in H. discriminate H.
Qed.

(** C5, amended. For a well-formed buffer of records and a call that
    computes no NaN, the call on any reordering of the records returns
    corners that compare equal, component by component, to those of the
    original order. *)
Theorem permutation_without_nan (st off : Z) (matrix : option (list float))
  (recs recs' : list (list byte)) (ts : list vec3)
  (omin omax omin' omax' : vec3) :
  well_formed st off recs ->
  Permutation recs recs' ->
  transformed_all (concat recs) (Z.of_nat (length recs)) st off matrix
  = Some ts ->
  (forall k, no_nan (map (coord k) ts)) ->
  same_box
    (outputs (call (Some (concat recs)) (Z.of_nat (length recs)) st off
                matrix omin omax))
    (outputs (call (Some (concat recs')) (Z.of_nat (length recs')) st off
                matrix omin' omax')).
Proof.
  intros WF P TA NN.
  assert (WF' : well_formed st off recs').
  { destruct WF as (H0 & H12 & HF & Hmax). repeat split; auto.
    - eapply Permutation_Forall; eauto.
    - now rewrite <- (Permutation_length P). }
  unfold transformed_all in TA. rewrite !call_spec.
  rewrite <- (Permutation_length P).
  destruct (coeffs_of matrix) as [m|]; [|discriminate].
  rewrite (gather_concat st off _ recs WF eq_refl) in *.
  rewrite (gather_concat st off _ recs' WF' (f_equal Z.of_nat
             (Permutation_length P))).
  injection TA as <-.
  destruct (Z.of_nat (length recs) <=? 0) eqn:E.
  - simpl. split; intros k; destruct k; reflexivity.
  - assert (NE : map (transform m) (map (decode_position off) recs) <> []).
    { destruct recs; [discriminate E|discriminate]. }
    assert (PT : Permutation
                   (map (transform m) (map (decode_position off) recs))
                   (map (transform m) (map (decode_position off) recs')))
      by (do 2 apply Permutation_map; exact P).
    simpl. split; intros k.
    + rewrite !coord_lo_corner. now apply aabb_permutation.
    + rewrite !coord_hi_corner. now apply aabb_permutation.
Qed.

Lemma permutation_without_nan_witness :
  same_box
    (outputs (call (Some (packed [vz 0 0 0; vz 1 2 3; vz (-1) 5 0])) 3 12 0
                (Some identity) junk junk))
    (outputs (call (Some (packed [vz (-1) 5 0; vz 0 0 0; vz 1 2 3])) 3 12 0
                (Some identity) zero3 zero3)).
Proof.
  assert (WF : well_formed 12 0
                 [pos_bytes (vz 0 0 0); pos_bytes (vz 1 2 3);
                  pos_bytes (vz (-1) 5 0)]).
  { split; [lia|]. split; [lia|]. split.
    - repeat constructor.
    - vm_compute. discriminate. }
  assert (P : Permutation
                [pos_bytes (vz 0 0 0); pos_bytes (vz 1 2 3);
                 pos_bytes (vz (-1) 5 0)]
                [pos_bytes (vz (-1) 5 0); pos_bytes (vz 0 0 0);
                 pos_bytes (vz 1 2 3)]).
  { apply Permutation_sym.
    apply (Permutation_cons_app [_; _] [] _ (Permutation_refl _)). }
  refine (permutation_without_nan 12 0 (Some identity) _ _
            [vz 0 0 0; vz 1 2 3; vz (-1) 5 0] junk junk zero3 zero3
            WF P _ _).
  - vm_compute. reflexivity.
  - intros k u Hu. destruct k; simpl in Hu;
      destruct Hu as [<-|[<-|[<-|[]]]]; reflexivity.
Defined.

(** Why the reordering theorem speaks of [==] and not of identical bits:
    with a translation of -0 the records (-0,-1,-1) and (0,-1,-1)
    transform to x = -0 and x = +0; whichever comes first stays in
    [out_min[0]]. *)
Lemma permutation_changes_zero_sign :
  let a := mkvec3 minus_zero (fz (-1)) (fz (-1)) in
  let b := mkvec3 (fz 0) (fz (-1)) (fz (-1)) in
  outputs (call (Some (packed [a; b])) 2 12 0 (Some tiny_shift) junk junk)
  <> outputs (call (Some (packed [b; a])) 2 12 0 (Some tiny_shift) junk junk)
  /\
  same_box
    (outputs (call (Some (packed [a; b])) 2 12 0 (Some tiny_shift) junk junk))
    (outputs (call (Some (packed [b; a])) 2 12 0 (Some tiny_shift) junk junk)).
Proof.
  intros a b. split.
  - vm_compute. discriminate.
  - vm_compute. split; intros k; destruct k; reflexivity.
Qed.

(** * Single-precision addition is monotone *)

Lemma digits2_size (p : positive) : digits2_pos p = Pos.size p.
Proof. induction p; simpl; congruence. Qed.

Lemma digits_bounds (p : positive) :
  2 ^ (digits p - 1) <= Zpos p < 2 ^ digits p.
Proof.
  unfold digits. rewrite digits2_size. split.
  - pose proof (Pos.size_le p) as H.
    apply Pos2Z.pos_le_pos in H. rewrite Pos2Z.inj_pow in H.
    change (Zpos p~0) with (2 * Zpos p) in H.
    replace (Zpos (Pos.size p)) with (Zpos (Pos.size p) - 1 + 1) in H by lia.
    rewrite Z.pow_add_r in H by lia. lia.
  - pose proof (Pos.size_gt p) as H.
    apply Pos2Z.pos_lt_pos in H. now rewrite Pos2Z.inj_pow in H.
Qed.

Lemma digits_pos (p : positive) : 0 < digits p.
Proof. unfold digits. lia. Qed.

Lemma digits_unique (p : positive) (k : Z) :
  2 ^ (k - 1) <= Zpos p < 2 ^ k -> digits p = k.
Proof.
  intros [H1 H2]. pose proof (digits_bounds p) as [B1 B2].
  pose proof (digits_pos p).
  assert (0 < k).
  { destruct (Z_lt_le_dec 0 k); auto.
    assert (2 ^ k <= 2 ^ 0) by (apply Z.pow_le_mono_r; lia).
    simpl in *. lia. }
  destruct (Z_lt_le_dec (digits p) k).
  - assert (2 ^ digits p <= 2 ^ (k - 1)) by (apply Z.pow_le_mono_r; lia). lia.
  - destruct (Z_lt_le_dec k (digits p)); [|lia].
    assert (2 ^ k <= 2 ^ (digits p - 1)) by (apply Z.pow_le_mono_r; lia). lia.
Qed.

(** One step of the shift. *)
Lemma shr_1_spec (m : Z) (r s : bool) :
  0 <= m ->
  shr_1 (Build_shr_record m r s)
  = Build_shr_record (m / 2) (Z.odd m) (r || s).
Proof.
  intros H. destruct m as [|p|p]; try lia; simpl.
  - reflexivity.
  - destruct p; simpl; try reflexivity.
    + f_equal. rewrite Pos2Z.inj_xI. 
      replace (2 * Z.pos p + 1) with (1 + Z.pos p * 2) by lia.
      rewrite Z.div_add by lia. reflexivity.
    + f_equal. rewrite Pos2Z.inj_xO. 
      replace (2 * Z.pos p) with (0 + Z.pos p * 2) by lia.
      rewrite Z.div_add by lia. reflexivity.
Qed.

Lemma shifted_0 (N : Z) : shifted N 0 (Build_shr_record N false false).
Proof.
  unfold shifted. simpl. rewrite Z.div_1_r, Z.mod_1_r. 
  repeat split; try lia; auto; discriminate.
Qed.

Lemma shifted_step (N n : Z) (x : shr_record) :
  0 <= N -> 0 <= n -> shifted N n x -> shifted N (n + 1) (shr_1 x).
Proof.
  intros HN Hn (Hm & Hr & Hs). destruct x as [m r s].
  cbn [shr_m shr_r shr_s] in Hm, Hr, Hs.
  assert (P : 0 < 2 ^ n) by (apply Z.pow_pos_nonneg; lia).
  assert (m0 : 0 <= m) by (subst m; apply Z.div_pos; lia).
  rewrite shr_1_spec by auto. unfold shifted; cbn [shr_m shr_r shr_s].
  rewrite Z.pow_add_r by lia. change (2 ^ 1) with 2.
  assert (D : N / (2 ^ n * 2) = m / 2)
    by (rewrite <- Z.div_div by lia; now subst m).
  assert (R : N mod (2 ^ n * 2) = N mod 2 ^ n + 2 ^ n * (m mod 2)).
  { rewrite Z.rem_mul_r by lia. subst m. lia. }
  pose proof (Z.mod_pos_bound N (2 ^ n) P) as B.
  rewrite D, R.
  assert (O : Z.odd m = true <-> m mod 2 = 1).
  { rewrite Zmod_odd. destruct (Z.odd m); split; intros; lia || auto;
      discriminate. }
  pose proof (Z.mod_pos_bound m 2 ltac:(lia)) as B2.
  assert (C : m mod 2 = 0 \/ m mod 2 = 1) by lia.
  clear D R Hm.
  generalize dependent (N mod 2 ^ n). generalize dependent (2 ^ n).
  intros c Pc a Hr Hs B.
  split; [reflexivity|]. split.
  - rewrite O. destruct C as [C|C]; rewrite C; split; intros; lia.
  - rewrite orb_false_iff. split.
    + intros [E1 E2]. subst r.
      assert (~ (c <= 2 * a)) by (intro K; apply Hr in K; discriminate).
      apply Hs in E2. destruct C as [C|C]; rewrite C; lia.
    + intros K.
      assert (a = 0) by (destruct C as [C|C]; rewrite C in K; lia).
      split.
      * destruct r; auto. assert (c <= 2 * a) by (apply Hr; auto). lia.
      * apply Hs. auto.
Qed.

Lemma iter_pos_shifted (N : Z) (p : positive) :
  0 <= N ->
  forall n x, 0 <= n -> shifted N n x ->
  shifted N (n + Zpos p) (iter_pos shr_1 p x).
Proof.
  intros HN. induction p as [p IH|p IH|]; intros n x Hn H; simpl.
  - replace (n + Z.pos p~1) with (n + 1 + Zpos p + Zpos p) by lia.
    apply IH; [lia|]. apply IH; [lia|]. now apply shifted_step.
  - replace (n + Z.pos p~0) with (n + Zpos p + Zpos p) by lia.
    apply IH; [lia|]. now apply IH.
  - now apply shifted_step.
Qed.

(** Rounding the shifted record is [rne_shift]. *)
Lemma round_shifted (N n : Z) (x : shr_record) :
  0 <= N -> 0 <= n -> shifted N n x ->
  round_nearest_even (shr_m x) (loc_of_shr_record x) = rne_shift N n.
Proof.
  intros HN Hn (Hm & Hr & Hs). destruct x as [m r s].
  cbn [shr_m shr_r shr_s] in *.
  assert (P : 0 < 2 ^ n) by (apply Z.pow_pos_nonneg; lia).
  pose proof (Z.mod_pos_bound N (2 ^ n) P) as B.
  unfold rne_shift. rewrite <- Hm.
  destruct r, s; cbn [loc_of_shr_record round_nearest_even].
  - assert (2 ^ n <= 2 * (N mod 2 ^ n)) by (apply Hr; auto).
    assert (~ (N mod 2 ^ n = 0 \/ 2 * (N mod 2 ^ n) = 2 ^ n))
      by (intro K; apply Hs in K; discriminate).
    replace (2 ^ n <? 2 * (N mod 2 ^ n)) with true
      by (symmetry; apply Z.ltb_lt; lia). reflexivity.
  - assert (2 ^ n <= 2 * (N mod 2 ^ n)) by (apply Hr; auto).
    assert (N mod 2 ^ n = 0 \/ 2 * (N mod 2 ^ n) = 2 ^ n) by (apply Hs; auto).
    replace (2 ^ n <? 2 * (N mod 2 ^ n)) with false
      by (symmetry; apply Z.ltb_ge; lia).
    replace (2 ^ n =? 2 * (N mod 2 ^ n)) with true
      by (symmetry; apply Z.eqb_eq; lia).
    cbn [andb]. rewrite <- Z.negb_even. now destruct (Z.even m).
  - assert (~ (2 ^ n <= 2 * (N mod 2 ^ n))) by (intro K; apply Hr in K; discriminate).
    replace (2 ^ n <? 2 * (N mod 2 ^ n)) with false
      by (symmetry; apply Z.ltb_ge; lia).
    replace (2 ^ n =? 2 * (N mod 2 ^ n)) with false
      by (symmetry; apply Z.eqb_neq; lia).
    reflexivity.
  - assert (~ (2 ^ n <= 2 * (N mod 2 ^ n))) by (intro K; apply Hr in K; discriminate).
    replace (2 ^ n <? 2 * (N mod 2 ^ n)) with false
      by (symmetry; apply Z.ltb_ge; lia).
    replace (2 ^ n =? 2 * (N mod 2 ^ n)) with false
      by (symmetry; apply Z.eqb_neq; lia).
    reflexivity.
Qed.

(** * [binary_round] as rounding of an integer *)

Lemma fexp_eq (x : Z) : fexp 24 128 x = Z.max (x - 24) (-149).
Proof. reflexivity. Qed.

Lemma rne_shift_0 (N : Z) : rne_shift N 0 = N.
Proof.
  unfold rne_shift. change (2 ^ 0) with 1.
  rewrite Z.div_1_r, Z.mod_1_r. reflexivity.
Qed.

Lemma rne_shift_bounds (N n : Z) :
  0 <= n -> N / 2 ^ n <= rne_shift N n <= N / 2 ^ n + 1.
Proof.
  intros Hn. unfold rne_shift.
  destruct (2 ^ n <? 2 * (N mod 2 ^ n)); [lia|].
  destruct ((2 ^ n =? 2 * (N mod 2 ^ n)) && Z.odd (N / 2 ^ n)); lia.
Qed.

Lemma rne_shift_exact (M n : Z) : 0 <= n -> rne_shift (M * 2 ^ n) n = M.
Proof.
  intros Hn. assert (P : 0 < 2 ^ n) by (apply Z.pow_pos_nonneg; lia).
  unfold rne_shift. rewrite Z.div_mul, Z.mod_mul by lia.
  replace (2 ^ n <? 2 * 0) with false by (symmetry; apply Z.ltb_ge; lia).
  replace (2 ^ n =? 2 * 0) with false by (symmetry; apply Z.eqb_neq; lia).
  reflexivity.
Qed.

Lemma rne_shift_scale (M n k : Z) :
  0 <= n -> 0 <= k -> rne_shift (M * 2 ^ k) (n + k) = rne_shift M n.
Proof.
  intros Hn Hk.
  assert (P : 0 < 2 ^ n) by (apply Z.pow_pos_nonneg; lia).
  assert (Q : 0 < 2 ^ k) by (apply Z.pow_pos_nonneg; lia).
  unfold rne_shift. rewrite Z.pow_add_r by lia.
  rewrite Z.div_mul_cancel_r by lia.
  rewrite Zmult_mod_distr_r.
  replace (2 ^ n * 2 ^ k <? 2 * (M mod 2 ^ n * 2 ^ k))
    with (2 ^ n <? 2 * (M mod 2 ^ n)).
  2:{ destruct (Z.ltb_spec (2 ^ n) (2 * (M mod 2 ^ n)));
      symmetry; [apply Z.ltb_lt|apply Z.ltb_ge]; nia. }
  replace (2 ^ n * 2 ^ k =? 2 * (M mod 2 ^ n * 2 ^ k))
    with (2 ^ n =? 2 * (M mod 2 ^ n)).
  2:{ destruct (Z.eqb_spec (2 ^ n) (2 * (M mod 2 ^ n)));
      symmetry; [apply Z.eqb_eq|apply Z.eqb_neq]; nia. }
  reflexivity.
Qed.

Lemma rne_shift_mono (N1 N2 n : Z) :
  0 <= n -> N1 <= N2 -> rne_shift N1 n <= rne_shift N2 n.
Proof.
  intros Hn H.
  assert (P : 0 < 2 ^ n) by (apply Z.pow_pos_nonneg; lia).
  pose proof (rne_shift_bounds N1 n Hn) as B1.
  pose proof (rne_shift_bounds N2 n Hn) as B2.
  assert (D : N1 / 2 ^ n <= N2 / 2 ^ n) by (apply Z.div_le_mono; lia).
  destruct (Z.eq_dec (N1 / 2 ^ n) (N2 / 2 ^ n)) as [E|NE]; [|lia].
  assert (R : N1 mod 2 ^ n <= N2 mod 2 ^ n).
  { rewrite !Z.mod_eq by lia. rewrite E. lia. }
  unfold rne_shift in *. rewrite E in *.
  destruct (Z.ltb_spec (2 ^ n) (2 * (N1 mod 2 ^ n)));
  destruct (Z.ltb_spec (2 ^ n) (2 * (N2 mod 2 ^ n))); try lia.
  clear B1 B2.
  destruct (Z.eqb_spec (2 ^ n) (2 * (N1 mod 2 ^ n)));
  destruct (Z.eqb_spec (2 ^ n) (2 * (N2 mod 2 ^ n))); simpl;
    destruct (Z.odd (N2 / 2 ^ n)); lia.
Qed.

(** A mantissa of [d] digits shifted right by at least [d - 24] places
    rounds to at most 2^24. *)
Lemma rne_shift_top (m : positive) (n : Z) :
  0 <= n -> digits m - 24 <= n -> rne_shift (Zpos m) n <= 2 ^ 24.
Proof.
  intros Hn Hd.
  assert (P : 0 < 2 ^ n) by (apply Z.pow_pos_nonneg; lia).
  pose proof (digits_bounds m) as [_ B].
  pose proof (rne_shift_bounds (Zpos m) n Hn) as [_ U].
  assert (Zpos m < 2 ^ 24 * 2 ^ n).
  { rewrite <- Z.pow_add_r by lia.
    eapply Z.lt_le_trans; [exact B|]. apply Z.pow_le_mono_r; lia. }
  assert (Zpos m / 2 ^ n < 2 ^ 24) by (apply Z.div_lt_upper_bound; lia).
  lia.
Qed.

Lemma shr_fexp_none (m e : Z) :
  fexp 24 128 (Zdigits2 m + e) - e <= 0 ->
  shr_fexp 24 128 m e loc_Exact = (Build_shr_record m false false, e).
Proof.
  intros H. unfold shr_fexp, shr. cbn [shr_record_of_loc].
  destruct (fexp 24 128 (Zdigits2 m + e) - e); try reflexivity. lia.
Qed.

Lemma shr_fexp_some (m e n : Z) :
  0 <= m -> n = fexp 24 128 (Zdigits2 m + e) - e -> 0 < n ->
  exists x, shr_fexp 24 128 m e loc_Exact = (x, e + n) /\ shifted m n x.
Proof.
  intros Hm -> Hn. unfold shr_fexp, shr. cbn [shr_record_of_loc].
  destruct (fexp 24 128 (Zdigits2 m + e) - e) as [|p|p] eqn:E; try lia.
  eexists. split; [reflexivity|].
  apply (iter_pos_shifted m p Hm 0); [lia|apply shifted_0].
Qed.

Lemma aux_noshift (s : bool) (m : positive) (e : Z) :
  fexp 24 128 (digits m + e) <= e ->
  binary_round_aux 24 128 s (Zpos m) e loc_Exact
  = if e <=? 104 then S754_finite s m e else S754_infinity s.
Proof.
  intros H. unfold binary_round_aux.
  rewrite shr_fexp_none by (simpl Zdigits2; fold (digits m); lia).
  cbn [shr_m loc_of_shr_record round_nearest_even].
  rewrite shr_fexp_none by (simpl Zdigits2; fold (digits m); lia).
  reflexivity.
Qed.

Lemma Zdigits2_bound (q : Z) :
  0 < q -> q < 2 ^ 24 -> Zdigits2 q <= 24.
Proof.
  intros H0 H. destruct q as [|p|p]; try lia. simpl. fold (digits p).
  pose proof (digits_bounds p) as [B _].
  destruct (Z_lt_le_dec 24 (digits p)); [|lia].
  assert (2 ^ 24 <= 2 ^ (digits p - 1)) by (apply Z.pow_le_mono_r; lia). lia.
Qed.

Lemma aux_shift (s : bool) (m : positive) (e n : Z) :
  n = fexp 24 128 (digits m + e) - e -> 0 < n ->
  binary_round_aux 24 128 s (Zpos m) e loc_Exact
  = let q := rne_shift (Zpos m) n in
    if q =? 0 then S754_zero s
    else if q =? 2 ^ 24 then
      if e + n + 1 <=? 104 then S754_finite s 8388608 (e + n + 1)
      else S754_infinity s
    else
      if e + n <=? 104 then S754_finite s (Z.to_pos q) (e + n)
      else S754_infinity s.
Proof.
  intros Hn Hpos. unfold binary_round_aux.
  destruct (shr_fexp_some (Zpos m) e n) as (x & -> & Hx); auto; try lia.
  rewrite (round_shifted (Zpos m) n x) by (auto; lia).
  pose proof (rne_shift_bounds (Zpos m) n ltac:(lia)) as [L _].
  assert (Q0 : 0 <= rne_shift (Zpos m) n).
  { eapply Z.le_trans; [|exact L].
    apply Z.div_pos; [lia | apply Z.pow_pos_nonneg; lia]. }
  assert (QT : rne_shift (Zpos m) n <= 2 ^ 24).
  { apply rne_shift_top; try lia. rewrite fexp_eq in Hn. lia. }
  assert (FE : -149 <= e + n) by (rewrite fexp_eq in Hn; lia).
  cbv zeta. set (q := rne_shift (Zpos m) n) in *.
  destruct (Z.eqb_spec q 0) as [E0|N0].
  - rewrite E0. rewrite shr_fexp_none by (rewrite fexp_eq; simpl Zdigits2; lia).
    reflexivity.
  - destruct (Z.eqb_spec q (2 ^ 24)) as [ET|NT].
    + rewrite ET.
      replace (shr_fexp 24 128 (2 ^ 24) (e + n) loc_Exact)
        with (Build_shr_record 8388608 false false, e + n + 1).
      * reflexivity.
      * unfold shr_fexp. change (Zdigits2 (2 ^ 24)) with 25.
        rewrite fexp_eq.
        replace (Z.max (25 + (e + n) - 24) (-149) - (e + n)) with 1 by lia.
        reflexivity.
    + rewrite shr_fexp_none.
      * cbn [shr_m]. destruct q as [|p|p]; try lia. reflexivity.
      * rewrite fexp_eq.
        pose proof (Zdigits2_bound q ltac:(lia) ltac:(lia)). lia.
Qed.

Lemma log2_digits (p : positive) : Z.log2 (Zpos p) + 1 = digits p.
Proof.
  pose proof (digits_bounds p) as B. pose proof (digits_pos p).
  rewrite (Z.log2_unique (Zpos p) (digits p - 1)); try lia.
  replace (Z.succ (digits p - 1)) with (digits p) by lia. exact B.
Qed.

Lemma log2_scaled (p : positive) (k : Z) :
  0 <= k -> Z.log2 (Zpos p * 2 ^ k) + 1 = digits p + k.
Proof.
  intros Hk. rewrite Z.log2_mul_pow2 by lia.
  pose proof (log2_digits p). lia.
Qed.

Lemma pos_iter_xO (m d : positive) :
  Zpos (Pos.iter xO m d) = Zpos m * 2 ^ Zpos d.
Proof.
  rewrite (Pos.iter_swap_gen _ _ Zpos xO (Z.mul 2)) by reflexivity.
  rewrite <- Z.shiftl_mul_pow2 by lia. reflexivity.
Qed.

Lemma digits_scaled (m mz : positive) (k : Z) :
  0 <= k -> Zpos mz = Zpos m * 2 ^ k -> digits mz = digits m + k.
Proof.
  intros Hk E. rewrite <- (log2_digits mz), E. now apply log2_scaled.
Qed.

Lemma digits_small (m : positive) : digits m <= 24 -> Zpos m < 2 ^ 24.
Proof.
  intros H. pose proof (digits_bounds m) as [_ B].
  eapply Z.lt_le_trans; [exact B|]. apply Z.pow_le_mono_r; lia.
Qed.

Lemma digits_large (m : positive) (k : Z) :
  0 <= k -> k < digits m -> 2 ^ k <= Zpos m.
Proof.
  intros H0 H. pose proof (digits_bounds m) as [B _].
  eapply Z.le_trans; [|exact B]. apply Z.pow_le_mono_r; lia.
Qed.

(** [binary_round] is rounding of the value counted in units of 2^-149. *)
Lemma binary_round_ulps (s : bool) (m : positive) (e : Z) :
  -149 <= e ->
  binary_round 24 128 s m e = round_ulps s (Zpos m * 2 ^ (e + 149)).
Proof.
  intros He. unfold binary_round, round_ulps.
  rewrite log2_scaled by lia. fold (digits m). rewrite fexp_eq.
  set (d := digits m). pose proof (digits_pos m) as Dp. fold d in Dp.
  set (fe := Z.max (d + e - 24) (-149)).
  replace (Z.max (d + (e + 149) - 24) 0) with (fe + 149) by lia.
  cbv zeta.
  assert (P : 0 < 2 ^ (e + 149)) by (apply Z.pow_pos_nonneg; lia).
  unfold shl_align.
  destruct (fe - e) as [|p|p] eqn:Efe.
  - (* the exponent is already canonical *)
    assert (fe = e) by lia.
    rewrite aux_noshift by (rewrite fexp_eq; fold d; lia).
    replace (fe + 149) with (e + 149) by lia.
    rewrite rne_shift_exact by lia.
    replace (Zpos m =? 2 ^ 24) with false.
    2:{ symmetry; apply Z.eqb_neq.
        pose proof (digits_small m ltac:(fold d; lia)). lia. }
    replace (e + 149 - 149) with e by lia. reflexivity.
  - (* too many digits: shift right and round *)
    assert (Hfe : fe = d + e - 24) by lia.
    rewrite (aux_shift s m e (Zpos p)) by (try rewrite fexp_eq; fold d; lia).
    cbv zeta.
    replace (fe + 149) with (Zpos p + (e + 149)) by lia.
    rewrite rne_shift_scale by lia.
    assert (Q : 2 ^ 23 <= rne_shift (Zpos m) (Zpos p)).
    { pose proof (rne_shift_bounds (Zpos m) (Zpos p) ltac:(lia)) as [L _].
      eapply Z.le_trans; [|exact L].
      apply Z.div_le_lower_bound; [apply Z.pow_pos_nonneg; lia|].
      rewrite <- Z.pow_add_r by lia.
      apply digits_large; fold d; lia. }
    replace (rne_shift (Zpos m) (Zpos p) =? 0) with false
      by (symmetry; apply Z.eqb_neq; cbn in Q; lia).
    replace (Zpos p + (e + 149) + 1 - 149) with (e + Zpos p + 1) by lia.
    replace (Zpos p + (e + 149) - 149) with (e + Zpos p) by lia.
    reflexivity.
  - (* too few digits: shift left *)
    assert (Hk : e - fe = Zpos p) by lia.
    pose proof (pos_iter_xO m p) as Ez.
    set (mz := Pos.iter xO m p) in *.
    pose proof (digits_scaled m mz (Zpos p) ltac:(lia) Ez) as Dz. fold d in Dz.
    rewrite aux_noshift by (rewrite fexp_eq; lia).
    replace (Zpos m * 2 ^ (e + 149)) with (Zpos mz * 2 ^ (fe + 149)).
    2:{ rewrite Ez, <- Z.mul_assoc, <- Z.pow_add_r by lia.
        f_equal. f_equal. lia. }
    rewrite rne_shift_exact by lia.
    replace (Zpos mz =? 2 ^ 24) with false.
    2:{ symmetry; apply Z.eqb_neq.
        pose proof (digits_small mz ltac:(lia)). lia. }
    replace (fe + 149 - 149) with fe by lia. reflexivity.
Qed.

Lemma round_ulps_rank (s : bool) (N : Z) :
  round_ulps s N
  = if fst (rank N) - 149 <=? 104
    then S754_finite s (Z.to_pos (snd (rank N))) (fst (rank N) - 149)
    else S754_infinity s.
Proof.
  unfold round_ulps, rank. cbv zeta.
  destruct (rne_shift N (Z.max (Z.log2 N + 1 - 24) 0) =? 2 ^ 24); reflexivity.
Qed.

Lemma rne_shift_range (N : Z) :
  0 < N ->
  let n := Z.max (Z.log2 N + 1 - 24) 0 in
  0 < rne_shift N n <= 2 ^ 24 /\ (0 < n -> 2 ^ 23 <= rne_shift N n).
Proof.
  intros HN n.
  assert (Hn : 0 <= n) by (unfold n; lia).
  assert (P : 0 < 2 ^ n) by (apply Z.pow_pos_nonneg; lia).
  pose proof (Z.log2_spec N HN) as [L U].
  pose proof (Z.log2_nonneg N) as L0.
  pose proof (rne_shift_bounds N n Hn) as [B1 B2].
  assert (T : N / 2 ^ n < 2 ^ 24).
  { apply Z.div_lt_upper_bound; [lia|]. rewrite <- Z.pow_add_r by lia.
    eapply Z.lt_le_trans; [exact U|]. apply Z.pow_le_mono_r; lia. }
  assert (Lo : 0 < n -> 2 ^ 23 <= N / 2 ^ n).
  { intros Hp. apply Z.div_le_lower_bound; [lia|].
    rewrite <- Z.pow_add_r by lia.
    eapply Z.le_trans; [|exact L]. apply Z.pow_le_mono_r; lia. }
  split; [split|].
  - destruct (Z.eq_dec n 0) as [E|NE].
    + rewrite E, rne_shift_0. exact HN.
    + assert (2 ^ 23 <= N / 2 ^ n) by (apply Lo; lia).
      assert (0 < 2 ^ 23) by reflexivity. lia.
  - lia.
  - intros Hp. specialize (Lo Hp). lia.
Qed.

Lemma rank_range (N : Z) :
  0 < N -> 0 <= fst (rank N) /\ 0 < snd (rank N) < 2 ^ 24.
Proof.
  intros HN. pose proof (rne_shift_range N HN) as [[Q0 QT] _].
  unfold rank. cbv zeta in *.
  destruct (Z.eqb_spec (rne_shift N (Z.max (Z.log2 N + 1 - 24) 0)) (2 ^ 24));
    cbn [fst snd].
  - split; [lia|]. split; reflexivity.
  - lia.
Qed.

Lemma rank_mono (N1 N2 : Z) :
  0 < N1 -> N1 <= N2 ->
  fst (rank N1) < fst (rank N2) \/
  (fst (rank N1) = fst (rank N2) /\ snd (rank N1) <= snd (rank N2)).
Proof.
  intros H1 H.
  assert (H2 : 0 < N2) by lia.
  pose proof (rne_shift_range N1 H1) as [[A0 AT] AL].
  pose proof (rne_shift_range N2 H2) as [[B0 BT] BL].
  pose proof (Z.log2_le_mono N1 N2 H) as LM.
  unfold rank. cbv zeta in *.
  set (n1 := Z.max (Z.log2 N1 + 1 - 24) 0) in *.
  set (n2 := Z.max (Z.log2 N2 + 1 - 24) 0) in *.
  assert (N12 : n1 <= n2) by (unfold n1, n2; lia).
  assert (T : 2 ^ 23 < 2 ^ 24) by reflexivity.
  destruct (Z.eq_dec n1 n2) as [E|NE].
  - pose proof (rne_shift_mono N1 N2 n1 ltac:(unfold n1; lia) H) as QM.
    rewrite <- E in *.
    destruct (Z.eqb_spec (rne_shift N1 n1) (2 ^ 24));
    destruct (Z.eqb_spec (rne_shift N2 n1) (2 ^ 24)); cbn [fst snd]; lia.
  - assert (P2 : 0 < n2) by (unfold n1 in *; lia).
    specialize (BL P2).
    destruct (Z.eqb_spec (rne_shift N1 n1) (2 ^ 24));
    destruct (Z.eqb_spec (rne_shift N2 n2) (2 ^ 24)); cbn [fst snd]; lia.
Qed.

Lemma key_round_ulps (s : bool) (N : Z) :
  0 < N ->
  F32.is_nan (round_ulps s N) = false /\
  key (round_ulps s N)
  = if fst (rank N) - 149 <=? 104
    then if s then (-1, - (fst (rank N) - 149), - snd (rank N))
         else (1, fst (rank N) - 149, snd (rank N))
    else if s then (-2, 0, 0) else (2, 0, 0).
Proof.
  intros HN. pose proof (rank_range N HN) as [_ [Q0 _]].
  rewrite round_ulps_rank.
  destruct (fst (rank N) - 149 <=? 104); destruct s; cbn [F32.is_nan key];
    rewrite ?Z2Pos.id by lia; auto.
Qed.

Lemma round_ulps_mono (N1 N2 : Z) :
  0 < N1 -> N1 <= N2 ->
  F32.leb (round_ulps false N1) (round_ulps false N2) = true /\
  F32.leb (round_ulps true N2) (round_ulps true N1) = true.
Proof.
  intros H1 H. assert (H2 : 0 < N2) by lia.
  pose proof (rank_mono N1 N2 H1 H) as RM.
  pose proof (rank_range N1 H1) as R1. pose proof (rank_range N2 H2) as R2.
  destruct (key_round_ulps false N1 H1) as [Na Ka].
  destruct (key_round_ulps false N2 H2) as [Nb Kb].
  destruct (key_round_ulps true N1 H1) as [Nc Kc].
  destruct (key_round_ulps true N2 H2) as [Nd Kd].
  split; apply leb_iff; (split; [assumption|]); (split; [assumption|]).
  - rewrite Ka, Kb.
    destruct (Z.leb_spec (fst (rank N1) - 149) 104);
    destruct (Z.leb_spec (fst (rank N2) - 149) 104);
      unfold klt, keq; lia.
  - rewrite Kc, Kd.
    destruct (Z.leb_spec (fst (rank N1) - 149) 104);
    destruct (Z.leb_spec (fst (rank N2) - 149) 104);
      unfold klt, keq; lia.
Qed.

Lemma key_round_int_sign (N : Z) :
  F32.is_nan (round_int N) = false /\
  (0 < N -> 0 < fst (fst (key (round_int N)))) /\
  (N < 0 -> fst (fst (key (round_int N))) < 0) /\
  (N = 0 -> key (round_int N) = (0, 0, 0)).
Proof.
  destruct N as [|p|p]; cbn [round_int].
  - repeat split; intros; try lia; reflexivity.
  - destruct (key_round_ulps false (Zpos p) ltac:(lia)) as [Hn Hk].
    rewrite Hk. split; [exact Hn|].
    destruct (fst (rank (Zpos p)) - 149 <=? 104); cbn [fst];
      repeat split; intros; lia.
  - destruct (key_round_ulps true (Zpos p) ltac:(lia)) as [Hn Hk].
    rewrite Hk. split; [exact Hn|].
    destruct (fst (rank (Zpos p)) - 149 <=? 104); cbn [fst];
      repeat split; intros; lia.
Qed.

(** Rounding is monotone. *)
Lemma round_int_mono (N1 N2 : Z) :
  N1 <= N2 -> F32.leb (round_int N1) (round_int N2) = true.
Proof.
  intros H.
  destruct (key_round_int_sign N1) as (Na & Pa & Ma & Za).
  destruct (key_round_int_sign N2) as (Nb & Pb & Mb & Zb).
  destruct (Z_lt_le_dec 0 N1) as [L1|L1].
  - (* both positive *)
    destruct N1 as [|p1|p1]; try lia. destruct N2 as [|p2|p2]; try lia.
    apply (round_ulps_mono (Zpos p1) (Zpos p2)); lia.
  - destruct (Z_lt_le_dec N2 0) as [L2|L2].
    + (* both negative *)
      destruct N1 as [|p1|p1]; try lia. destruct N2 as [|p2|p2]; try lia.
      apply (round_ulps_mono (Zpos p2) (Zpos p1)); lia.
    + (* the signs differ, or one is zero *)
      apply leb_iff. split; [exact Na|]. split; [exact Nb|].
      destruct (Z.eq_dec N1 0) as [E1|E1]; destruct (Z.eq_dec N2 0) as [E2|E2].
      * rewrite (Za E1), (Zb E2). right. simpl. auto.
      * rewrite (Za E1). specialize (Pb ltac:(lia)).
        destruct (key (round_int N2)) as [[a b] c]. cbn [fst] in Pb.
        left. simpl. lia.
      * rewrite (Zb E2). specialize (Ma ltac:(lia)).
        destruct (key (round_int N1)) as [[a b] c]. cbn [fst] in Ma.
        left. simpl. lia.
      * specialize (Ma ltac:(lia)). specialize (Pb ltac:(lia)).
        destruct (key (round_int N1)) as [[a b] c].
        destruct (key (round_int N2)) as [[a' b'] c']. cbn [fst] in *.
        left. simpl. lia.
Qed.

Lemma finite_valid_inv (s : bool) (m : positive) (e : Z) :
  finite_valid (S754_finite s m e) = true ->
  fexp 24 128 (digits m + e) = e /\ -149 <= e <= 104 /\ digits m <= 24.
Proof.
  unfold finite_valid, F32.valid, valid_binary, bounded, canonical_mantissa.
  cbn [F32.is_finite andb]. fold (digits m). intros H.
  apply andb_true_iff in H. destruct H as [H1 H2].
  apply Z.eqb_eq in H1. apply Z.leb_le in H2.
  change (F32.emax - F32.prec) with 104 in H2.
  change F32.prec with 24 in H1. change F32.emax with 128 in H1.
  split; [exact H1|]. rewrite fexp_eq in H1. lia.
Qed.

Lemma scaled_pos (m : positive) (k : Z) :
  0 <= k -> exists p, Zpos m * 2 ^ k = Zpos p.
Proof.
  intros Hk. assert (0 < Zpos m * 2 ^ k).
  { apply Z.mul_pos_pos; [lia|apply Z.pow_pos_nonneg; lia]. }
  destruct (Zpos m * 2 ^ k) as [|p|p]; try lia. eauto.
Qed.

Lemma round_int_signed (s : bool) (N : Z) :
  0 < N -> round_int (cond_Zopp s N) = round_ulps s N.
Proof.
  intros H. destruct N as [|p|p]; try lia. now destruct s.
Qed.

(** Rounding a representable value gives it back. *)
Lemma binary_round_valid (s : bool) (m : positive) (e : Z) :
  finite_valid (S754_finite s m e) = true ->
  binary_round 24 128 s m e = S754_finite s m e.
Proof.
  intros H. destruct (finite_valid_inv s m e H) as (C & B & D).
  unfold binary_round, shl_align. fold (digits m). rewrite C, Z.sub_diag.
  rewrite aux_noshift by lia.
  now replace (e <=? 104) with true by (symmetry; apply Z.leb_le; lia).
Qed.

Lemma round_int_ulps (x : float) :
  finite_valid x = true -> key (round_int (ulps x)) = key x.
Proof.
  intros H. destruct x as [s|s| |s m e]; try discriminate H.
  - reflexivity.
  - destruct (finite_valid_inv s m e H) as (C & B & D).
    cbn [ulps]. rewrite round_int_signed
      by (apply Z.mul_pos_pos; [lia|apply Z.pow_pos_nonneg; lia]).
    rewrite <- binary_round_ulps by lia.
    now rewrite binary_round_valid.
Qed.

Lemma shl_align_fst (m : positive) (e e' : Z) :
  e' <= e -> Zpos (fst (shl_align m e e')) = Zpos m * 2 ^ (e - e').
Proof.
  intros H. unfold shl_align.
  destruct (e' - e) as [|p|p] eqn:E; try lia; cbn [fst].
  - replace (e - e') with 0 by lia. simpl. lia.
  - rewrite pos_iter_xO. f_equal. f_equal. lia.
Qed.

Lemma binary_normalize_ulps (M e : Z) :
  -149 <= e ->
  binary_normalize 24 128 M e false = round_int (M * 2 ^ (e + 149)).
Proof.
  intros He. destruct M as [|m|m]; cbn [binary_normalize].
  - reflexivity.
  - rewrite binary_round_ulps by lia.
    destruct (scaled_pos m (e + 149) ltac:(lia)) as [p Ep].
    rewrite Ep. reflexivity.
  - rewrite binary_round_ulps by lia.
    destruct (scaled_pos m (e + 149) ltac:(lia)) as [p Ep].
    change (Zneg m) with (- Zpos m). rewrite Z.mul_opp_l, Ep. reflexivity.
Qed.

Lemma ulps_scaled (s : bool) (m : positive) (e ez : Z) :
  -149 <= ez -> ez <= e ->
  cond_Zopp s (Zpos (fst (shl_align m e ez))) * 2 ^ (ez + 149)
  = ulps (S754_finite s m e).
Proof.
  intros H1 H2. rewrite shl_align_fst by lia. cbn [ulps].
  replace (e + 149) with ((e - ez) + (ez + 149)) by lia.
  rewrite (Z.pow_add_r 2 (e - ez) (ez + 149)) by lia.
  destruct s; cbn [cond_Zopp]; ring.
Qed.

(** Addition of finite numbers is rounding of the exact sum. *)
Lemma add_ulps (a t : float) :
  finite_valid a = true -> finite_valid t = true ->
  F32.is_nan (F32.add a t) = false /\
  key (F32.add a t) = key (round_int (ulps a + ulps t)).
Proof.
  intros Ha Ht.
  destruct a as [sa|sa| |sa ma ea]; try discriminate Ha;
  destruct t as [st|st| |st mt et]; try discriminate Ht.
  - destruct sa, st; split; reflexivity.
  - split; [reflexivity|]. cbn [F32.add SFadd].
    change (ulps (S754_zero sa)) with 0. rewrite Z.add_0_l.
    now rewrite round_int_ulps.
  - split; [reflexivity|]. cbn [F32.add SFadd].
    change (ulps (S754_zero st)) with 0. rewrite Z.add_0_r.
    now rewrite round_int_ulps.
  - destruct (finite_valid_inv sa ma ea Ha) as (_ & Ba & _).
    destruct (finite_valid_inv st mt et Ht) as (_ & Bt & _).
    unfold F32.add, SFadd. cbv zeta.
    change F32.prec with 24. change F32.emax with 128.
    rewrite binary_normalize_ulps by lia.
    rewrite Z.mul_add_distr_r, !ulps_scaled by lia.
    split; [|reflexivity].
    apply key_round_int_sign.
Qed.

Lemma ulps_of_key (a b : float) :
  F32.is_finite a = true -> F32.is_finite b = true ->
  keq (key a) (key b) -> ulps a = ulps b.
Proof.
  intros Ha Hb.
  destruct a as [sa|sa| |sa ma ea]; try discriminate Ha;
  destruct b as [sb|sb| |sb mb eb]; try discriminate Hb;
  try destruct sa; try destruct sb; cbn [key keq ulps cond_Zopp];
    intros (E1 & E2 & E3); try lia.
  - replace eb with ea by lia. replace mb with ma by lia. reflexivity.
  - replace eb with ea by lia. replace mb with ma by lia. reflexivity.
Qed.

Lemma finite_valid_finite (a : float) :
  finite_valid a = true -> F32.is_finite a = true.
Proof. unfold finite_valid. intros H. now apply andb_true_iff in H. Qed.

Lemma finite_not_nan (a : float) :
  F32.is_finite a = true -> F32.is_nan a = false.
Proof. now destruct a. Qed.

(** The order of the comparisons is the order of the values. *)
Lemma leb_ulps (a b : float) :
  finite_valid a = true -> finite_valid b = true ->
  F32.leb a b = true -> ulps a <= ulps b.
Proof.
  intros Ha Hb L.
  destruct (Z_lt_le_dec (ulps b) (ulps a)) as [Lt|]; [|assumption].
  pose proof (round_int_mono (ulps b) (ulps a) ltac:(lia)) as R.
  apply leb_iff in R. destruct R as (_ & _ & R).
  rewrite !round_int_ulps in R by assumption.
  apply leb_iff in L. destruct L as (_ & _ & L).
  assert (K : keq (key a) (key b)).
  { destruct (key a) as [[a1 a2] a3], (key b) as [[b1 b2] b3].
    unfold klt, keq in *. lia. }
  apply ulps_of_key in K; auto using finite_valid_finite. lia.
Qed.

Lemma leb_of_keys (a b a' b' : float) :
  F32.is_nan a' = false -> F32.is_nan b' = false ->
  key a' = key a -> key b' = key b ->
  F32.leb a b = true -> F32.leb a' b' = true.
Proof.
  intros Na Nb Ka Kb L. apply leb_iff in L. destruct L as (_ & _ & L).
  apply leb_iff. rewrite Ka, Kb. auto.
Qed.

(** Adding the same finite number on both sides keeps the order. *)
Lemma add_mono (a b t : float) :
  finite_valid a = true -> finite_valid b = true -> finite_valid t = true ->
  F32.leb a b = true -> F32.leb (F32.add a t) (F32.add b t) = true.
Proof.
  intros Ha Hb Ht L.
  destruct (add_ulps a t Ha Ht) as [Na Ka].
  destruct (add_ulps b t Hb Ht) as [Nb Kb].
  pose proof (leb_ulps a b Ha Hb L) as U.
  eapply leb_of_keys; [exact Na | exact Nb | exact Ka | exact Kb |].
  apply round_int_mono. lia.
Qed.

(** * Loaded floats, and multiplying by 1.0f and 0.0f *)

(** Every 32-bit pattern is a float that fits the format. *)
Lemma of_bits_valid (w : Z) : F32.valid (F32.of_bits w) = true.
Proof.
  unfold F32.of_bits. cbv zeta.
  change 8388607 with (Z.ones 23). change 255 with (Z.ones 8).
  rewrite !Z.land_ones by lia. change (Z.ones 8) with 255.
  pose proof (Z.mod_pos_bound w (2 ^ 23) ltac:(reflexivity)) as Bm.
  pose proof (Z.mod_pos_bound (Z.shiftr w 23) (2 ^ 8) ltac:(reflexivity)) as Be.
  set (m := w mod 2 ^ 23) in *. set (e := Z.shiftr w 23 mod 2 ^ 8) in *.
  change (2 ^ 23) with 8388608 in Bm. change (2 ^ 8) with 256 in Be.
  destruct (Z.eqb_spec e 0) as [E0|E0].
  - destruct m as [|p|p] eqn:Em; try reflexivity.
    unfold F32.valid, valid_binary, bounded, canonical_mantissa.
    fold (digits p). change F32.prec with 24. change F32.emax with 128.
    rewrite fexp_eq.
    assert (digits p <= 23).
    { destruct (Z_lt_le_dec 23 (digits p)); [|lia].
      pose proof (digits_large p 23 ltac:(lia) ltac:(lia)) as L.
      change (2 ^ 23) with 8388608 in L. lia. }
    apply andb_true_iff. split; [apply Z.eqb_eq; lia|reflexivity].
  - destruct (Z.eqb_spec e 255) as [E1|E1].
    + now destruct (m =? 0).
    + assert (L : Z.lor m 8388608 = m + 8388608).
      { pose proof (Z.add_lor_land m 8388608) as A.
        assert (Z.land m 8388608 = 0); [|lia].
        unfold m. change (2 ^ 23) with (Z.succ (Z.ones 23)) at 1.
        change (Z.succ (Z.ones 23)) with (2 ^ 23).
        rewrite <- Z.land_ones by lia. rewrite <- Z.land_assoc.
        change (Z.land (Z.ones 23) 8388608) with 0. apply Z.land_0_r. }
      rewrite L. destruct (m + 8388608) as [|p|p] eqn:Ep; try reflexivity.
      unfold F32.valid, valid_binary, bounded, canonical_mantissa.
      fold (digits p). change F32.prec with 24. change F32.emax with 128.
      rewrite fexp_eq.
      assert (digits p = 24).
      { apply digits_unique. change (2 ^ (24 - 1)) with 8388608.
        change (2 ^ 24) with 16777216. lia. }
      apply andb_true_iff. split; [apply Z.eqb_eq|apply Z.leb_le]; 
        change (128 - 24) with 104; lia.
Qed.

Lemma load_f32_valid (buf : list byte) (o : Z) (v : float) :
  load_f32 buf o = Some v -> F32.valid v = true.
Proof.
  unfold load_f32.
  destruct ((0 <=? o) && (o + 4 <=? Z.of_nat (length buf))); [|discriminate].
  destruct (firstn 4 (skipn (Z.to_nat o) buf)) as [|b0 [|b1 [|b2 [|b3 [|]]]]];
    try discriminate.
  intros H. injection H as <-. apply of_bits_valid.
Qed.

(** Multiplying by 1.0f and by 0.0f. *)
Lemma mul_one (x : float) :
  finite_valid x = true -> F32.mul (fz 1) x = x.
Proof.
  intros H. destruct x as [s|s| |s m e]; try discriminate H.
  - reflexivity.
  - destruct (finite_valid_inv s m e H) as (C & B & D).
    change (fz 1) with (S754_finite false 8388608 (-23)).
    unfold F32.mul, SFmul. change F32.prec with 24. change F32.emax with 128.
    cbn [xorb].
    assert (E : Zpos (8388608 * m) = Zpos m * 2 ^ 23)
      by (rewrite Pos2Z.inj_mul; change (2 ^ 23) with 8388608; lia).
    pose proof (digits_scaled m (8388608 * m) 23 ltac:(lia) E) as Dz.
    rewrite (aux_shift s (8388608 * m) (-23 + e) 23).
    + cbv zeta. rewrite E, rne_shift_exact by lia.
      replace (Zpos m =? 0) with false by reflexivity.
      replace (Zpos m =? 2 ^ 24) with false
        by (symmetry; apply Z.eqb_neq; pose proof (digits_small m D); lia).
      replace (-23 + e + 23) with e by lia.
      replace (e <=? 104) with true by (symmetry; apply Z.leb_le; lia).
      reflexivity.
    + rewrite Dz. replace (digits m + 23 + (-23 + e)) with (digits m + e) by lia.
      rewrite C. lia.
    + lia.
Qed.

Lemma mul_zero (x : float) :
  F32.is_finite x = true -> is_zero (F32.mul (fz 0) x) = true.
Proof. now destruct x. Qed.

Lemma add_zero_r (x z : float) :
  finite_valid x = true -> is_zero z = true ->
  finite_valid (F32.add x z) = true.
Proof.
  intros H Z. destruct z as [sz| | |]; try discriminate Z.
  destruct x as [s|s| |s m e]; try discriminate H.
  - now destruct s, sz.
  - exact H.
Qed.

Lemma add_zero_l (z x : float) :
  is_zero z = true -> finite_valid x = true ->
  finite_valid (F32.add z x) = true.
Proof.
  intros Z H. destruct z as [sz| | |]; try discriminate Z.
  destruct x as [s|s| |s m e]; try discriminate H.
  - now destruct s, sz.
  - exact H.
Qed.

Lemma add_plus_zero_key (x : float) :
  F32.is_finite x = true ->
  F32.is_finite (F32.add x F32.zero) = true /\
  key (F32.add x F32.zero) = key x.
Proof.
  intros H. destruct x as [s|s| |s m e]; try discriminate H.
  - now destruct s.
  - split; reflexivity.
Qed.

Lemma add_zeros (a b : float) :
  is_zero a = true -> is_zero b = true -> is_zero (F32.add a b) = true.
Proof.
  intros Ha Hb. destruct a as [sa| | |]; try discriminate Ha.
  destruct b as [sb| | |]; try discriminate Hb. now destruct sa, sb.
Qed.

(** * Translation-only matrices *)

Lemma coord_translation (k : axis) (t p : vec3) :
  coord k (transform (translation_coeffs t) p)
  = F32.add (base k p) (coord k t).
Proof. now destruct k. Qed.

Lemma base_finite_valid (k : axis) (p : vec3) :
  (forall j, finite_valid (coord j p) = true) ->
  finite_valid (base k p) = true.
Proof.
  intros H.
  pose proof (H AX) as Hx. pose proof (H AY) as Hy. pose proof (H AZ) as Hz.
  cbn [coord] in Hx, Hy, Hz.
  pose proof (mul_zero _ (finite_valid_finite _ Hx)) as Zx.
  pose proof (mul_zero _ (finite_valid_finite _ Hy)) as Zy.
  pose proof (mul_zero _ (finite_valid_finite _ Hz)) as Zz.
  destruct k; cbn [base]; rewrite mul_one by assumption.
  - apply add_zero_r; auto. now apply add_zero_r.
  - apply add_zero_r; auto. now apply add_zero_l.
  - apply add_zero_l; auto. now apply add_zeros.
Qed.

Lemma finite_valid_not_nan (a : float) :
  finite_valid a = true -> F32.is_nan a = false.
Proof. intros H. now apply finite_not_nan, finite_valid_finite. Qed.

Lemma run_lo_min (l0 : float) (vs : list float) :
  no_nan (l0 :: vs) -> is_min_of (run_lo l0 vs) (l0 :: vs).
Proof.
  intros N. assert (N0 : F32.is_nan l0 = false) by (apply N; now left).
  split; [apply run_lo_in|].
  intros u [<-|Hu].
  - now apply run_lo_le_seed.
  - apply run_lo_le; auto. apply N. now right.
Qed.

Lemma run_hi_max (h0 : float) (vs : list float) :
  no_nan (h0 :: vs) -> is_max_of (run_hi h0 vs) (h0 :: vs).
Proof.
  intros N. assert (N0 : F32.is_nan h0 = false) by (apply N; now left).
  split; [apply run_hi_in|].
  intros u [<-|Hu].
  - now apply run_hi_ge_seed.
  - apply run_hi_ge; auto. apply N. now right.
Qed.

Section Shift.

Variable t : float.
Hypothesis t_ok : finite_valid t = true.

(** Shifting the extreme of the unshifted values gives a value with the
    key of the shifted value of the same record. *)
Lemma shift_unshifted (w : float) :
  finite_valid w = true ->
  F32.is_nan (F32.add (unmoved w) t) = false /\
  key (F32.add (unmoved w) t) = key (moved t w).
Proof.
  intros Hw.
  assert (Gw : finite_valid (unmoved w) = true)
    by (apply add_zero_r; auto).
  destruct (add_ulps (unmoved w) t Gw t_ok) as [N K].
  destruct (add_ulps w t Hw t_ok) as [_ K'].
  split; [exact N|]. unfold moved. rewrite K, K'.
  assert (U : ulps (unmoved w) = ulps w); [|now rewrite U].
  apply ulps_of_key; auto using finite_valid_finite.
  destruct (add_plus_zero_key w (finite_valid_finite _ Hw)) as [_ E].
  unfold unmoved. rewrite E.
  destruct (key w) as [[a b] c]. simpl. auto.
Qed.

End Shift.

Lemma position_at_valid (buf : list byte) (o : Z) (p : vec3) :
  position_at buf o = Some p -> forall k, F32.valid (coord k p) = true.
Proof.
  unfold position_at.
  destruct (load_f32 buf o) as [x|] eqn:Ex; [|discriminate].
  destruct (load_f32 buf (o + 4)) as [y|] eqn:Ey; [|discriminate].
  destruct (load_f32 buf (o + 8)) as [z|] eqn:Ez; [|discriminate].
  intros H k. injection H as <-.
  destruct k; cbn [coord c0 c1 c2]; eapply load_f32_valid; eauto.
Qed.

Lemma record_position_valid (buf : list byte) (st off i : Z) (p : vec3) :
  record_position buf st off i = Some p ->
  forall k, F32.valid (coord k p) = true.
Proof.
  unfold record_position. destruct (address st off i); [|discriminate].
  apply position_at_valid.
Qed.

Lemma finite3_coord (p : vec3) (k : axis) :
  finite3 p = true -> F32.is_finite (coord k p) = true.
Proof.
  unfold finite3. intros H.
  apply andb_true_iff in H. destruct H as [H Hz].
  apply andb_true_iff in H. destruct H as [Hx Hy].
  now destruct k.
Qed.

Lemma gathered_finite_valid (buf : list byte) (n st off : Z)
  (ps : list vec3) :
  gather (Z.to_nat n) buf st off 0 = Some ps ->
  (forall i p, 0 <= i < n -> record_position buf st off i = Some p ->
               finite3 p = true) ->
  forall p, In p ps -> forall k, finite_valid (coord k p) = true.
Proof.
  intros G Fin p Hp k.
  destruct (In_nth_error _ _ Hp) as [j Hj].
  pose proof (gather_length _ _ _ _ _ _ G) as Len.
  assert (Hjn : (j < Z.to_nat n)%nat).
  { rewrite <- Len. apply nth_error_Some. congruence. }
  pose proof (gather_nth _ _ _ _ _ _ G j Hjn) as E.
  rewrite Hj in E. simpl in E.
  unfold finite_valid. apply andb_true_iff. split.
  - apply finite3_coord. apply (Fin (Z.of_nat j)); auto. lia.
  - eapply record_position_valid; eauto.
Qed.

Lemma lo_translation (k : axis) (t p0 : vec3) (ps : list vec3) :
  lo k (aabb (map (transform (translation_coeffs t)) (p0 :: ps)))
  = run_lo (moved (coord k t) (base k p0))
      (map (moved (coord k t)) (map (base k) ps)).
Proof.
  cbn [map]. rewrite lo_aabb, coord_translation, !map_map.
  f_equal. apply map_ext. intros p. apply coord_translation.
Qed.

Lemma hi_translation (k : axis) (t p0 : vec3) (ps : list vec3) :
  hi k (aabb (map (transform (translation_coeffs t)) (p0 :: ps)))
  = run_hi (moved (coord k t) (base k p0))
      (map (moved (coord k t)) (map (base k) ps)).
Proof.
  cbn [map]. rewrite hi_aabb, coord_translation, !map_map.
  f_equal. apply map_ext. intros p. apply coord_translation.
Qed.

Lemma coord_shift (k : axis) (v t : vec3) :
  coord k (shift v t) = F32.add (coord k v) (coord k t).
Proof. now destruct k. Qed.

(** C6, counterexample. Records (+inf,0,0), (1,0,0) and the translation
    (-inf,0,0): under the translation the first x is inf + -inf, a NaN, and
    it stays in [out_min[0]]; under the identity [out_min[0]] is 1, which
    the shift moves to -inf. *)
Lemma translation_claim_fails :
  let buf := packed [mkvec3 plus_infinity (fz 0) (fz 0); vz 1 0 0] in
  let t := mkvec3 minus_infinity (fz 0) (fz 0) in
  ~ translation_claim buf 2 12 0 t /\
  exists sI sT,
    call (Some buf) 2 12 0 (Some identity) junk junk = Some sI /\
    call (Some buf) 2 12 0 (Some (translation t)) junk junk = Some sT /\
    coord AX (out_min sT) = S754_nan /\
    coord AX (shift (out_min sI) t) = minus_infinity.
Proof.
  intros buf t.
  assert (R : exists sI sT,
    call (Some buf) 2 12 0 (Some identity) junk junk = Some sI /\
    call (Some buf) 2 12 0 (Some (translation t)) junk junk = Some sT /\
    coord AX (out_min sT) = S754_nan /\
    coord AX (shift (out_min sI) t) = minus_infinity)
    by (do 2 eexists; split; [|split; [|split]]; vm_compute; reflexivity).
  split; [|exact R].
  destruct R as (sI & sT & HI & HT & E1 & E2).
  intros H. destruct (H ltac:(lia) junk junk sI sT HI HT) as [Hmin _].
  rewrite Hmin, E2 in E1. discriminate E1.
Qed.

(** * One record, attained corners, NaN *)

Lemma call_transformed (buf : list byte) (n st off : Z)
  (matrix : option (list float)) (omin omax : vec3) (s : machine) :
  0 < n ->
  call (Some buf) n st off matrix omin omax = Some s ->
  exists t0 ts,
    transformed_all buf n st off matrix = Some (t0 :: ts) /\
    out_min s = lo_corner (aabb (t0 :: ts)) /\
    out_max s = hi_corner (aabb (t0 :: ts)).
Proof.
  intros Hn Hs.
  destruct (call_nonempty _ _ _ _ _ _ _ _ Hn Hs)
    as (m & p0 & ps & Hm & G & Emin & Emax).
  exists (transform m p0), (map (transform m) ps).
  unfold transformed_all. rewrite Hm, G. auto.
Qed.

Lemma corner_seed (t : vec3) :
  lo_corner (seed t) = t /\ hi_corner (seed t) = t.
Proof. now destruct t. Qed.

(** X1. With [vertex_count = 1] both output arrays hold the transformed
    position of record 0, component for component and bit for bit. *)
Theorem single_vertex_box (buf : list byte) (st off : Z)
  (matrix : option (list float)) (omin omax : vec3) (s : machine) :
  call (Some buf) 1 st off matrix omin omax = Some s ->
  exists t,
    transformed buf st off matrix 0 = Some t /\
    out_min s = t /\ out_max s = t.
Proof.
  intros Hs.
  destruct (call_transformed buf 1 st off matrix omin omax s ltac:(lia) Hs)
    as (t0 & ts & TA & Emin & Emax).
  destruct (transformed_nth _ _ _ _ _ _ TA) as [Len Nth].
  destruct ts as [|t1 ts]; [|discriminate Len].
  exists t0. rewrite (Nth 0 ltac:(lia)), Emin, Emax.
  split; [reflexivity|]. apply corner_seed.
Qed.

Lemma single_vertex_box_witness :
  exists s,
    call (Some (packed [vz 1 1 1])) 1 12 0 (Some scale2_shift10) junk junk
    = Some s /\
    out_min s = vz 12 2 2 /\ out_max s = vz 12 2 2.
Proof.
  assert (R : exists s,
             call (Some (packed [vz 1 1 1])) 1 12 0 (Some scale2_shift10)
               junk junk = Some s) by (eexists; vm_compute; reflexivity).
  destruct R as [s Hs]. exists s. split; [exact Hs|].
  destruct (single_vertex_box _ _ _ _ _ _ _ Hs) as (t & Ht & Emin & Emax).
  vm_compute in Ht. injection Ht as <-. rewrite Emin, Emax.
  split; reflexivity.
Defined.

(** X2. On a non-degenerate call every output coordinate is the
    coordinate of a transformed record: on each axis [out_min] holds the
    value of some record [i < vertex_count] and [out_max] that of some
    record [j < vertex_count], NaN or not. *)
Theorem corners_attained (buf : list byte) (n st off : Z)
  (matrix : option (list float)) (omin omax : vec3) (s : machine)
  (k : axis) :
  0 < n ->
  call (Some buf) n st off matrix omin omax = Some s ->
  exists i j ti tj,
    0 <= i < n /\ 0 <= j < n /\
    transformed buf st off matrix i = Some ti /\
    transformed buf st off matrix j = Some tj /\
    coord k (out_min s) = coord k ti /\
    coord k (out_max s) = coord k tj.
Proof.
  intros Hn Hs.
  destruct (call_transformed _ _ _ _ _ _ _ _ Hn Hs)
    as (t0 & ts & TA & Emin & Emax).
  destruct (transformed_nth _ _ _ _ _ _ TA) as [Len Nth].
  destruct (aabb_attained k t0 ts) as [Alo Ahi].
  apply in_map_iff in Alo. destruct Alo as (ti & Eti & Hti).
  apply in_map_iff in Ahi. destruct Ahi as (tj & Etj & Htj).
  destruct (In_nth_error _ _ Hti) as [i Hi].
  destruct (In_nth_error _ _ Htj) as [j Hj].
  assert (Bi : (i < length (t0 :: ts))%nat)
    by (apply nth_error_Some; congruence).
  assert (Bj : (j < length (t0 :: ts))%nat)
    by (apply nth_error_Some; congruence).
  exists (Z.of_nat i), (Z.of_nat j), ti, tj.
  rewrite !Nth by lia. rewrite !Nat2Z.id, Emin, Emax.
  rewrite coord_lo_corner, coord_hi_corner.
  repeat split; auto; lia.
Qed.

Lemma corners_attained_witness :
  exists s i j ti tj,
    call (Some spec_example) 3 12 0 (Some identity) junk junk = Some s /\
    0 <= i < 3 /\ 0 <= j < 3 /\
    transformed spec_example 12 0 (Some identity) i = Some ti /\
    transformed spec_example 12 0 (Some identity) j = Some tj /\
    coord AY (out_min s) = coord AY ti /\
    coord AY (out_max s) = coord AY tj.
Proof.
  assert (R : exists s,
             call (Some spec_example) 3 12 0 (Some identity) junk junk
             = Some s) by (eexists; vm_compute; reflexivity).
  destruct R as [s Hs].
  destruct (corners_attained spec_example 3 12 0 (Some identity) junk junk
              s AY ltac:(lia) Hs) as (i & j & ti & tj & H).
  exists s, i, j, ti, tj. tauto.
Defined.

Lemma run_hi_nan (vs : list float) : run_hi S754_nan vs = S754_nan.
Proof.
  induction vs as [|v vs IH]; [reflexivity|].
  change (run_hi S754_nan (v :: vs)) with (run_hi (upper v S754_nan) vs).
  unfold upper, F32.gtb. now rewrite SFcompare_nan_r.
Qed.

Lemma run_lo_skips_nan (vs : list float) :
  forall l0, run_lo l0 vs = run_lo l0 (filter not_nan vs).
Proof.
  induction vs as [|v vs IH]; intros l0; [reflexivity|].
  change (run_lo l0 (v :: vs)) with (run_lo (lower v l0) vs).
  cbn [filter]. unfold not_nan at 1.
  destruct v; cbn [F32.is_nan negb]; try apply IH.
Qed.

Lemma run_hi_skips_nan (vs : list float) :
  forall h0, run_hi h0 vs = run_hi h0 (filter not_nan vs).
Proof.
  induction vs as [|v vs IH]; intros h0; [reflexivity|].
  change (run_hi h0 (v :: vs)) with (run_hi (upper v h0) vs).
  cbn [filter]. unfold not_nan at 1.
  destruct v; cbn [F32.is_nan negb]; try apply IH.
Qed.

(** X3. NaN and the running bounds. On each axis, if the transformed
    coordinate of record 0 is NaN then both outputs are NaN there; and the
    later records whose coordinate is NaN change nothing: the outputs are
    the running minimum and maximum, from record 0, over the later
    coordinates that are not NaN. *)
Theorem nan_first_sticks_later_skipped (buf : list byte) (n st off : Z)
  (matrix : option (list float)) (omin omax : vec3) (s : machine)
  (k : axis) :
  0 < n ->
  call (Some buf) n st off matrix omin omax = Some s ->
  exists t0 ts,
    transformed_all buf n st off matrix = Some (t0 :: ts) /\
    (F32.is_nan (coord k t0) = true ->
       coord k (out_min s) = S754_nan /\ coord k (out_max s) = S754_nan) /\
    coord k (out_min s)
    = run_lo (coord k t0) (filter not_nan (map (coord k) ts)) /\
    coord k (out_max s)
    = run_hi (coord k t0) (filter not_nan (map (coord k) ts)).
Proof.
  intros Hn Hs.
  destruct (call_transformed _ _ _ _ _ _ _ _ Hn Hs)
    as (t0 & ts & TA & Emin & Emax).
  exists t0, ts. split; [exact TA|].
  rewrite Emin, Emax, coord_lo_corner, coord_hi_corner, lo_aabb, hi_aabb.
  split.
  - intros N. apply is_nan_true in N. rewrite N.
    now rewrite run_lo_nan, run_hi_nan.
  - split; [apply run_lo_skips_nan | apply run_hi_skips_nan].
Qed.

Lemma nan_first_sticks_later_skipped_witness :
  exists s,
    call (Some (packed [vz 1 0 0; vz 2 2 0; vz 3 0 0])) 3 12 0
      (Some cancelling) junk junk = Some s /\
    coord AX (out_min s) = FLT_MAX /\
    coord AX (out_max s) = S754_infinity false.
Proof.
  assert (R : exists s,
             call (Some (packed [vz 1 0 0; vz 2 2 0; vz 3 0 0])) 3 12 0
               (Some cancelling) junk junk = Some s)
    by (eexists; vm_compute; reflexivity).
  destruct R as [s Hs]. exists s. split; [exact Hs|].
  destruct (nan_first_sticks_later_skipped
              (packed [vz 1 0 0; vz 2 2 0; vz 3 0 0]) 3 12 0
              (Some cancelling) junk junk s AX ltac:(lia) Hs)
    as (t0 & ts & TA & _ & Emin & Emax).
  vm_compute in TA. injection TA as <- <-. rewrite Emin, Emax.
  split; reflexivity.
Defined.


(** * When the call returns *)

Lemma load_f32_bounds (buf : list byte) (o : Z) (v : float) :
  load_f32 buf o = Some v -> 0 <= o /\ o + 4 <= Z.of_nat (length buf).
Proof.
  unfold load_f32.
  destruct ((0 <=? o) && (o + 4 <=? Z.of_nat (length buf))) eqn:E;
    [|discriminate].
  apply andb_true_iff in E. destruct E as [E1 E2].
  apply Z.leb_le in E1. apply Z.leb_le in E2. auto.
Qed.

Lemma position_at_defined (buf : list byte) (o : Z) :
  (exists p, position_at buf o = Some p)
  <-> 0 <= o /\ o + 12 <= Z.of_nat (length buf).
Proof.
  split.
  - intros [p H]. unfold position_at in H.
    destruct (load_f32 buf o) as [x|] eqn:Ex; [|discriminate].
    destruct (load_f32 buf (o + 4)) as [y|] eqn:Ey; [|discriminate].
    destruct (load_f32 buf (o + 8)) as [z|] eqn:Ez; [|discriminate].
    apply load_f32_bounds in Ex. apply load_f32_bounds in Ez. lia.
  - intros [H0 H12]. now apply position_at_some.
Qed.

Lemma record_position_defined (buf : list byte) (st off i : Z) :
  (exists p, record_position buf st off i = Some p)
  <-> record_in_bounds buf st off i.
Proof.
  unfold record_position, record_in_bounds, address, int_op.
  destruct (in_int (i * st)); [|split; [intros [p H]; discriminate|
                                        intros (H & _); discriminate]].
  rewrite position_at_defined. tauto.
Qed.

Lemma gather_defined (buf : list byte) (st off : Z) (n : nat) :
  forall i0,
  (exists ps, gather n buf st off i0 = Some ps)
  <-> forall j : nat, (j < n)%nat ->
        exists p, record_position buf st off (i0 + Z.of_nat j) = Some p.
Proof.
  induction n as [|n IH]; intros i0.
  - split; [intros _ j Hj; lia | intros _; now exists []].
  - cbn [gather]. split.
    + intros [ps H].
      destruct (record_position buf st off i0) as [p|] eqn:Ep;
        [|discriminate].
      destruct (gather n buf st off (i0 + 1)) as [qs|] eqn:Eq;
        [|discriminate].
      intros [|j] Hj.
      * rewrite Z.add_0_r. eauto.
      * destruct (proj1 (IH (i0 + 1)) (ex_intro _ qs Eq) j ltac:(lia))
          as [q Hq].
        exists q. rewrite <- Hq. f_equal. lia.
    + intros H.
      destruct (H 0%nat ltac:(lia)) as [p Hp]. rewrite Z.add_0_r in Hp.
      rewrite Hp.
      destruct (proj2 (IH (i0 + 1))) as [qs Hq].
      * intros j Hj. destruct (H (S j) ltac:(lia)) as [q Hq].
        exists q. rewrite <- Hq. f_equal. lia.
      * rewrite Hq. eauto.
Qed.

Lemma coeffs_of_defined (m : list float) :
  (exists c, coeffs_of (Some m) = Some c) <-> (15 <= length m)%nat.
Proof.
  split.
  - intros [c H]. unfold coeffs_of in H.
    destruct (nth_error m 14) eqn:E.
    + assert (14 < length m)%nat by (apply nth_error_Some; congruence). lia.
    + repeat match type of H with
             | context [match nth_error m ?k with _ => _ end] =>
                 destruct (nth_error m k)
             end; discriminate.
  - intros H. unfold coeffs_of.
    repeat match goal with
           | |- context [nth_error m ?k] =>
               let E := fresh "E" in
               destruct (nth_error m k) eqn:E;
               [|apply nth_error_None in E; simpl in E; lia]
           end.
    eauto.
Qed.

Lemma call_defined_iff (buf : list byte) (n st off : Z)
  (matrix : option (list float)) (omin omax : vec3) :
  0 < n ->
  (exists s, call (Some buf) n st off matrix omin omax = Some s)
  <->
  (exists m, matrix = Some m /\ (15 <= length m)%nat) /\
  (forall i, 0 <= i < n -> record_in_bounds buf st off i).
Proof.
  intros Hn. rewrite call_spec.
  replace (n <=? 0) with false by (symmetry; apply Z.leb_gt; lia).
  split.
  - intros [s H].
    destruct (coeffs_of matrix) as [c|] eqn:Ec; [|discriminate].
    destruct (gather (Z.to_nat n) buf st off 0) as [ps|] eqn:G;
      [|discriminate].
    split.
    + destruct matrix as [m|]; [|discriminate Ec].
      exists m. split; [reflexivity|].
      apply coeffs_of_defined. eauto.
    + intros i Hi. apply record_position_defined.
      pose proof (proj1 (gather_defined buf st off (Z.to_nat n) 0)
                    (ex_intro _ ps G) (Z.to_nat i) ltac:(lia)) as R.
      now rewrite Z2Nat.id in R by lia.
  - intros [(m & -> & Hm) Hb].
    destruct (proj2 (coeffs_of_defined m) Hm) as [c ->].
    destruct (proj2 (gather_defined buf st off (Z.to_nat n) 0)) as [ps ->].
    + intros j Hj. apply record_position_defined. apply Hb. lia.
    + eauto.
Qed.

(** X4. The call returns when its reads are aligned and inside the
    buffer: with [vertex_count > 0], a matrix of at least 15 floats and,
    for every record [i < vertex_count], a product [i * stride_bytes] that
    fits in an [int] and points into the buffer, with the position at
    [i * stride_bytes + position_offset] a multiple of four bytes from the
    base and its twelve bytes inside the buffer. *)
Theorem call_returns_within_buffer (buf : list byte) (n st off : Z)
  (m : list float) (omin omax : vec3) :
  0 < n ->
  (15 <= length m)%nat ->
  (forall i, 0 <= i < n -> record_readable buf st off i) ->
  exists s, call (Some buf) n st off (Some m) omin omax = Some s.
Proof.
  intros Hn Hm Hr. apply call_defined_iff; [exact Hn|].
  split; [now exists m|].
  intros i Hi. destruct (Hr i Hi) as (I & P & A & L & U).
  repeat split; assumption.
Qed.

Lemma call_returns_within_buffer_witness :
  exists s, call (Some spec_example) 3 12 0 (Some identity) junk junk = Some s.
Proof.
  apply (call_returns_within_buffer spec_example 3 12 0 identity junk junk).
  - lia.
  - vm_compute. lia.
  - intros i Hi. unfold record_readable.
    change (Z.of_nat (length spec_example)) with 36.
    assert (C : i = 0 \/ i = 1 \/ i = 2) by lia.
    destruct C as [->|[->| ->]]; repeat split; try reflexivity;
      try discriminate.
Defined.

(** * More records, repeated records, stride 0 *)

Lemma gather_prefix (buf : list byte) (st off : Z) (n m : nat) :
  forall i ps,
  gather (n + m) buf st off i = Some ps ->
  gather n buf st off i = Some (firstn n ps).
Proof.
  induction n as [|n IH]; intros i ps H; [reflexivity|].
  cbn [Nat.add gather] in *.
  destruct (record_position buf st off i) as [p|]; [|discriminate].
  destruct (gather (n + m) buf st off (i + 1)) as [qs|] eqn:E;
    [|discriminate].
  injection H as <-. now rewrite (IH _ _ E).
Qed.

Lemma run_lo_app (l0 : float) (vs ws : list float) :
  run_lo l0 (vs ++ ws) = run_lo (run_lo l0 vs) ws.
Proof. apply fold_left_app. Qed.

Lemma run_hi_app (h0 : float) (vs ws : list float) :
  run_hi h0 (vs ++ ws) = run_hi (run_hi h0 vs) ws.
Proof. apply fold_left_app. Qed.

(** X5. Processing more records of the same buffer never shrinks the
    box: for [0 < n <= n'], on an axis where record 0 transforms to
    something other than NaN, [out_min] of the longer call is [<=] that of
    the shorter, and [out_max] is [>=]. *)
Theorem more_vertices_widen (buf : list byte) (n n' st off : Z)
  (matrix : option (list float)) (omin omax omin' omax' : vec3)
  (s s' : machine) (t0 : vec3) (k : axis) :
  0 < n <= n' ->
  call (Some buf) n st off matrix omin omax = Some s ->
  call (Some buf) n' st off matrix omin' omax' = Some s' ->
  transformed buf st off matrix 0 = Some t0 ->
  F32.is_nan (coord k t0) = false ->
  F32.leb (coord k (out_min s')) (coord k (out_min s)) = true /\
  F32.leb (coord k (out_max s)) (coord k (out_max s')) = true.
Proof.
  intros Hn Hs Hs' T0 N0.
  destruct (call_nonempty buf n st off matrix omin omax s ltac:(lia) Hs)
    as (m & p0 & ps & Hm & G & Emin & Emax).
  destruct (call_nonempty buf n' st off matrix omin' omax' s'
              ltac:(lia) Hs')
    as (m' & p0' & ps' & Hm' & G' & Emin' & Emax').
  rewrite Hm in Hm'. injection Hm' as <-.
  replace (Z.to_nat n') with (Z.to_nat n + Z.to_nat (n' - n))%nat in G'
    by lia.
  apply gather_prefix in G'. rewrite G in G'.
  assert (E : p0 :: ps = firstn (Z.to_nat n) (p0' :: ps'))
    by congruence.
  assert (S : p0' :: ps' = (p0 :: ps) ++ skipn (Z.to_nat n) (p0' :: ps'))
    by (rewrite E; symmetry; apply firstn_skipn).
  remember (skipn (Z.to_nat n) (p0' :: ps')) as qs eqn:Eqs.
  clear Eqs E G'. cbn [app] in S. injection S as -> ->.
  assert (E0 : t0 = transform m p0).
  { unfold transformed in T0. rewrite Hm in T0.
    pose proof (gather_nth _ _ _ _ _ _ G 0%nat ltac:(lia)) as R.
    simpl in R. rewrite R in T0. now injection T0. }
  subst t0.
  rewrite Emin, Emax, Emin', Emax', !coord_lo_corner, !coord_hi_corner.
  cbn [map]. rewrite !lo_aabb, !hi_aabb, !map_app, run_lo_app, run_hi_app.
  split.
  - apply run_lo_le_seed. now apply run_lo_le_seed.
  - apply run_hi_ge_seed. now apply run_hi_ge_seed.
Qed.

Lemma more_vertices_widen_witness :
  exists s s',
    call (Some spec_example) 2 12 0 (Some identity) junk junk = Some s /\
    call (Some spec_example) 3 12 0 (Some identity) junk junk = Some s' /\
    F32.leb (coord AX (out_min s')) (coord AX (out_min s)) = true /\
    F32.leb (coord AX (out_max s)) (coord AX (out_max s')) = true.
Proof.
  assert (R : exists s,
             call (Some spec_example) 2 12 0 (Some identity) junk junk
             = Some s) by (eexists; vm_compute; reflexivity).
  assert (R' : exists s,
             call (Some spec_example) 3 12 0 (Some identity) junk junk
             = Some s) by (eexists; vm_compute; reflexivity).
  destruct R as [s Hs]. destruct R' as [s' Hs']. exists s, s'.
  split; [exact Hs|]. split; [exact Hs'|].
  apply (more_vertices_widen spec_example 2 3 12 0 (Some identity)
           junk junk junk junk s s' (vz 0 0 0) AX); auto.
  lia.
Defined.

(** A value already among those seen does not move a running bound. *)
Lemma lower_absorbed (l0 v : float) (vs : list float) :
  In v (l0 :: vs) -> lower v (run_lo l0 vs) = run_lo l0 vs.
Proof.
  intros Hin. unfold lower.
  destruct (F32.ltb v (run_lo l0 vs)) eqn:E; [|reflexivity].
  exfalso. pose proof E as E'. apply ltb_iff in E'.
  destruct E' as (Nv & NL & _).
  assert (N0 : F32.is_nan l0 = false).
  { destruct (F32.is_nan l0) eqn:N; [|reflexivity].
    apply is_nan_true in N. rewrite N, run_lo_nan in NL. discriminate. }
  assert (L : F32.leb (run_lo l0 vs) v = true).
  { destruct Hin as [<-|Hin];
      [now apply run_lo_le_seed | now apply run_lo_le]. }
  clear - E L. float_order.
Qed.

Lemma upper_absorbed (h0 v : float) (vs : list float) :
  In v (h0 :: vs) -> upper v (run_hi h0 vs) = run_hi h0 vs.
Proof.
  intros Hin. unfold upper.
  destruct (F32.gtb v (run_hi h0 vs)) eqn:E; [|reflexivity].
  exfalso. pose proof E as E'. apply gtb_iff in E'.
  destruct E' as (Nv & NL & _).
  assert (N0 : F32.is_nan h0 = false).
  { destruct (F32.is_nan h0) eqn:N; [|reflexivity].
    apply is_nan_true in N. rewrite N, run_hi_nan in NL. discriminate. }
  assert (L : F32.leb v (run_hi h0 vs) = true).
  { destruct Hin as [<-|Hin];
      [now apply run_hi_ge_seed | now apply run_hi_ge]. }
  clear - E L. float_order.
Qed.

Lemma bounds_ext (b b' : bounds) :
  (forall k, lo k b = lo k b' /\ hi k b = hi k b') -> b = b'.
Proof.
  intros H. destruct b, b'.
  destruct (H AX) as [X1 X2]. destruct (H AY) as [Y1 Y2].
  destruct (H AZ) as [Z1 Z2]. simpl in *.
  congruence.
Qed.

Lemma aabb_absorbs (t0 t : vec3) (ts : list vec3) :
  In t (t0 :: ts) -> aabb ((t0 :: ts) ++ [t]) = aabb (t0 :: ts).
Proof.
  intros Hin. apply bounds_ext. intros k.
  cbn [app]. rewrite !lo_aabb, !hi_aabb, map_app, run_lo_app, run_hi_app.
  cbn [map]. split.
  - apply (lower_absorbed (coord k t0) (coord k t) (map (coord k) ts)).
    change (coord k t0 :: map (coord k) ts)
      with (map (coord k) (t0 :: ts)). now apply in_map.
  - apply (upper_absorbed (coord k t0) (coord k t) (map (coord k) ts)).
    change (coord k t0 :: map (coord k) ts)
      with (map (coord k) (t0 :: ts)). now apply in_map.
Qed.

Lemma well_formed_app (st off : Z) (recs recs' : list (list byte)) :
  well_formed st off (recs ++ recs') ->
  well_formed st off recs /\ well_formed st off recs'.
Proof.
  intros (H0 & H12 & HF & Hmax). apply Forall_app in HF.
  destruct HF as [F1 F2]. rewrite length_app in Hmax.
  split; repeat split; auto; nia.
Qed.

(** X6. A record appended to the buffer that is already among its
    records leaves both outputs as they are. *)
Theorem duplicate_record_absorbed (st off : Z) (matrix : option (list float))
  (recs : list (list byte)) (r : list byte) (omin omax omin' omax' : vec3) :
  well_formed st off (recs ++ [r]) ->
  In r recs ->
  outputs (call (Some (concat (recs ++ [r])))
             (Z.of_nat (length (recs ++ [r]))) st off matrix omin omax)
  = outputs (call (Some (concat recs)) (Z.of_nat (length recs)) st off
               matrix omin' omax').
Proof.
  intros WF Hin. destruct (well_formed_app _ _ _ _ WF) as [WF1 _].
  rewrite !call_spec.
  rewrite (gather_concat st off _ (recs ++ [r]) WF eq_refl).
  rewrite (gather_concat st off _ recs WF1 eq_refl).
  destruct recs as [|r0 rs]; [contradiction|].
  replace (Z.of_nat (length ((r0 :: rs) ++ [r])) <=? 0) with false
    by (symmetry; apply Z.leb_gt; rewrite length_app; simpl; lia).
  replace (Z.of_nat (length (r0 :: rs)) <=? 0) with false
    by (symmetry; apply Z.leb_gt; simpl; lia).
  destruct (coeffs_of matrix) as [m|]; [|reflexivity].
  cbv zeta. cbn [outputs out_min out_max].
  rewrite !map_app.
  change (map (transform m) (map (decode_position off) [r]))
    with [transform m (decode_position off r)].
  change (map (transform m) (map (decode_position off) (r0 :: rs)))
    with (transform m (decode_position off r0)
          :: map (transform m) (map (decode_position off) rs)).
  rewrite aabb_absorbs; [reflexivity|].
  change (transform m (decode_position off r0)
          :: map (transform m) (map (decode_position off) rs))
    with (map (transform m) (map (decode_position off) (r0 :: rs))).
  now do 2 apply in_map.
Qed.

Lemma duplicate_record_absorbed_witness :
  outputs (call (Some (packed [vz 0 0 0; vz 1 2 3; vz (-1) 5 0; vz 1 2 3]))
             4 12 0 (Some identity) junk junk)
  = outputs (call (Some spec_example) 3 12 0 (Some identity) junk junk).
Proof.
  apply (duplicate_record_absorbed 12 0 (Some identity)
           [pos_bytes (vz 0 0 0); pos_bytes (vz 1 2 3);
            pos_bytes (vz (-1) 5 0)] (pos_bytes (vz 1 2 3))
           junk junk junk junk).
  - split; [lia|]. split; [lia|]. split.
    + repeat constructor.
    + vm_compute. discriminate.
  - right. left. reflexivity.
Defined.

Lemma lower_self (v : float) : lower v v = v.
Proof. unfold lower. now destruct (F32.ltb v v). Qed.

Lemma upper_self (v : float) : upper v v = v.
Proof. unfold upper. now destruct (F32.gtb v v). Qed.

Lemma widen_same (t : vec3) (ts : list vec3) :
  Forall (eq t) ts -> fold_left widen ts (seed t) = seed t.
Proof.
  intros F. induction F as [|u ts <- F IH]; [reflexivity|].
  cbn [fold_left]. replace (widen (seed t) t) with (seed t); [exact IH|].
  unfold widen, seed. cbn. now rewrite !lower_self, !upper_self.
Qed.

Lemma record_position_stride0 (buf : list byte) (off i : Z) :
  record_position buf 0 off i = record_position buf 0 off 0.
Proof.
  unfold record_position, address. now rewrite Z.mul_0_r.
Qed.

(** X7. With [stride_bytes = 0] every round reads the same twelve
    bytes, and both outputs are the transformed position found at
    [position_offset], whatever [vertex_count > 0] is. *)
Theorem zero_stride_collapses (buf : list byte) (n off : Z)
  (matrix : option (list float)) (omin omax : vec3) (s : machine) :
  0 < n ->
  call (Some buf) n 0 off matrix omin omax = Some s ->
  exists t,
    transformed buf 0 off matrix 0 = Some t /\
    out_min s = t /\ out_max s = t.
Proof.
  intros Hn Hs.
  destruct (call_nonempty _ _ _ _ _ _ _ _ Hn Hs)
    as (m & p0 & ps & Hm & G & Emin & Emax).
  pose proof (gather_nth _ _ _ _ _ _ G) as Nth.
  pose proof (gather_length _ _ _ _ _ _ G) as Len.
  assert (P0 : record_position buf 0 off 0 = Some p0).
  { pose proof (Nth 0%nat ltac:(lia)) as R. simpl in R. exact R. }
  assert (F : Forall (eq (transform m p0)) (map (transform m) ps)).
  { apply Forall_forall. intros t Ht. apply in_map_iff in Ht.
    destruct Ht as (p & <- & Hp). f_equal.
    destruct (In_nth_error _ _ Hp) as [j Hj].
    assert (S j < Z.to_nat n)%nat.
    { rewrite <- Len. simpl. apply -> Nat.succ_lt_mono.
      apply nth_error_Some. congruence. }
    pose proof (Nth (S j) ltac:(lia)) as R. cbn [nth_error] in R.
    rewrite record_position_stride0, P0, Hj in R. now injection R. }
  exists (transform m p0). split.
  - unfold transformed. now rewrite Hm, P0.
  - rewrite Emin, Emax. cbn [map aabb]. rewrite (widen_same _ _ F).
    apply corner_seed.
Qed.

Lemma zero_stride_collapses_witness :
  exists s,
    call (Some spec_example) 1000 0 12 (Some identity) junk junk = Some s /\
    out_min s = vz 1 2 3 /\ out_max s = vz 1 2 3.
Proof.
  assert (R : exists s,
             call (Some spec_example) 1000 0 12 (Some identity) junk junk
             = Some s) by (eexists; vm_compute; reflexivity).
  destruct R as [s Hs]. exists s. split; [exact Hs|].
  destruct (zero_stride_collapses spec_example 1000 12 (Some identity)
              junk junk s ltac:(lia) Hs) as (t & Ht & Emin & Emax).
  vm_compute in Ht. injection Ht as <-. rewrite Emin, Emax.
  split; reflexivity.
Defined.


(** * What is read, and when *)

Lemma load_f32_ext (buf buf' : list byte) (o : Z) :
  (0 <= o -> forall j, o <= j < o + 4 ->
     nth_error buf (Z.to_nat j) = nth_error buf' (Z.to_nat j)) ->
  load_f32 buf o = load_f32 buf' o.
Proof.
  intros H. unfold load_f32.
  destruct (Z.leb_spec 0 o) as [H0|H0]; [|reflexivity].
  specialize (H H0).
  assert (L : (o + 4 <=? Z.of_nat (length buf))
              = (o + 4 <=? Z.of_nat (length buf'))).
  { pose proof (H (o + 3) ltac:(lia)) as E.
    destruct (Z.leb_spec (o + 4) (Z.of_nat (length buf))) as [A|A];
    destruct (Z.leb_spec (o + 4) (Z.of_nat (length buf'))) as [B|B];
      try reflexivity; exfalso.
    - assert (N : nth_error buf' (Z.to_nat (o + 3)) = None)
        by (apply nth_error_None; lia).
      rewrite <- E in N. apply nth_error_None in N. lia.
    - assert (N : nth_error buf (Z.to_nat (o + 3)) = None)
        by (apply nth_error_None; lia).
      rewrite E in N. apply nth_error_None in N. lia. }
  rewrite L. cbn [andb].
  replace (firstn 4 (skipn (Z.to_nat o) buf))
    with (firstn 4 (skipn (Z.to_nat o) buf')); [reflexivity|].
  apply nth_error_ext. intros k.
  rewrite !nth_error_firstn, !nth_error_skipn.
  destruct (Nat.ltb_spec k 4); [|reflexivity].
  pose proof (H (o + Z.of_nat k) ltac:(lia)) as E.
  replace (Z.to_nat (o + Z.of_nat k)) with (Z.to_nat o + k)%nat in E by lia.
  now rewrite E.
Qed.

Lemma position_at_ext (buf buf' : list byte) (o : Z) :
  (0 <= o -> forall j, o <= j < o + 12 ->
     nth_error buf (Z.to_nat j) = nth_error buf' (Z.to_nat j)) ->
  position_at buf o = position_at buf' o.
Proof.
  intros H. unfold position_at.
  destruct (Z_lt_le_dec o 0) as [N|N].
  - (* a negative offset fails at the first load *)
    assert (E : forall l : list byte, load_f32 l o = None).
    { intros l. unfold load_f32.
      now replace (0 <=? o) with false by (symmetry; apply Z.leb_gt; lia). }
    now rewrite !E.
  - specialize (H N).
    rewrite (load_f32_ext buf buf' o),
      (load_f32_ext buf buf' (o + 4)), (load_f32_ext buf buf' (o + 8));
      [reflexivity|..]; intros _ j Hj; apply H; lia.
Qed.

Lemma gather_ext (buf buf' : list byte) (st off : Z) (n : nat) :
  forall i0,
  (forall j : nat, (j < n)%nat ->
     record_position buf st off (i0 + Z.of_nat j)
     = record_position buf' st off (i0 + Z.of_nat j)) ->
  gather n buf st off i0 = gather n buf' st off i0.
Proof.
  induction n as [|n IH]; intros i0 H; [reflexivity|].
  cbn [gather].
  pose proof (H 0%nat ltac:(lia)) as E0. rewrite Z.add_0_r in E0.
  rewrite E0, (IH (i0 + 1)); [reflexivity|].
  intros j Hj. pose proof (H (S j) ltac:(lia)) as E.
  now replace (i0 + Z.of_nat (S j)) with (i0 + 1 + Z.of_nat j) in E by lia.
Qed.

(** X8. The call depends on the vertex buffer only through the twelve
    position bytes of records [0 .. vertex_count - 1]: two buffers that
    agree on these bytes give the same result, outputs and log, or are
    both undefined. *)
Theorem bytes_outside_positions_unread (buf buf' : list byte) (n st off : Z)
  (matrix : option (list float)) (omin omax : vec3) :
  same_position_bytes buf buf' n st off ->
  call (Some buf) n st off matrix omin omax
  = call (Some buf') n st off matrix omin omax.
Proof.
  intros H. rewrite !call_spec.
  destruct (Z.leb_spec n 0) as [Hn|Hn]; [reflexivity|].
  rewrite (gather_ext buf buf' st off (Z.to_nat n) 0); [reflexivity|].
  intros j Hj. unfold record_position.
  destruct (address st off (0 + Z.of_nat j)) as [o|] eqn:Ea; [|reflexivity].
  apply position_at_ext. intros H0 i Hi.
  apply (H (0 + Z.of_nat j) o i); auto. lia.
Qed.

Lemma bytes_outside_positions_unread_witness :
  let buf := [x01; x02; x03; x04] ++ pos_bytes (vz 1 2 3) ++ [xff; xff] in
  let buf' := [x00; x00; x00; x00] ++ pos_bytes (vz 1 2 3) ++ [x07] in
  same_position_bytes buf buf' 1 18 4 /\
  call (Some buf) 1 18 4 (Some identity) junk junk
  = call (Some buf') 1 18 4 (Some identity) junk junk.
Proof.
  intros buf buf'.
  assert (S : same_position_bytes buf buf' 1 18 4).
  { intros i o j Hi Ha Ho Hj.
    assert (i = 0) by lia. subst i. vm_compute in Ha. injection Ha as <-.
    assert (C : j = 4 \/ j = 5 \/ j = 6 \/ j = 7 \/ j = 8 \/ j = 9 \/
                j = 10 \/ j = 11 \/ j = 12 \/ j = 13 \/ j = 14 \/ j = 15)
      by lia.
    repeat (destruct C as [->|C]; [reflexivity|]). subst j. reflexivity. }
  split; [exact S|].
  exact (bytes_outside_positions_unread buf buf' 1 18 4 (Some identity)
           junk junk S).
Defined.

Lemma vertex_log_length (n : nat) (st off : Z) :
  forall i, length (vertex_log n st off i) = (3 * n)%nat.
Proof.
  induction n as [|n IH]; intros i; [reflexivity|].
  cbn [vertex_log]. rewrite length_app, IH. simpl. lia.
Qed.

(** X9. In every call that returns, all loads come before all stores.
    The log, newest first, is six stores followed by the loads: none in the
    degenerate case, otherwise twelve from the matrix and three for each
    record. *)
Theorem loads_before_stores (vertices : option (list byte)) (n st off : Z)
  (matrix : option (list float)) (omin omax : vec3) (s : machine) :
  call vertices n st off matrix omin omax = Some s ->
  exists stores loads,
    log s = stores ++ loads /\
    Forall (fun e => is_read e = false) stores /\
    Forall (fun e => is_read e = true) loads /\
    length stores = 6%nat /\
    length loads
    = if degenerate vertices n then 0%nat
      else (12 + 3 * Z.to_nat n)%nat.
Proof.
  intros H. rewrite call_spec in H.
  assert (D : degenerate vertices n = true ->
              Some (mkmachine zero3 zero3 zero_log) = Some s ->
              exists stores loads,
                log s = stores ++ loads /\
                Forall (fun e => is_read e = false) stores /\
                Forall (fun e => is_read e = true) loads /\
                length stores = 6%nat /\
                length loads
                = if degenerate vertices n then 0%nat
                  else (12 + 3 * Z.to_nat n)%nat).
  { intros Dg E. injection E as <-. rewrite Dg.
    exists zero_log, []. cbn [log]. rewrite app_nil_r.
    repeat split; repeat constructor. }
  destruct vertices as [buf|]; [|now apply D].
  destruct (n <=? 0) eqn:En; [now apply D|].
  destruct (coeffs_of matrix) as [m|]; [|discriminate].
  destruct (gather (Z.to_nat n) buf st off 0) as [ps|]; [|discriminate].
  injection H as <-. cbn [degenerate log]. rewrite En.
  exists store_log, (vertex_log (Z.to_nat n) st off 0 ++ matrix_log).
  split; [reflexivity|]. split; [repeat constructor|]. split.
  - apply Forall_app. split.
    + apply Forall_forall. intros e He. apply vertex_log_reads in He.
      now destruct He as [o ->].
    + repeat constructor.
  - split; [reflexivity|].
    rewrite length_app, vertex_log_length. simpl. lia.
Qed.

Lemma loads_before_stores_witness :
  exists s stores loads,
    call (Some spec_example) 3 12 0 (Some identity) junk junk = Some s /\
    log s = stores ++ loads /\
    length stores = 6%nat /\ length loads = 21%nat.
Proof.
  assert (R : exists s,
             call (Some spec_example) 3 12 0 (Some identity) junk junk
             = Some s) by (eexists; vm_compute; reflexivity).
  destruct R as [s Hs].
  destruct (loads_before_stores (Some spec_example) 3 12 0 (Some identity)
              junk junk s Hs) as (stores & loads & E & _ & _ & L1 & L2).
  exists s, stores, loads. auto.
Defined.


(** * Two buffers laid end to end *)

Lemma no_nan_app (l l' : list float) :
  no_nan (l ++ l') -> no_nan l /\ no_nan l'.
Proof.
  intros N. split; intros u Hu; apply N; apply in_or_app; auto.
Qed.

Lemma lower_is_min (a b : float) (l l' : list float) :
  is_min_of a l -> is_min_of b l' ->
  F32.is_nan a = false -> F32.is_nan b = false ->
  is_min_of (lower b a) (l ++ l').
Proof.
  intros [Ia La] [Ib Lb] Na Nb. unfold lower.
  destruct (F32.ltb b a) eqn:E; split.
  - apply in_or_app. now right.
  - intros u Hu. apply in_app_or in Hu. destruct Hu as [Hu|Hu].
    + apply (leb_trans _ a); [now apply ltb_leb | now apply La].
    + now apply Lb.
  - apply in_or_app. now left.
  - intros u Hu. apply in_app_or in Hu. destruct Hu as [Hu|Hu].
    + now apply La.
    + apply (leb_trans _ b); [now apply not_ltb_leb | now apply Lb].
Qed.

Lemma upper_is_max (a b : float) (l l' : list float) :
  is_max_of a l -> is_max_of b l' ->
  F32.is_nan a = false -> F32.is_nan b = false ->
  is_max_of (upper b a) (l ++ l').
Proof.
  intros [Ia La] [Ib Lb] Na Nb. unfold upper.
  destruct (F32.gtb b a) eqn:E; split.
  - apply in_or_app. now right.
  - intros u Hu. apply in_app_or in Hu. destruct Hu as [Hu|Hu].
    + apply (leb_trans _ a); [now apply La | now apply gtb_leb].
    + now apply Lb.
  - apply in_or_app. now left.
  - intros u Hu. apply in_app_or in Hu. destruct Hu as [Hu|Hu].
    + now apply La.
    + apply (leb_trans _ b); [now apply Lb | now apply not_gtb_leb].
Qed.

Lemma aabb_merge (k : axis) (ts1 ts2 : list vec3) :
  ts1 <> [] -> ts2 <> [] ->
  no_nan (map (coord k) (ts1 ++ ts2)) ->
  F32.eqb (lo k (aabb (ts1 ++ ts2)))
    (lower (lo k (aabb ts2)) (lo k (aabb ts1))) = true /\
  F32.eqb (hi k (aabb (ts1 ++ ts2)))
    (upper (hi k (aabb ts2)) (hi k (aabb ts1))) = true.
Proof.
  intros NE1 NE2 NN.
  destruct ts1 as [|a ts1]; [congruence|].
  destruct ts2 as [|b ts2]; [congruence|].
  destruct (aabb_extremes k a (ts1 ++ b :: ts2) NN) as [Mn Mx].
  rewrite map_app in NN. destruct (no_nan_app _ _ NN) as [N1 N2].
  destruct (aabb_extremes k a ts1 N1) as [Mn1 Mx1].
  destruct (aabb_extremes k b ts2 N2) as [Mn2 Mx2].
  change (a :: ts1 ++ b :: ts2) with ((a :: ts1) ++ b :: ts2) in Mn, Mx.
  rewrite map_app in Mn, Mx.
  split.
  - eapply min_of_permutation;
      [apply Permutation_refl | exact Mn |].
    apply lower_is_min; auto; [apply N1, Mn1 | apply N2, Mn2].
  - eapply max_of_permutation;
      [apply Permutation_refl | exact Mx |].
    apply upper_is_max; auto; [apply N1, Mx1 | apply N2, Mx2].
Qed.

(** X10. The box of two buffers laid end to end is the merge of their
    boxes: on an axis without NaN, [out_min] of the whole compares equal to
    the lesser of the two [out_min], and [out_max] to the greater of the
    two [out_max]; the three calls all return. *)
Theorem concatenation_merges_boxes (st off : Z)
  (matrix : option (list float)) (recs1 recs2 : list (list byte))
  (ts : list vec3) (omin omax : vec3) (k : axis) :
  well_formed st off (recs1 ++ recs2) ->
  recs1 <> [] -> recs2 <> [] ->
  transformed_all (concat (recs1 ++ recs2))
    (Z.of_nat (length (recs1 ++ recs2))) st off matrix = Some ts ->
  no_nan (map (coord k) ts) ->
  exists s1 s2 s12,
    call (Some (concat recs1)) (Z.of_nat (length recs1)) st off matrix
      omin omax = Some s1 /\
    call (Some (concat recs2)) (Z.of_nat (length recs2)) st off matrix
      omin omax = Some s2 /\
    call (Some (concat (recs1 ++ recs2)))
      (Z.of_nat (length (recs1 ++ recs2))) st off matrix omin omax
    = Some s12 /\
    F32.eqb (coord k (out_min s12))
      (lower (coord k (out_min s2)) (coord k (out_min s1))) = true /\
    F32.eqb (coord k (out_max s12))
      (upper (coord k (out_max s2)) (coord k (out_max s1))) = true.
Proof.
  intros WF NE1 NE2 TA NN.
  destruct (well_formed_app _ _ _ _ WF) as [WF1 WF2].
  unfold transformed_all in TA. rewrite !call_spec.
  destruct (coeffs_of matrix) as [m|]; [|discriminate].
  rewrite (gather_concat st off _ (recs1 ++ recs2) WF eq_refl) in *.
  rewrite (gather_concat st off _ recs1 WF1 eq_refl).
  rewrite (gather_concat st off _ recs2 WF2 eq_refl).
  injection TA as <-.
  assert (L1 : 0 < Z.of_nat (length recs1))
    by (destruct recs1; [congruence|simpl; lia]).
  assert (L2 : 0 < Z.of_nat (length recs2))
    by (destruct recs2; [congruence|simpl; lia]).
  replace (Z.of_nat (length (recs1 ++ recs2)) <=? 0) with false
    by (symmetry; apply Z.leb_gt; rewrite length_app; lia).
  replace (Z.of_nat (length recs1) <=? 0) with false
    by (symmetry; apply Z.leb_gt; lia).
  replace (Z.of_nat (length recs2) <=? 0) with false
    by (symmetry; apply Z.leb_gt; lia).
  do 3 eexists. split; [reflexivity|]. split; [reflexivity|].
  split; [reflexivity|].
  cbv zeta. cbn [out_min out_max].
  rewrite !coord_lo_corner, !coord_hi_corner.
  rewrite !map_app in *.
  apply aabb_merge.
  - destruct recs1; [congruence|discriminate].
  - destruct recs2; [congruence|discriminate].
  - now rewrite map_app.
Qed.

Lemma concatenation_merges_boxes_witness :
  exists s1 s2 s12,
    call (Some (packed [vz 0 0 0; vz 1 2 3])) 2 12 0 (Some identity)
      junk junk = Some s1 /\
    call (Some (packed [vz (-1) 5 0])) 1 12 0 (Some identity)
      junk junk = Some s2 /\
    call (Some spec_example) 3 12 0 (Some identity) junk junk = Some s12 /\
    F32.eqb (coord AX (out_min s12))
      (lower (coord AX (out_min s2)) (coord AX (out_min s1))) = true /\
    F32.eqb (coord AX (out_max s12))
      (upper (coord AX (out_max s2)) (coord AX (out_max s1))) = true.
Proof.
  refine (concatenation_merges_boxes 12 0 (Some identity)
            [pos_bytes (vz 0 0 0); pos_bytes (vz 1 2 3)]
            [pos_bytes (vz (-1) 5 0)]
            [vz 0 0 0; vz 1 2 3; vz (-1) 5 0] junk junk AX _ _ _ _ _).
  - split; [lia|]. split; [lia|]. split.
    + repeat constructor.
    + vm_compute. discriminate.
  - discriminate.
  - discriminate.
  - vm_compute. reflexivity.
  - intros u Hu. simpl in Hu. destruct Hu as [<-|[<-|[<-|[]]]]; reflexivity.
Defined.


(** * The identity matrix *)

Lemma add_zero_key_r (x z : float) :
  F32.is_finite x = true -> is_zero z = true ->
  F32.is_finite (F32.add x z) = true /\ key (F32.add x z) = key x.
Proof.
  intros H Z. destruct z as [sz| | |]; try discriminate Z.
  destruct x as [s|s| |s m e]; try discriminate H.
  - now destruct s, sz.
  - split; reflexivity.
Qed.

Lemma add_zero_key_l (z x : float) :
  is_zero z = true -> F32.is_finite x = true ->
  F32.is_finite (F32.add z x) = true /\ key (F32.add z x) = key x.
Proof.
  intros Z H. destruct z as [sz| | |]; try discriminate Z.
  destruct x as [s|s| |s m e]; try discriminate H.
  - now destruct s, sz.
  - split; reflexivity.
Qed.

Lemma zero_key (z : float) : is_zero z = true -> key z = (0, 0, 0).
Proof. now destruct z. Qed.

(** Under the identity matrix a finite coordinate comes out with the same
    key: unchanged, or a zero whose sign may have become positive. *)
Lemma identity_key (k : axis) (p : vec3) :
  (forall j, finite_valid (coord j p) = true) ->
  F32.is_nan (coord k (transform (translation_coeffs zero3) p)) = false /\
  key (coord k (transform (translation_coeffs zero3) p)) = key (coord k p).
Proof.
  intros H. rewrite coord_translation.
  replace (coord k zero3) with F32.zero by now destruct k.
  pose proof (base_finite_valid k p H) as B.
  destruct (add_plus_zero_key (base k p) (finite_valid_finite _ B))
    as [F K].
  split; [now apply finite_not_nan|]. rewrite K. clear F K B.
  pose proof (H AX) as Hx. pose proof (H AY) as Hy. pose proof (H AZ) as Hz.
  cbn [coord] in Hx, Hy, Hz.
  pose proof (mul_zero _ (finite_valid_finite _ Hx)) as Zx.
  pose proof (mul_zero _ (finite_valid_finite _ Hy)) as Zy.
  pose proof (mul_zero _ (finite_valid_finite _ Hz)) as Zz.
  pose proof (finite_valid_finite _ Hx) as Fx.
  pose proof (finite_valid_finite _ Hy) as Fy.
  pose proof (finite_valid_finite _ Hz) as Fz.
  destruct k; cbn [base coord]; rewrite mul_one by assumption.
  - destruct (add_zero_key_r _ _ Fx Zy) as [F1 K1].
    destruct (add_zero_key_r _ _ F1 Zz) as [_ K2]. congruence.
  - destruct (add_zero_key_l _ _ Zx Fy) as [F1 K1].
    destruct (add_zero_key_r _ _ F1 Zz) as [_ K2]. congruence.
  - pose proof (add_zeros _ _ Zx Zy) as Z1.
    destruct (add_zero_key_l _ _ Z1 Fz) as [_ K]. exact K.
Qed.

Lemma keq_of_eq (a b : float) : key a = key b -> keq (key a) (key b).
Proof.
  intros E. rewrite E. destruct (key b) as [[x y] z]. simpl. auto.
Qed.

(** X11. With the identity matrix and finite positions the result is the
    box of the raw positions: on each axis [out_min] and [out_max] compare
    equal to the coordinate of some record, and every record's raw
    coordinate lies between them. *)
Theorem identity_box_is_raw_box (buf : list byte) (n st off : Z)
  (omin omax : vec3) (s : machine) (k : axis) :
  0 < n ->
  (forall i p, 0 <= i < n -> record_position buf st off i = Some p ->
               finite3 p = true) ->
  call (Some buf) n st off (Some identity) omin omax = Some s ->
  (exists i p, 0 <= i < n /\ record_position buf st off i = Some p /\
               F32.eqb (coord k (out_min s)) (coord k p) = true) /\
  (exists i p, 0 <= i < n /\ record_position buf st off i = Some p /\
               F32.eqb (coord k (out_max s)) (coord k p) = true) /\
  (forall i p, 0 <= i < n -> record_position buf st off i = Some p ->
     F32.leb (coord k (out_min s)) (coord k p) = true /\
     F32.leb (coord k p) (coord k (out_max s)) = true).
Proof.
  intros Hn Fin Hs.
  destruct (call_nonempty _ _ _ _ _ _ _ _ Hn Hs)
    as (m & p0 & ps & Hm & G & Emin & Emax).
  change (coeffs_of (Some identity)) with (Some (translation_coeffs zero3))
    in Hm.
  injection Hm as <-.
  pose proof (gathered_finite_valid buf n st off (p0 :: ps) G Fin) as FV.
  pose proof (gather_nth _ _ _ _ _ _ G) as Nth.
  pose proof (gather_length _ _ _ _ _ _ G) as Len.
  set (T := transform (translation_coeffs zero3)) in *.
  assert (NN : no_nan (map (coord k) (T p0 :: map T ps))).
  { change (T p0 :: map T ps) with (map T (p0 :: ps)).
    intros u Hu. apply in_map_iff in Hu. destruct Hu as (t & <- & Ht).
    apply in_map_iff in Ht. destruct Ht as (p & <- & Hp).
    now apply identity_key, FV. }
  destruct (aabb_extremes k (T p0) (map T ps) NN) as [[Ilo Llo] [Ihi Lhi]].
  rewrite Emin, Emax, coord_lo_corner, coord_hi_corner. cbn [map].
  assert (Back : forall u, In u (map (coord k) (T p0 :: map T ps)) ->
            exists i p, 0 <= i < n /\
              record_position buf st off i = Some p /\ u = coord k (T p)).
  { intros u Hu. change (T p0 :: map T ps) with (map T (p0 :: ps)) in Hu.
    apply in_map_iff in Hu. destruct Hu as (t & <- & Ht).
    apply in_map_iff in Ht. destruct Ht as (p & <- & Hp).
    destruct (In_nth_error _ _ Hp) as [j Hj].
    assert (j < Z.to_nat n)%nat
      by (rewrite <- Len; apply nth_error_Some; congruence).
    exists (Z.of_nat j), p. split; [lia|]. split; [|reflexivity].
    pose proof (Nth j ltac:(lia)) as R. simpl in R. congruence. }
  assert (Fwd : forall i p, 0 <= i < n ->
            record_position buf st off i = Some p -> In p (p0 :: ps)).
  { intros i p Hi Hp. pose proof (Nth (Z.to_nat i) ltac:(lia)) as R.
    rewrite Z2Nat.id in R by lia. simpl in R. rewrite Hp in R.
    symmetry in R. eapply nth_error_In, R. }
  split; [|split].
  - destruct (Back _ Ilo) as (i & p & Hi & Hp & E).
    exists i, p. split; [exact Hi|]. split; [exact Hp|].
    destruct (identity_key k p (FV p (Fwd i p Hi Hp))) as [N K].
    fold T in N, K. rewrite E. apply eqb_iff.
    split; [exact N|]. split; [|now apply keq_of_eq].
    now apply finite_valid_not_nan, FV, (Fwd i).
  - destruct (Back _ Ihi) as (i & p & Hi & Hp & E).
    exists i, p. split; [exact Hi|]. split; [exact Hp|].
    destruct (identity_key k p (FV p (Fwd i p Hi Hp))) as [N K].
    fold T in N, K. rewrite E. apply eqb_iff.
    split; [exact N|]. split; [|now apply keq_of_eq].
    now apply finite_valid_not_nan, FV, (Fwd i).
  - intros i p Hi Hp.
    pose proof (Fwd i p Hi Hp) as Hin.
    destruct (identity_key k p (FV p Hin)) as [N K]. fold T in N, K.
    assert (Np : F32.is_nan (coord k p) = false)
      by now apply finite_valid_not_nan, FV.
    assert (InT : In (coord k (T p)) (map (coord k) (T p0 :: map T ps))).
    { change (T p0 :: map T ps) with (map T (p0 :: ps)).
      now do 2 apply in_map. }
    split.
    + eapply (leb_of_keys _ (coord k (T p))); [| | reflexivity | |];
        [apply NN, Ilo | exact Np | now symmetry | now apply Llo].
    + eapply (leb_of_keys (coord k (T p)) _); [| | | reflexivity |];
        [exact Np | apply NN, Ihi | now symmetry | now apply Lhi].
Qed.

Lemma identity_box_is_raw_box_witness :
  exists s,
    call (Some spec_example) 3 12 0 (Some identity) junk junk = Some s /\
    (forall i p, 0 <= i < 3 ->
       record_position spec_example 12 0 i = Some p ->
       F32.leb (coord AY (out_min s)) (coord AY p) = true /\
       F32.leb (coord AY p) (coord AY (out_max s)) = true).
Proof.
  assert (R : exists s,
             call (Some spec_example) 3 12 0 (Some identity) junk junk
             = Some s) by (eexists; vm_compute; reflexivity).
  destruct R as [s Hs]. exists s. split; [exact Hs|].
  apply (identity_box_is_raw_box spec_example 3 12 0 junk junk s AY).
  - lia.
  - intros i p Hi Hp.
    assert (C : i = 0 \/ i = 1 \/ i = 2) by lia.
    destruct C as [->|[->| ->]];
      vm_compute in Hp; injection Hp as <-; reflexivity.
  - exact Hs.
Defined.


(** * The integer conversion macros *)

Lemma to_unsigned_id (bits x : Z) :
  0 <= x < 2 ^ bits -> to_unsigned bits x = x.
Proof. intros H. unfold to_unsigned. now apply Z.mod_small. Qed.

Lemma to_signed_id (bits x : Z) :
  0 < bits -> - 2 ^ (bits - 1) <= x < 2 ^ (bits - 1) -> to_signed bits x = x.
Proof.
  intros Hb H. unfold to_signed.
  assert (E : 2 ^ bits = 2 * 2 ^ (bits - 1)).
  { replace bits with (1 + (bits - 1)) at 1 by lia.
    rewrite Z.pow_add_r by lia. reflexivity. }
  rewrite Z.mod_small by lia. lia.
Qed.

(** X12. [_cffi_from_c_int_const] loses nothing: for a [long] of 32 or
    64 bits and every value from [-2^63] to [2^64 - 1], the constructor the
    macro picks receives exactly that value after the casts. *)
Theorem from_c_int_const_exact (long_bits x : Z) :
  long_bits = 32 \/ long_bits = 64 ->
  - 2 ^ 63 <= x < 2 ^ 64 ->
  py_value (cffi_from_c_int_const long_bits x) = x.
Proof.
  intros HL Hx. unfold cffi_from_c_int_const. cbv zeta.
  assert (P : 2 ^ (long_bits - 1) = 2147483648 \/
              2 ^ (long_bits - 1) = 9223372036854775808)
    by (destruct HL as [-> | ->]; [left|right]; reflexivity).
  change (2 ^ 63) with 9223372036854775808 in Hx.
  change (2 ^ 64) with 18446744073709551616 in Hx.
  destruct (Z.gtb_spec x 0) as [Hp|Hn].
  - rewrite (to_unsigned_id 64 x) by (change (2 ^ 64) with 18446744073709551616; lia).
    rewrite (to_unsigned_id 64 (2 ^ (long_bits - 1) - 1))
      by (change (2 ^ 64) with 18446744073709551616; lia).
    destruct (Z.leb_spec x (2 ^ (long_bits - 1) - 1)); cbn [py_value].
    + apply to_signed_id; lia.
    + reflexivity.
  - rewrite (to_signed_id 64 x)
      by (change (2 ^ (64 - 1)) with 9223372036854775808; lia).
    rewrite (to_signed_id 64 (- 2 ^ (long_bits - 1)))
      by (change (2 ^ (64 - 1)) with 9223372036854775808; lia).
    destruct (Z.geb_spec x (- 2 ^ (long_bits - 1))); cbn [py_value].
    + apply to_signed_id; lia.
    + reflexivity.
Qed.

Lemma from_c_int_const_exact_witness :
  py_value (cffi_from_c_int_const 32 4294967296) = 4294967296 /\
  py_value (cffi_from_c_int_const 64 (-5)) = -5.
Proof.
  split.
  - apply (from_c_int_const_exact 32 4294967296); [now left|].
    split; [discriminate|reflexivity].
  - apply (from_c_int_const_exact 64 (-5)); [now right|].
    split; [discriminate|reflexivity].
Defined.

(** X13. [_cffi_from_c_int] loses nothing: for a [long] of 4 or 8 bytes
    and an integer type of 1, 2, 4 or 8 bytes, signed or unsigned, every
    value of the type reaches the constructor the macro picks unchanged. *)
Theorem from_c_int_exact (long_size size : Z) (unsigned : bool) (x : Z) :
  long_size = 4 \/ long_size = 8 ->
  size = 1 \/ size = 2 \/ size = 4 \/ size = 8 ->
  in_type size unsigned x ->
  py_value (cffi_from_c_int long_size size unsigned x) = x.
Proof.
  intros HL HS Hx. unfold cffi_from_c_int, in_type, to_type in *.
  destruct HL as [-> | ->];
  destruct HS as [-> | [-> | [-> | ->]]];
  destruct unsigned; cbn [py_value];
    repeat match goal with
           | |- context [if ?c then _ else _] =>
               let b := eval vm_compute in c in
               change c with b; cbv iota
           end;
    cbn [py_value];
    first [ apply to_signed_id | apply to_unsigned_id ];
    change (8 * 1) with 8 in *; change (8 * 2) with 16 in *;
    change (8 * 4) with 32 in *; change (8 * 8) with 64 in *;
    cbn in *; lia.
Qed.

Lemma from_c_int_exact_witness :
  in_type 4 false (-2147483648) /\
  py_value (cffi_from_c_int 8 4 false (-2147483648)) = -2147483648.
Proof.
  assert (H : in_type 4 false (-2147483648))
    by (split; [discriminate|reflexivity]).
  split; [exact H|].
  apply (from_c_int_exact 8 4 false (-2147483648)); auto.
Defined.


(** * The blocks of large arguments *)

Lemma heap_get_del_same (h : heap) (a : addr) :
  heap_get (heap_del h a) a = None.
Proof.
  induction h as [|[b nx] h IH]; simpl; [reflexivity|].
  destruct (Nat.eqb b a) eqn:E; simpl; [exact IH|].
  rewrite Nat.eqb_sym, E. exact IH.
Qed.

Lemma heap_get_del_other (h : heap) (a b : addr) :
  a <> b -> heap_get (heap_del h a) b = heap_get h b.
Proof.
  intros N. induction h as [|[c nx] h IH]; simpl; [reflexivity|].
  destruct (Nat.eqb c a) eqn:E; simpl.
  - apply Nat.eqb_eq in E. subst c.
    destruct (Nat.eqb b a) eqn:E'; [|exact IH].
    apply Nat.eqb_eq in E'. congruence.
  - now rewrite IH.
Qed.

Lemma heap_del_fresh (h : heap) (a : addr) :
  heap_get h a = None -> heap_del h a = h.
Proof.
  induction h as [|[b nx] h IH]; simpl; [reflexivity|].
  destruct (Nat.eqb a b) eqn:E; [discriminate|]. intros H.
  rewrite Nat.eqb_sym, E. simpl. now rewrite IH.
Qed.

Lemma heap_del_shrinks (h : heap) (a : addr) (nx : option addr) :
  heap_get h a = Some nx -> (length (heap_del h a) < length h)%nat.
Proof.
  unfold heap_del.
  induction h as [|[b n] h IH]; simpl; [discriminate|].
  destruct (Nat.eqb a b) eqn:E.
  - intros _. rewrite Nat.eqb_sym, E. simpl.
    apply Nat.lt_succ_r. apply filter_length_le.
  - intros H. rewrite Nat.eqb_sym, E. simpl. apply IH in H.
    apply -> Nat.succ_lt_mono. exact H.
Qed.

Lemma chain_allocated (h : heap) (fm : option addr) (l : list addr) :
  chain h fm l -> forall a, In a l -> exists nx, heap_get h a = Some nx.
Proof.
  induction 1 as [|a nx l G N C IH]; intros b I; [destruct I|].
  destruct I as [<-|I]; [now exists nx | now apply IH].
Qed.

Lemma chain_ext (h h' : heap) (fm : option addr) (l : list addr) :
  chain h fm l -> (forall a, In a l -> heap_get h' a = heap_get h a) ->
  chain h' fm l.
Proof.
  induction 1 as [|a nx l G N C IH]; intros E; [constructor|].
  apply chain_cons with (nx := nx).
  - rewrite E by now left. exact G.
  - exact N.
  - apply IH. intros b I. apply E. now right.
Qed.

Lemma chain_del (h : heap) (a : addr) (fm : option addr) (l : list addr) :
  chain h fm l -> ~ In a l -> chain (heap_del h a) fm l.
Proof.
  intros C N. apply chain_ext with (1 := C). intros b I.
  apply heap_get_del_other. intros ->. now apply N.
Qed.

Lemma chain_undel (h : heap) (a : addr) (fm : option addr) (l : list addr) :
  chain (heap_del h a) fm l -> chain h fm l /\ ~ In a l.
Proof.
  intros C.
  assert (N : ~ In a l).
  { intros I. destruct (chain_allocated _ _ _ C a I) as [nx G].
    rewrite heap_get_del_same in G. discriminate. }
  split; [|exact N].
  apply chain_ext with (1 := C). intros b I. symmetry.
  apply heap_get_del_other. intros ->. now apply N.
Qed.

Lemma chain_null (h : heap) (l : list addr) : chain h None l -> l = [].
Proof. now inversion 1. Qed.

Lemma chain_head (h : heap) (a : addr) (l : list addr) :
  chain h (Some a) l ->
  exists nx l', l = a :: l' /\ heap_get h a = Some nx /\ ~ In a l'
                /\ chain h nx l'.
Proof. inversion 1; subst. now exists nx, l0. Qed.

Lemma free_loop_fuel (fuel : nat) (fm : option addr) (h : heap) :
  (length h < fuel)%nat -> free_loop fuel fm h <> OutOfFuel.
Proof.
  revert fm h. induction fuel as [|fuel IH]; intros fm h L; [lia|].
  simpl. destruct fm as [p|]; [|discriminate].
  destruct (heap_get h p) as [nx|] eqn:G; [|discriminate].
  destruct nx as [b|]; [|discriminate].
  apply IH. apply heap_del_shrinks in G. lia.
Qed.

Lemma free_loop_chain (fuel : nat) (a : addr) (l : list addr) (h : heap) :
  chain h (Some a) l ->
  free_loop fuel (Some a) h = Done (heap_without h l)
  \/ free_loop fuel (Some a) h = OutOfFuel.
Proof.
  revert a l h. induction fuel as [|fuel IH]; intros a l h C; [now right|].
  destruct (chain_head _ _ _ C) as (nx & l' & -> & G & N & C').
  simpl. rewrite G. destruct nx as [b|].
  - apply (chain_del _ a) in C'; [|exact N]. exact (IH b l' _ C').
  - left. now rewrite (chain_null _ _ C').
Qed.

Lemma free_loop_done (fuel : nat) (fm : option addr) (h h' : heap) :
  free_loop fuel fm h = Done h' ->
  exists a l, fm = Some a /\ chain h (Some a) l /\ h' = heap_without h l.
Proof.
  revert fm h. induction fuel as [|fuel IH]; intros fm h; [discriminate|].
  simpl. destruct fm as [p|]; [|discriminate].
  destruct (heap_get h p) as [nx|] eqn:G; [|discriminate].
  destruct nx as [b|].
  - intros R. destruct (IH _ _ R) as (a & l & E & C & ->).
    injection E as <-. destruct (chain_undel _ _ _ _ C) as [C' N].
    exists p, (p :: l). split; [reflexivity|]. split; [|reflexivity].
    now apply chain_cons with (nx := Some b).
  - intros [= <-]. exists p, [p]. split; [reflexivity|].
    split; [|reflexivity].
    apply chain_cons with (nx := None); [exact G | intros [] | constructor].
Qed.

Lemma free_array_arguments_chain (a : addr) (l : list addr) (h : heap) :
  chain h (Some a) l ->
  cffi_free_array_arguments (Some a) h = Done (heap_without h l).
Proof.
  intros C. unfold cffi_free_array_arguments.
  destruct (free_loop_chain (S (length h)) a l h C) as [E|E]; [exact E|].
  exfalso. revert E. apply free_loop_fuel. lia.
Qed.

(** X14. [_cffi_free_array_arguments] returns exactly when [freeme]
    heads a proper list: allocated, distinct blocks linked by [next] up to
    null. It has then freed these blocks and no other. *)
Theorem free_array_arguments_spec (fm : option addr) (h h' : heap) :
  cffi_free_array_arguments fm h = Done h' <->
  exists a l, fm = Some a /\ chain h (Some a) l /\ h' = heap_without h l.
Proof.
  unfold cffi_free_array_arguments. split.
  - apply free_loop_done.
  - intros (a & l & -> & C & ->). now apply free_array_arguments_chain.
Qed.

Lemma free_array_arguments_spec_witness :
  cffi_free_array_arguments (Some 3%nat)
    [(3%nat, Some 5%nat); (9%nat, None); (5%nat, None)]
  = Done [(9%nat, None)].
Proof.
  apply (proj2 (free_array_arguments_spec (Some 3%nat)
                  [(3%nat, Some 5%nat); (9%nat, None); (5%nat, None)]
                  [(9%nat, None)])).
  exists 3%nat, [3%nat; 5%nat]. split; [reflexivity|].
  split; [|reflexivity].
  apply chain_cons with (nx := Some 5%nat);
    [reflexivity | intros [H|[]]; discriminate |].
  apply chain_cons with (nx := None);
    [reflexivity | intros [] | constructor].
Defined.

(** X15. On anything else, a null [freeme], a block that is not
    allocated, a list that comes back to one of its blocks, the behaviour
    of [_cffi_free_array_arguments] is undefined; in particular the loop
    never goes on for ever. *)
Theorem free_array_arguments_undefined (fm : option addr) (h : heap) :
  cffi_free_array_arguments fm h = Undefined <->
  (forall a l, fm = Some a -> ~ chain h (Some a) l).
Proof.
  unfold cffi_free_array_arguments. split.
  - intros U a l -> C.
    fold (cffi_free_array_arguments (Some a) h) in U.
    rewrite (free_array_arguments_chain a l h C) in U. discriminate.
  - intros N. destruct (free_loop (S (length h)) fm h) as [h'| |] eqn:R.
    + destruct (free_loop_done _ _ _ _ R) as (a & l & E & C & _).
      destruct (N a l E C).
    + reflexivity.
    + exfalso. revert R. apply free_loop_fuel. lia.
Qed.

Lemma free_array_arguments_undefined_witness :
  cffi_free_array_arguments (Some 3%nat)
    [(3%nat, Some 5%nat); (5%nat, Some 3%nat)] = Undefined.
Proof.
  apply (proj2 (free_array_arguments_undefined (Some 3%nat)
                  [(3%nat, Some 5%nat); (5%nat, Some 3%nat)])).
  intros a l [= <-] C.
  destruct (chain_head _ _ _ C) as (nx & l1 & -> & G & N & C1).
  injection G as <-.
  destruct (chain_head _ _ _ C1) as (nx & l2 & -> & G & _ & C2).
  injection G as <-.
  destruct (chain_head _ _ _ C2) as (nx & l3 & -> & _).
  apply N. right. now left.
Defined.


(** * The wrapper: what each step keeps *)

Lemma preserves_ret {A : Type} (P : option addr -> glue -> Prop) (a : A) :
  preserves P (wret a).
Proof. intros fm g r fm' g' H [= _ <- <-]. exact H. Qed.

Lemma preserves_bind {A B : Type} (P : option addr -> glue -> Prop)
  (c : W A) (k : A -> W B) :
  preserves P c -> (forall a, preserves P (k a)) -> preserves P (wbind c k).
Proof.
  intros Hc Hk fm g r fm' g' H. unfold wbind.
  destruct (c fm g) as [[[a|] fm1] g1] eqn:E.
  - apply (Hk a). exact (Hc _ _ _ _ _ H E).
  - intros [= _ <- <-]. exact (Hc _ _ _ _ _ H E).
Qed.

Lemma wbind_ext {A B : Type} (c1 c2 : W A) (k1 k2 : A -> W B)
  (P : option addr -> glue -> Prop) :
  preserves P c1 ->
  (forall fm g, P fm g -> c1 fm g = c2 fm g) ->
  (forall a fm g, P fm g -> k1 a fm g = k2 a fm g) ->
  forall fm g, P fm g -> wbind c1 k1 fm g = wbind c2 k2 fm g.
Proof.
  intros Hp Hc Hk fm g H. unfold wbind. rewrite <- (Hc _ _ H).
  destruct (c1 fm g) as [[[a|] fm1] g1] eqn:E; [|reflexivity].
  apply Hk. exact (Hp _ _ _ _ _ H E).
Qed.

Lemma heap_get_app (h1 h2 : heap) (a : addr) :
  heap_get (h1 ++ h2) a =
  match heap_get h1 a with Some nx => Some nx | None => heap_get h2 a end.
Proof.
  induction h1 as [|[b nx] h1 IH]; simpl; [reflexivity|].
  now destruct (Nat.eqb a b).
Qed.

Lemma heap_del_app (h1 h2 : heap) (a : addr) :
  heap_del (h1 ++ h2) a = heap_del h1 a ++ heap_del h2 a.
Proof. apply filter_app. Qed.

Lemma heap_without_owned (h : heap) (l : list addr) (bs : heap) :
  (forall e, In e bs -> In (fst e) l) ->
  Forall (fun a => heap_get h a = None) l ->
  heap_without (bs ++ h) l = h.
Proof.
  revert bs. induction l as [|a l IH]; intros bs I F.
  - destruct bs as [|e bs]; [reflexivity|]. destruct (I e). now left.
  - change (heap_without (bs ++ h) (a :: l))
      with (heap_without (heap_del (bs ++ h) a) l).
    inversion F as [|? ? Fa Fl]; subst.
    rewrite heap_del_app, (heap_del_fresh h a Fa).
    apply IH; [|exact Fl].
    intros e He. apply filter_In in He. destruct He as [He Ne].
    destruct (I e He) as [J|J]; [|exact J].
    apply negb_true_iff, Nat.eqb_neq in Ne. destruct Ne. now symmetry.
Qed.

Section BackendFacts.

Variable PyObject_Malloc : glue -> Z -> option addr.
Variable convert_array_from_object :
  glue -> data_ptr -> ctype -> py_object -> Z.
Variable prepare_pointer_call_argument :
  glue -> ctype -> py_object -> Z * data_ptr.
Variable to_c_i32 : glue -> py_object -> Z * bool.
Variable PyArg_ParseTuple :
  py_object -> option (py_object * py_object * py_object * py_object
                       * py_object * py_object * py_object).
Variable header : Z.
Variable size_bits : Z.

(** What [_cffi_convert_array_argument] does to the list and the state. *)
Lemma convert_array_argument_cases (ct : ctype) (arg : py_object)
  (od : data_ptr) (ds : Z) (fm : option addr) (g : glue)
  (rc : Z) (p : data_ptr) (fm' : option addr) (g' : glue) :
  cffi_convert_array_argument PyObject_Malloc convert_array_from_object
    header size_bits ct arg od ds fm g = (rc, p, fm', g') ->
  ((fm' = fm /\ g_heap g' = g_heap g)
   \/ (exists fp n, od = NullPtr /\ PyObject_Malloc g n = Some fp
                    /\ fm' = Some fp /\ g_heap g' = (fp, fm) :: g_heap g))
  /\ (exists evs, g_trace g' = evs ++ g_trace g
                  /\ forallb is_conversion evs = true).
Proof.
  unfold cffi_convert_array_argument.
  destruct (ds <? 0).
  { intros [= _ _ <- <-]. split; [now left | now exists []]. }
  assert (T : forall q c a s, exists evs,
             EvConvert q c a :: EvMemset q s :: g_trace g
             = evs ++ g_trace g /\ forallb is_conversion evs = true).
  { intros q c a s. now exists [EvConvert q c a; EvMemset q s]. }
  destruct od as [|i|a|q].
  - destruct (PyObject_Malloc g _) as [fp|] eqn:M.
    + intros [= _ _ <- <-]. split; [|apply T].
      right. eexists fp, _. repeat split. exact M.
    + intros [= _ _ <- <-]. split; [now left | now exists []].
  - intros [= _ _ <- <-]. split; [now left | apply T].
  - intros [= _ _ <- <-]. split; [now left | apply T].
  - intros [= _ _ <- <-]. split; [now left | apply T].
Qed.

Lemma pointer_argument_cases (i t : nat) (arg : py_object)
  (fm : option addr) (g : glue)
  (r : option data_ptr) (fm' : option addr) (g' : glue) :
  pointer_argument PyObject_Malloc convert_array_from_object
    prepare_pointer_call_argument header size_bits i t arg fm g
  = (r, fm', g') ->
  ((fm' = fm /\ g_heap g' = g_heap g)
   \/ (exists fp n,
         640 < to_unsigned size_bits
                 (fst (prepare_pointer_call_argument g (cffi_type t) arg))
         /\ PyObject_Malloc g n = Some fp
         /\ fm' = Some fp /\ g_heap g' = (fp, fm) :: g_heap g))
  /\ (exists evs, g_trace g' = evs ++ g_trace g
                  /\ forallb is_conversion evs = true).
Proof.
  unfold pointer_argument.
  destruct (prepare_pointer_call_argument g (cffi_type t) arg) as [ds x].
  destruct (negb (ds =? 0)).
  - destruct (cffi_convert_array_argument _ _ _ _ _ _ _ _ _ _)
      as [[[rc p] fm1] g1] eqn:E.
    apply convert_array_argument_cases in E. destruct E as [E T].
    intros R.
    assert (fm' = fm1 /\ g' = g1) as [-> ->]
      by (destruct (rc <? 0); now injection R).
    split; [|exact T].
    destruct E as [E|(fp & n & N & M & -> & Hh)]; [now left|].
    right. exists fp, n. simpl. repeat split; try assumption.
    destruct (to_unsigned size_bits ds <=? 640) eqn:L; [discriminate|].
    apply Z.leb_gt in L. exact L.
  - intros [= _ <- <-]. split; [now left | now exists []].
Qed.

Lemma int_argument_id (arg : py_object) (fm : option addr) (g : glue)
  (r : option Z) (fm' : option addr) (g' : glue) :
  int_argument to_c_i32 arg fm g = (r, fm', g') -> fm' = fm /\ g' = g.
Proof.
  unfold int_argument. destruct (to_c_i32 g arg) as [v err].
  destruct (_ && _); now intros [= _ <- <-].
Qed.

Lemma int_argument_preserves (P : option addr -> glue -> Prop)
  (arg : py_object) : preserves P (int_argument to_c_i32 arg).
Proof.
  intros fm g r fm' g' H E. apply int_argument_id in E.
  destruct E as [-> ->]. exact H.
Qed.

Lemma pointer_argument_converting (h : heap) (i t : nat) (arg : py_object) :
  preserves (converting h)
    (pointer_argument PyObject_Malloc convert_array_from_object
       prepare_pointer_call_argument header size_bits i t arg).
Proof.
  intros fm g r fm' g' [[bs Hb] Q] E.
  apply pointer_argument_cases in E.
  destruct E as [E (evs & Tr & Qe)]. split.
  - destruct E as [[_ Hh]|(fp & n & _ & _ & _ & Hh)]; rewrite Hh.
    + now exists bs.
    + exists ((fp, fm) :: bs). now rewrite Hb.
  - rewrite Tr, forallb_app, Qe. exact Q.
Qed.

Section Fresh.

(** The allocator hands out no block that is still allocated. *)
Hypothesis malloc_fresh :
  forall g n a, PyObject_Malloc g n = Some a -> heap_get (g_heap g) a = None.

Lemma pointer_argument_owns (h : heap) (i t : nat) (arg : py_object) :
  preserves (owns h)
    (pointer_argument PyObject_Malloc convert_array_from_object
       prepare_pointer_call_argument header size_bits i t arg).
Proof.
  intros fm g r fm' g' (bs & Hb & C & F) E.
  apply pointer_argument_cases in E.
  destruct E as [[[-> Hh]|(fp & n & _ & M & -> & Hh)] _].
  - exists bs. now rewrite Hh.
  - apply malloc_fresh in M.
    exists ((fp, fm) :: bs). rewrite Hh, Hb. split; [reflexivity|].
    rewrite Hb in M, C. split.
    + simpl map. apply chain_cons with (nx := fm).
      * simpl. now rewrite Nat.eqb_refl.
      * intros I. destruct (chain_allocated _ _ _ C fp I) as [nx G].
        congruence.
      * apply chain_ext with (1 := C). intros a I. simpl.
        destruct (Nat.eqb a fp) eqn:Ea; [|reflexivity].
        apply Nat.eqb_eq in Ea. subst a.
        destruct (chain_allocated _ _ _ C fp I) as [nx G]. congruence.
    + simpl map. constructor; [|exact F].
      rewrite heap_get_app in M. now destruct (heap_get bs fp).
Qed.

End Fresh.

Lemma convert_arguments_preserves (P : option addr -> glue -> Prop) a :
  (forall i t arg,
      preserves P
        (pointer_argument PyObject_Malloc convert_array_from_object
           prepare_pointer_call_argument header size_bits i t arg)) ->
  preserves P
    (convert_arguments PyObject_Malloc convert_array_from_object
       prepare_pointer_call_argument to_c_i32 header size_bits a).
Proof.
  intros Hp. destruct a as [[[[[[a0 a1] a2] a3] a4] a5] a6].
  unfold convert_arguments.
  repeat (apply preserves_bind;
          [first [apply Hp | apply int_argument_preserves] | intros ?]).
  apply preserves_ret.
Qed.

End BackendFacts.


(** * The wrapper: failure and success *)

Lemma owns_start (h : heap) : owns h None (mkglue h []).
Proof. exists []. repeat split; constructor. Qed.

Lemma converting_start (h : heap) : converting h None (mkglue h []).
Proof. split; [now exists [] | reflexivity]. Qed.

Lemma owns_release (h : heap) (fm : option addr) (g : glue) :
  owns h fm g ->
  match fm with
  | None => g_heap g = h
  | Some _ => cffi_free_array_arguments fm (g_heap g) = Done h
  end.
Proof.
  intros (bs & Hb & C & F). destruct fm as [a|].
  - rewrite (free_array_arguments_chain _ _ _ C), Hb.
    f_equal. apply heap_without_owned; [|exact F].
    intros e He. now apply in_map.
  - apply chain_null in C. destruct bs; [exact Hb | discriminate].
Qed.

(** X16. When [_cffi_f_transform_bounds] returns NULL it has not called
    the kernel, has not touched errno or the thread state, and has freed
    nothing: the blocks allocated for large arguments before the failure
    are still allocated. *)
Theorem wrapper_failure_keeps_blocks
  (PyObject_Malloc : glue -> Z -> option addr)
  (convert_array_from_object : glue -> data_ptr -> ctype -> py_object -> Z)
  (prepare_pointer_call_argument : glue -> ctype -> py_object -> Z * data_ptr)
  (to_c_i32 : glue -> py_object -> Z * bool)
  (PyArg_ParseTuple :
     py_object -> option (py_object * py_object * py_object * py_object
                          * py_object * py_object * py_object))
  (header size_bits : Z) (args : py_object) (h : heap) (g : glue) :
  cffi_f_transform_bounds PyObject_Malloc convert_array_from_object
    prepare_pointer_call_argument to_c_i32 PyArg_ParseTuple header size_bits
    args h = Done (PyNULL, g) ->
  (exists blocks, g_heap g = blocks ++ h)
  /\ forallb is_conversion (g_trace g) = true.
Proof.
  unfold cffi_f_transform_bounds.
  destruct (PyArg_ParseTuple args) as [a|].
  - destruct (convert_arguments _ _ _ _ _ _ a None _)
      as [[[x|] fm] g1] eqn:E.
    + destruct fm as [b|]; [|discriminate].
      destruct (cffi_free_array_arguments _ _); discriminate.
    + intros [= <-].
      eapply convert_arguments_preserves with (P := converting h) in E;
        [exact E | | apply converting_start].
      intros i t arg. apply pointer_argument_converting.
  - intros [= <-]. apply converting_start.
Qed.

Lemma wrapper_failure_keeps_blocks_witness :
  exists g,
    demo_wrapper 2%nat [(7%nat, None)] = Done (PyNULL, g)
    /\ g_heap g = [(8%nat, None); (7%nat, None)]
    /\ forallb is_conversion (g_trace g) = true.
Proof.
  assert (R : exists g, demo_wrapper 2%nat [(7%nat, None)] = Done (PyNULL, g))
    by (eexists; vm_compute; reflexivity).
  destruct R as [g Hg]. exists g. split; [exact Hg|].
  destruct (wrapper_failure_keeps_blocks _ _ _ _ _ _ _ _ _ _ Hg) as [_ Q].
  split; [|exact Q].
  vm_compute in Hg. now injection Hg as <-.
Defined.

(** X17. When [_cffi_f_transform_bounds] returns [None], with an
    allocator that hands out only blocks that are not allocated, the
    allocated blocks are those of before the call, and the kernel was
    called once, after every conversion, between restoring and saving
    errno with the threads allowed. *)
Theorem wrapper_success_frees_all
  (PyObject_Malloc : glue -> Z -> option addr)
  (convert_array_from_object : glue -> data_ptr -> ctype -> py_object -> Z)
  (prepare_pointer_call_argument : glue -> ctype -> py_object -> Z * data_ptr)
  (to_c_i32 : glue -> py_object -> Z * bool)
  (PyArg_ParseTuple :
     py_object -> option (py_object * py_object * py_object * py_object
                          * py_object * py_object * py_object))
  (header size_bits : Z) (args : py_object) (h : heap) (g : glue) :
  (forall g n a,
      PyObject_Malloc g n = Some a -> heap_get (g_heap g) a = None) ->
  cffi_f_transform_bounds PyObject_Malloc convert_array_from_object
    prepare_pointer_call_argument to_c_i32 PyArg_ParseTuple header size_bits
    args h = Done (PyNone, g) ->
  g_heap g = h
  /\ exists x before,
       g_trace g = kernel_call x ++ before
       /\ forallb is_conversion before = true.
Proof.
  intros Fresh. unfold cffi_f_transform_bounds.
  destruct (PyArg_ParseTuple args) as [a|]; [|discriminate].
  destruct (convert_arguments _ _ _ _ _ _ a None _)
    as [[[x|] fm] g1] eqn:E; [|discriminate].
  pose proof E as E'.
  eapply convert_arguments_preserves with (P := owns h) in E;
    [ | intros i t arg; now apply pointer_argument_owns | apply owns_start].
  eapply convert_arguments_preserves with (P := converting h) in E';
    [ | intros i t arg; apply pointer_argument_converting
      | apply converting_start].
  destruct E' as [_ Q]. apply owns_release in E.
  destruct fm as [b|].
  - rewrite E. intros [= <-]. split; [reflexivity|]. now exists x, (g_trace g1).
  - intros [= <-]. split; [exact E|]. now exists x, (g_trace g1).
Qed.

Lemma bump_malloc_fresh (g : glue) (n : Z) (a : addr) :
  bump_malloc g n = Some a -> heap_get (g_heap g) a = None.
Proof.
  unfold bump_malloc. intros [= <-].
  assert (B : forall (h : heap) m,
             (list_max (map fst h) < m)%nat -> heap_get h m = None).
  { induction h as [|[b nx] h IH]; intros m L; [reflexivity|].
    simpl in L |- *. destruct (Nat.eqb m b) eqn:Eb.
    - apply Nat.eqb_eq in Eb. lia.
    - apply IH. lia. }
  apply B. lia.
Qed.

Lemma wrapper_success_frees_all_witness :
  exists g,
    demo_wrapper 1%nat [(7%nat, None)] = Done (PyNone, g)
    /\ g_heap g = [(7%nat, None)]
    /\ exists before,
         g_trace g
         = kernel_call (BlockData 8%nat, 3, 12, 0, Alloca 4%nat,
                        Foreign 15%nat, BlockData 9%nat) ++ before
         /\ forallb is_conversion before = true.
Proof.
  assert (R : exists g, demo_wrapper 1%nat [(7%nat, None)] = Done (PyNone, g))
    by (eexists; vm_compute; reflexivity).
  destruct R as [g Hg]. exists g. split; [exact Hg|].
  destruct (wrapper_success_frees_all _ _ _ _ _ _ _ _ _ _
              bump_malloc_fresh Hg) as [Hh (x & before & Tr & Q)].
  split; [exact Hh|].
  vm_compute in Hg. injection Hg as <-.
  eexists. split; [simpl; reflexivity | reflexivity].
Defined.

(** X18. With such an allocator [_cffi_f_transform_bounds] always
    returns: it hands [_cffi_free_array_arguments] a proper list or does
    not call it. *)
Theorem wrapper_defined
  (PyObject_Malloc : glue -> Z -> option addr)
  (convert_array_from_object : glue -> data_ptr -> ctype -> py_object -> Z)
  (prepare_pointer_call_argument : glue -> ctype -> py_object -> Z * data_ptr)
  (to_c_i32 : glue -> py_object -> Z * bool)
  (PyArg_ParseTuple :
     py_object -> option (py_object * py_object * py_object * py_object
                          * py_object * py_object * py_object))
  (header size_bits : Z) (args : py_object) (h : heap) :
  (forall g n a,
      PyObject_Malloc g n = Some a -> heap_get (g_heap g) a = None) ->
  exists r g,
    cffi_f_transform_bounds PyObject_Malloc convert_array_from_object
      prepare_pointer_call_argument to_c_i32 PyArg_ParseTuple header
      size_bits args h = Done (r, g).
Proof.
  intros Fresh. unfold cffi_f_transform_bounds.
  destruct (PyArg_ParseTuple args) as [a|]; [|now eexists _, _].
  destruct (convert_arguments _ _ _ _ _ _ a None _)
    as [[[x|] fm] g1] eqn:E; [|now eexists _, _].
  eapply convert_arguments_preserves with (P := owns h) in E;
    [ | intros i t arg; now apply pointer_argument_owns | apply owns_start].
  apply owns_release in E.
  destruct fm as [b|]; [rewrite E|]; now eexists _, _.
Qed.

Lemma wrapper_defined_witness :
  exists r g, demo_wrapper 1%nat [(7%nat, None); (8%nat, Some 7%nat)]
              = Done (r, g).
Proof.
  exact (wrapper_defined bump_malloc demo_convert demo_prepare demo_to_c_i32
           demo_parse 8 64 1%nat [(7%nat, None); (8%nat, Some 7%nat)]
           bump_malloc_fresh).
Defined.

(** X19. When every array to convert takes at most 640 bytes the
    wrapper never asks the allocator: its result is the same with any two
    allocators, and the allocated blocks are left as they were. *)
Theorem small_arguments_stay_off_heap
  (malloc1 malloc2 : glue -> Z -> option addr)
  (convert_array_from_object : glue -> data_ptr -> ctype -> py_object -> Z)
  (prepare_pointer_call_argument : glue -> ctype -> py_object -> Z * data_ptr)
  (to_c_i32 : glue -> py_object -> Z * bool)
  (PyArg_ParseTuple :
     py_object -> option (py_object * py_object * py_object * py_object
                          * py_object * py_object * py_object))
  (header size_bits : Z) (args : py_object) (h : heap) :
  (forall g ct arg,
      to_unsigned size_bits (fst (prepare_pointer_call_argument g ct arg))
      <= 640) ->
  cffi_f_transform_bounds malloc1 convert_array_from_object
    prepare_pointer_call_argument to_c_i32 PyArg_ParseTuple header size_bits
    args h
  = cffi_f_transform_bounds malloc2 convert_array_from_object
      prepare_pointer_call_argument to_c_i32 PyArg_ParseTuple header
      size_bits args h
  /\ exists r g,
       cffi_f_transform_bounds malloc1 convert_array_from_object
         prepare_pointer_call_argument to_c_i32 PyArg_ParseTuple header
         size_bits args h = Done (r, g)
       /\ g_heap g = h.
Proof.
  intros Small.
  assert (P : forall i t arg fm g,
             pointer_argument malloc1 convert_array_from_object
               prepare_pointer_call_argument header size_bits i t arg fm g
             = pointer_argument malloc2 convert_array_from_object
                 prepare_pointer_call_argument header size_bits i t arg fm g).
  { intros i t arg fm g. unfold pointer_argument.
    pose proof (Small g (cffi_type t) arg) as S.
    destruct (prepare_pointer_call_argument g (cffi_type t) arg) as [ds x].
    simpl in S. apply Z.leb_le in S. rewrite S. reflexivity. }
  assert (U : forall m i t arg,
             preserves (untouched h)
               (pointer_argument m convert_array_from_object
                  prepare_pointer_call_argument header size_bits i t arg)).
  { intros m i t arg fm g r fm' g' [-> Hh] E.
    apply pointer_argument_cases in E.
    destruct E as [[[-> Hh']|(fp & n & L & _)] _].
    - split; [reflexivity | congruence].
    - pose proof (Small g (cffi_type t) arg). lia. }
  assert (C : forall a fm g,
             convert_arguments malloc1 convert_array_from_object
               prepare_pointer_call_argument to_c_i32 header size_bits a fm g
             = convert_arguments malloc2 convert_array_from_object
                 prepare_pointer_call_argument to_c_i32 header size_bits
                 a fm g).
  { intros [[[[[[a0 a1] a2] a3] a4] a5] a6] fm g. unfold convert_arguments.
    repeat (apply wbind_ext with (P := fun _ _ => True);
            [ now intros ? ? ? ? ? | intros; first [apply P | reflexivity]
            | intros ? ? ? _ | exact I ]).
    reflexivity. }
  split.
  - unfold cffi_f_transform_bounds.
    destruct (PyArg_ParseTuple args) as [a|]; [|reflexivity].
    now rewrite C.
  - unfold cffi_f_transform_bounds.
    destruct (PyArg_ParseTuple args) as [a|]; [|now eexists _, _].
    destruct (convert_arguments malloc1 _ _ _ _ _ a None _)
      as [[r fm] g1] eqn:E.
    eapply convert_arguments_preserves with (P := untouched h) in E;
      [ | apply U | now split].
    destruct E as [-> Hh]. destruct r as [x|]; now eexists _, _.
Qed.

Lemma small_arguments_stay_off_heap_witness :
  cffi_f_transform_bounds bump_malloc demo_convert
    (fun _ _ _ => (64, NullPtr)) demo_to_c_i32 demo_parse 8 64 1%nat
    [(7%nat, None)]
  = cffi_f_transform_bounds (fun _ _ => None) demo_convert
      (fun _ _ _ => (64, NullPtr)) demo_to_c_i32 demo_parse 8 64 1%nat
      [(7%nat, None)].
Proof.
  apply (small_arguments_stay_off_heap bump_malloc (fun _ _ => None)
           demo_convert (fun _ _ _ => (64, NullPtr)) demo_to_c_i32
           demo_parse 8 64 1%nat [(7%nat, None)]).
  intros g ct arg. vm_compute. discriminate.
Defined.


(** * Importing the backend *)

Lemma release_two (m c : py_object) :
  exists hs, release m [c; m] = Some hs /\ release c hs = Some [].
Proof.
  simpl. destruct (Nat.eqb m c) eqn:E.
  - apply Nat.eqb_eq in E. subst c. exists [m]. simpl.
    now rewrite Nat.eqb_refl.
  - rewrite Nat.eqb_refl. exists [c]. simpl. now rewrite Nat.eqb_refl.
Qed.

(** X20. Whenever [_cffi_init] returns it holds no reference any more,
    to the module or to the capsule; it returns 0 or -1, has copied the
    table of exports exactly when it returns 0, and has set [ImportError]
    itself only when it returns -1. *)
Theorem init_releases_all
  (PyImport_ImportModule : option py_object)
  (PyObject_GetAttrString : py_object -> option py_object)
  (PyCapsule_CheckExact : py_object -> bool)
  (PyCapsule_GetPointer : py_object -> option (list nat))
  (r : init_result) :
  cffi_init PyImport_ImportModule PyObject_GetAttrString
    PyCapsule_CheckExact PyCapsule_GetPointer = Done r ->
  init_held r = []
  /\ (init_code r = 0 \/ init_code r = -1)
  /\ (init_code r = 0 <-> init_exports r <> None)
  /\ (init_error r = true -> init_code r = -1).
Proof.
  unfold cffi_init.
  destruct PyImport_ImportModule as [m|].
  2:{ simpl. intros [= <-]. simpl. repeat split; try (now right); try easy. }
  destruct (PyObject_GetAttrString m) as [c|].
  2:{ simpl. rewrite Nat.eqb_refl. intros [= <-]. simpl.
      repeat split; try (now right); try easy. }
  destruct (release_two m c) as (hs & R1 & R2).
  destruct (PyCapsule_CheckExact c); simpl negb; cbv iota.
  - destruct (PyCapsule_GetPointer c) as [table|]; [|discriminate].
    destruct (Nat.ltb (length table) CFFI_NUM_EXPORTS); [discriminate|].
    rewrite R1, R2. intros [= <-]. simpl.
    repeat split; try (now left); try easy.
  - unfold xrelease. rewrite R1, R2. intros [= <-]. simpl.
    repeat split; try (now right); try easy.
Qed.

Lemma init_releases_all_witness :
  exists r,
    cffi_init (Some 5%nat) (fun _ => Some 6%nat) (fun _ => false)
      (fun _ => None) = Done r
    /\ init_held r = [] /\ init_code r = -1 /\ init_error r = true.
Proof.
  eexists. split; [reflexivity|].
  destruct (init_releases_all (Some 5%nat) (fun _ => Some 6%nat)
              (fun _ => false) (fun _ => None) _ eq_refl)
    as (H & _ & _ & _).
  split; [exact H|]. split; reflexivity.
Defined.

(** X21. [_cffi_init] passes the result of [PyCapsule_GetPointer] to
    [memcpy] unchecked: it is defined exactly when the capsule, if the
    import, the attribute and the capsule check all succeed, gives a
    pointer that is not null and from which [_CFFI_NUM_EXPORTS] pointers
    can be read. *)
Theorem init_defined_iff
  (PyImport_ImportModule : option py_object)
  (PyObject_GetAttrString : py_object -> option py_object)
  (PyCapsule_CheckExact : py_object -> bool)
  (PyCapsule_GetPointer : py_object -> option (list nat)) :
  cffi_init PyImport_ImportModule PyObject_GetAttrString
    PyCapsule_CheckExact PyCapsule_GetPointer <> Undefined
  <->
  (forall module c_api_object,
      PyImport_ImportModule = Some module ->
      PyObject_GetAttrString module = Some c_api_object ->
      PyCapsule_CheckExact c_api_object = true ->
      exists table,
        PyCapsule_GetPointer c_api_object = Some table
        /\ (CFFI_NUM_EXPORTS <= length table)%nat).
Proof.
  unfold cffi_init.
  destruct PyImport_ImportModule as [m|].
  2:{ simpl. split; [intros _ ? ? [=] | discriminate]. }
  destruct (PyObject_GetAttrString m) as [c|] eqn:G.
  2:{ simpl. rewrite Nat.eqb_refl. split; [|discriminate].
      intros _ ? ? [= <-]. congruence. }
  destruct (release_two m c) as (hs & R1 & R2).
  destruct (PyCapsule_CheckExact c) eqn:K; simpl negb; cbv iota.
  - destruct (PyCapsule_GetPointer c) as [table|] eqn:P.
    + destruct (Nat.ltb (length table) CFFI_NUM_EXPORTS) eqn:L.
      * split; [congruence|]. intros H.
        destruct (H m c eq_refl G K) as (table' & E & Len).
        rewrite P in E. injection E as <-.
        apply Nat.ltb_lt in L. lia.
      * rewrite R1, R2. split; [|discriminate].
        intros _ ? ? [= <-]. rewrite G. intros [= <-] _.
        exists table. split; [exact P|].
        apply Nat.ltb_ge in L. exact L.
    + split; [congruence|]. intros H.
      destruct (H m c eq_refl G K) as (table' & E & _).
      rewrite P in E. discriminate.
  - unfold xrelease. rewrite R1, R2. split; [|discriminate].
    intros _ ? ? [= <-]. rewrite G. intros [= <-]. congruence.
Qed.

Lemma init_defined_iff_witness :
  cffi_init (Some 5%nat) (fun _ => Some 6%nat) (fun _ => true)
    (fun _ => Some (repeat 7%nat 25)) <> Undefined.
Proof.
  apply (proj2 (init_defined_iff (Some 5%nat) (fun _ => Some 6%nat)
                  (fun _ => true) (fun _ => Some (repeat 7%nat 25)))).
  intros module c_api_object _ _ _. eexists. split; [reflexivity|].
  vm_compute. lia.
Defined.

(** * Translation-only matrices, whatever the values *)

Lemma add_nan_r (a : float) : F32.add a S754_nan = S754_nan.
Proof. now destruct a. Qed.

Lemma add_nan_l (a : float) : F32.add S754_nan a = S754_nan.
Proof. reflexivity. Qed.

Lemma unmoved_nan (w : float) : F32.is_nan (unmoved w) = F32.is_nan w.
Proof. now destruct w as [[]|[]| |]. Qed.

Lemma unmoved_cancels (t w : float) : cancels t (unmoved w) = cancels t w.
Proof. now destruct t, w as [[]|[]| |]. Qed.

Lemma unmoved_key (w : float) : key (unmoved w) = key w.
Proof. now destruct w as [[]|[]| |]. Qed.

Lemma alike_nan : alike S754_nan S754_nan = true.
Proof. reflexivity. Qed.

Lemma alike_eqb (x y : float) : F32.eqb x y = true -> alike x y = true.
Proof. intros H. unfold alike. now rewrite H. Qed.

Lemma existsb_false {A : Type} (f : A -> bool) (l : list A) :
  (forall x, f x = false) -> existsb f l = false.
Proof. intros H. induction l; simpl; [reflexivity | now rewrite H]. Qed.

Lemma broken_not_infinite (t : float) (us : list float) :
  (forall u, cancels t u = false) -> broken t us = false.
Proof.
  intros H. destruct us as [|u0 us]; [reflexivity|].
  unfold broken. rewrite (existsb_false _ _ H).
  now rewrite andb_false_r.
Qed.

(** ** The translation is a NaN *)

Lemma shift_lo_nan (w0 : float) (ws : list float) :
  alike (run_lo (moved S754_nan w0) (map (moved S754_nan) ws))
        (F32.add (run_lo (unmoved w0) (map unmoved ws)) S754_nan) = true.
Proof.
  unfold moved at 1. now rewrite !add_nan_r, run_lo_nan.
Qed.

Lemma shift_hi_nan (w0 : float) (ws : list float) :
  alike (run_hi (moved S754_nan w0) (map (moved S754_nan) ws))
        (F32.add (run_hi (unmoved w0) (map unmoved ws)) S754_nan) = true.
Proof.
  unfold moved at 1. now rewrite !add_nan_r, run_hi_nan.
Qed.

(** ** The first record is a NaN *)

Lemma shift_lo_first_nan (t : float) (ws : list float) :
  alike (run_lo (moved t S754_nan) (map (moved t) ws))
        (F32.add (run_lo (unmoved S754_nan) (map unmoved ws)) t) = true.
Proof.
  change (moved t S754_nan) with S754_nan.
  change (unmoved S754_nan) with S754_nan.
  now rewrite !run_lo_nan.
Qed.

Lemma shift_hi_first_nan (t : float) (ws : list float) :
  alike (run_hi (moved t S754_nan) (map (moved t) ws))
        (F32.add (run_hi (unmoved S754_nan) (map unmoved ws)) t) = true.
Proof.
  change (moved t S754_nan) with S754_nan.
  change (unmoved S754_nan) with S754_nan.
  now rewrite !run_hi_nan.
Qed.

(** ** Infinities in the order *)

Lemma leb_minus_infinity (x : float) :
  F32.is_nan x = false -> F32.leb minus_infinity x = true.
Proof. now destruct x as [[]|[]| |[] m e]. Qed.

Lemma leb_plus_infinity (x : float) :
  F32.is_nan x = false -> F32.leb x plus_infinity = true.
Proof. now destruct x as [[]|[]| |[] m e]. Qed.

Lemma leb_below_minus_infinity (x : float) :
  F32.leb x minus_infinity = true -> x = minus_infinity.
Proof. now destruct x as [[]|[]| |[] m e]. Qed.

Lemma leb_above_plus_infinity (x : float) :
  F32.leb plus_infinity x = true -> x = plus_infinity.
Proof. now destruct x as [[]|[]| |[] m e]. Qed.

(** ** The translation is finite *)

Section FiniteShift.

Variable t : float.
Hypothesis t_ok : finite_valid t = true.

Lemma add_infinity_finite (s : bool) :
  F32.add (S754_infinity s) t = S754_infinity s.
Proof. destruct t; try discriminate t_ok; reflexivity. Qed.

Lemma moved_nan (w : float) :
  sound w -> F32.is_nan (moved t w) = F32.is_nan w.
Proof.
  intros S. unfold moved.
  destruct w as [s|s| |s m e].
  - now apply add_ulps; [apply S|].
  - now rewrite add_infinity_finite.
  - reflexivity.
  - now apply add_ulps; [apply S|].
Qed.

Lemma num_cases (w : float) :
  num w -> finite_valid w = true \/ exists s, w = S754_infinity s.
Proof.
  intros [N S]. destruct w as [s|s| |s m e]; try discriminate N.
  - left. now apply S.
  - right. now exists s.
  - left. now apply S.
Qed.

Lemma add_mono_num (a b : float) :
  num a -> num b -> F32.leb a b = true ->
  F32.leb (moved t a) (moved t b) = true.
Proof.
  intros Ha Hb L. unfold moved.
  assert (Na : F32.is_nan (F32.add a t) = false)
    by (rewrite <- (proj1 Ha); apply moved_nan, Ha).
  assert (Nb : F32.is_nan (F32.add b t) = false)
    by (rewrite <- (proj1 Hb); apply moved_nan, Hb).
  destruct (num_cases a Ha) as [Fa|[sa ->]];
    destruct (num_cases b Hb) as [Fb|[sb ->]].
  - now apply add_mono.
  - rewrite add_infinity_finite in *. destruct sb.
    + apply leb_below_minus_infinity in L. subst a.
      discriminate (finite_valid_finite _ Fa).
    + now apply leb_plus_infinity.
  - rewrite add_infinity_finite in *. destruct sa.
    + now apply leb_minus_infinity.
    + apply leb_above_plus_infinity in L. subst b.
      discriminate (finite_valid_finite _ Fb).
  - rewrite !add_infinity_finite. exact L.
Qed.

Lemma shift_unshifted_num (w : float) :
  num w ->
  F32.is_nan (F32.add (unmoved w) t) = false /\
  key (F32.add (unmoved w) t) = key (moved t w).
Proof.
  intros Hw. destruct (num_cases w Hw) as [Fw|[s ->]].
  - now apply shift_unshifted.
  - change (unmoved (S754_infinity s)) with (S754_infinity s).
    unfold moved. now rewrite add_infinity_finite.
Qed.

Lemma unmoved_reflects_num (a b : float) :
  F32.is_nan a = false -> F32.is_nan b = false ->
  F32.leb (unmoved a) (unmoved b) = true -> F32.leb a b = true.
Proof.
  intros Na Nb L.
  eapply leb_of_keys; [exact Na | exact Nb | | | exact L];
    symmetry; apply unmoved_key.
Qed.

Lemma moved_no_nan (ws : list float) :
  Forall num ws -> no_nan (map (moved t) ws).
Proof.
  intros F u Hu. apply in_map_iff in Hu. destruct Hu as (w & <- & Hw).
  rewrite Forall_forall in F. destruct (F w Hw) as [N S].
  now rewrite moved_nan.
Qed.

Lemma unmoved_no_nan (ws : list float) :
  Forall num ws -> no_nan (map unmoved ws).
Proof.
  intros F u Hu. apply in_map_iff in Hu. destruct Hu as (w & <- & Hw).
  rewrite Forall_forall in F. destruct (F w Hw) as [N S].
  now rewrite unmoved_nan.
Qed.

Lemma shift_min_num (w0 : float) (ws : list float) :
  Forall num (w0 :: ws) ->
  F32.eqb (run_lo (moved t w0) (map (moved t) ws))
          (F32.add (run_lo (unmoved w0) (map unmoved ws)) t) = true.
Proof.
  intros F.
  destruct (run_lo_min (unmoved w0) (map unmoved ws)
              (unmoved_no_nan (w0 :: ws) F)) as [Iin Ile].
  destruct (run_lo_min (moved t w0) (map (moved t) ws)
              (moved_no_nan (w0 :: ws) F)) as [Tin Tle].
  change (unmoved w0 :: map unmoved ws) with (map unmoved (w0 :: ws)) in *.
  change (moved t w0 :: map (moved t) ws)
    with (map (moved t) (w0 :: ws)) in *.
  apply in_map_iff in Iin. destruct Iin as (wj & Ej & Hj).
  apply in_map_iff in Tin. destruct Tin as (wi & Ei & Hi).
  rewrite Forall_forall in F.
  rewrite <- Ej.
  destruct (shift_unshifted_num wj (F _ Hj)) as [N K].
  assert (L1 : F32.leb (run_lo (moved t w0) (map (moved t) ws))
                 (moved t wj) = true)
    by (apply Tle; now apply in_map).
  assert (L2 : F32.leb (moved t wj)
                 (run_lo (moved t w0) (map (moved t) ws)) = true).
  { rewrite <- Ei. apply add_mono_num; auto.
    apply unmoved_reflects_num; try (apply F; assumption).
    rewrite Ej. apply Ile. now apply in_map. }
  pose proof (leb_antisym _ _ L1 L2) as E.
  apply eqb_iff in E. destruct E as (Na & _ & E).
  apply eqb_iff. split; [exact Na|]. split; [exact N|]. now rewrite K.
Qed.

Lemma shift_max_num (w0 : float) (ws : list float) :
  Forall num (w0 :: ws) ->
  F32.eqb (run_hi (moved t w0) (map (moved t) ws))
          (F32.add (run_hi (unmoved w0) (map unmoved ws)) t) = true.
Proof.
  intros F.
  destruct (run_hi_max (unmoved w0) (map unmoved ws)
              (unmoved_no_nan (w0 :: ws) F)) as [Iin Ile].
  destruct (run_hi_max (moved t w0) (map (moved t) ws)
              (moved_no_nan (w0 :: ws) F)) as [Tin Tle].
  change (unmoved w0 :: map unmoved ws) with (map unmoved (w0 :: ws)) in *.
  change (moved t w0 :: map (moved t) ws)
    with (map (moved t) (w0 :: ws)) in *.
  apply in_map_iff in Iin. destruct Iin as (wj & Ej & Hj).
  apply in_map_iff in Tin. destruct Tin as (wi & Ei & Hi).
  rewrite Forall_forall in F.
  rewrite <- Ej.
  destruct (shift_unshifted_num wj (F _ Hj)) as [N K].
  assert (L1 : F32.leb (moved t wj)
                 (run_hi (moved t w0) (map (moved t) ws)) = true)
    by (apply Tle; now apply in_map).
  assert (L2 : F32.leb (run_hi (moved t w0) (map (moved t) ws))
                 (moved t wj) = true).
  { rewrite <- Ei. apply add_mono_num; auto.
    apply unmoved_reflects_num; try (apply F; assumption).
    rewrite Ej. apply Ile. now apply in_map. }
  pose proof (leb_antisym _ _ L2 L1) as E.
  apply eqb_iff in E. destruct E as (Na & _ & E).
  apply eqb_iff. split; [exact Na|]. split; [exact N|]. now rewrite K.
Qed.

Lemma filter_moved (ws : list float) :
  Forall sound ws ->
  filter not_nan (map (moved t) ws) = map (moved t) (filter not_nan ws).
Proof.
  induction 1 as [|w ws S F IH]; [reflexivity|].
  cbn [map filter]. rewrite IH.
  replace (not_nan (moved t w)) with (not_nan w)
    by (unfold not_nan; now rewrite (moved_nan w S)).
  now destruct (not_nan w).
Qed.

Lemma filter_unmoved (ws : list float) :
  filter not_nan (map unmoved ws) = map unmoved (filter not_nan ws).
Proof.
  induction ws as [|w ws IH]; [reflexivity|].
  cbn [map filter]. rewrite IH.
  replace (not_nan (unmoved w)) with (not_nan w)
    by (unfold not_nan; now rewrite unmoved_nan).
  now destruct (not_nan w).
Qed.

Lemma filter_num (ws : list float) :
  Forall sound ws -> Forall num (filter not_nan ws).
Proof.
  intros F. apply Forall_forall. intros w Hw. apply filter_In in Hw.
  destruct Hw as [Hw N]. rewrite Forall_forall in F. split; [|now apply F].
  unfold not_nan in N. now destruct (F32.is_nan w).
Qed.

Lemma shift_lo_finite (w0 : float) (ws : list float) :
  Forall sound (w0 :: ws) ->
  alike (run_lo (moved t w0) (map (moved t) ws))
        (F32.add (run_lo (unmoved w0) (map unmoved ws)) t) = true.
Proof.
  intros F. inversion F as [|? ? S0 Fs]; subst.
  destruct (F32.is_nan w0) eqn:N0.
  - apply is_nan_true in N0. subst w0. apply shift_lo_first_nan.
  - rewrite (run_lo_skips_nan (map (moved t) ws)),
      (run_lo_skips_nan (map unmoved ws)), filter_moved, filter_unmoved
      by assumption.
    apply alike_eqb, shift_min_num. constructor; [now split|].
    now apply filter_num.
Qed.

Lemma shift_hi_finite (w0 : float) (ws : list float) :
  Forall sound (w0 :: ws) ->
  alike (run_hi (moved t w0) (map (moved t) ws))
        (F32.add (run_hi (unmoved w0) (map unmoved ws)) t) = true.
Proof.
  intros F. inversion F as [|? ? S0 Fs]; subst.
  destruct (F32.is_nan w0) eqn:N0.
  - apply is_nan_true in N0. subst w0. apply shift_hi_first_nan.
  - rewrite (run_hi_skips_nan (map (moved t) ws)),
      (run_hi_skips_nan (map unmoved ws)), filter_moved, filter_unmoved
      by assumption.
    apply alike_eqb, shift_max_num. constructor; [now split|].
    now apply filter_num.
Qed.

End FiniteShift.

(** ** The translation is an infinity *)

Lemma moved_infinity (s : bool) (w : float) :
  moved (S754_infinity s) w
  = if survives (S754_infinity s) w then S754_infinity s else S754_nan.
Proof. now destruct w as [[]|[]| |[] m e], s. Qed.

Lemma survives_unmoved (t w : float) :
  survives t (unmoved w) = survives t w.
Proof. unfold survives. now rewrite unmoved_nan, unmoved_cancels. Qed.

Lemma alike_moved_infinity (s : bool) (x y : float) :
  alike (moved (S754_infinity s) x) (moved (S754_infinity s) y)
  = Bool.eqb (survives (S754_infinity s) x) (survives (S754_infinity s) y).
Proof.
  rewrite !moved_infinity.
  destruct (survives _ x), (survives _ y), s; reflexivity.
Qed.

Lemma run_lo_fixed (l0 : float) (vs : list float) :
  (forall v, In v vs -> F32.ltb v l0 = false) -> run_lo l0 vs = l0.
Proof.
  induction vs as [|v vs IH]; intros H; [reflexivity|].
  change (run_lo l0 (v :: vs)) with (run_lo (lower v l0) vs).
  unfold lower. rewrite (H v) by now left.
  apply IH. intros u Hu. apply H. now right.
Qed.

Lemma run_hi_fixed (h0 : float) (vs : list float) :
  (forall v, In v vs -> F32.gtb v h0 = false) -> run_hi h0 vs = h0.
Proof.
  induction vs as [|v vs IH]; intros H; [reflexivity|].
  change (run_hi h0 (v :: vs)) with (run_hi (upper v h0) vs).
  unfold upper. rewrite (H v) by now left.
  apply IH. intros u Hu. apply H. now right.
Qed.

(** Under an infinite translation both bounds are the moved first value. *)
Lemma run_lo_moved_infinity (s : bool) (w0 : float) (ws : list float) :
  run_lo (moved (S754_infinity s) w0) (map (moved (S754_infinity s)) ws)
  = moved (S754_infinity s) w0.
Proof.
  apply run_lo_fixed. intros v Hv. apply in_map_iff in Hv.
  destruct Hv as (w & <- & _). rewrite !moved_infinity.
  destruct (survives _ w), (survives _ w0), s; reflexivity.
Qed.

Lemma run_hi_moved_infinity (s : bool) (w0 : float) (ws : list float) :
  run_hi (moved (S754_infinity s) w0) (map (moved (S754_infinity s)) ws)
  = moved (S754_infinity s) w0.
Proof.
  apply run_hi_fixed. intros v Hv. apply in_map_iff in Hv.
  destruct Hv as (w & <- & _). rewrite !moved_infinity.
  destruct (survives _ w), (survives _ w0), s; reflexivity.
Qed.

Lemma cancels_plus (u : float) :
  cancels plus_infinity u = true <-> u = minus_infinity.
Proof. split; [now destruct u as [[]|[]| |] | now intros ->]. Qed.

Lemma cancels_minus (u : float) :
  cancels minus_infinity u = true <-> u = plus_infinity.
Proof. split; [now destruct u as [[]|[]| |] | now intros ->]. Qed.

Lemma survives_number (t u : float) :
  F32.is_nan u = false -> survives t u = negb (cancels t u).
Proof. intros H. unfold survives. now rewrite H. Qed.

Section Extremes.

Variable u0 : float.
Variable us : list float.
Hypothesis u0_number : F32.is_nan u0 = false.

Lemma min_number : F32.is_nan (run_lo u0 us) = false.
Proof. now apply run_lo_le_seed. Qed.

Lemma max_number : F32.is_nan (run_hi u0 us) = false.
Proof. now apply run_hi_ge_seed. Qed.

Lemma min_below (u : float) :
  In u (u0 :: us) -> F32.is_nan u = false ->
  F32.leb (run_lo u0 us) u = true.
Proof.
  intros [<-|H] N; [now apply run_lo_le_seed | now apply run_lo_le].
Qed.

Lemma max_above (u : float) :
  In u (u0 :: us) -> F32.is_nan u = false ->
  F32.leb u (run_hi u0 us) = true.
Proof.
  intros [<-|H] N; [now apply run_hi_ge_seed | now apply run_hi_ge].
Qed.

(** With [+inf] added: the minimum cancels exactly when some value does,
    the maximum survives exactly when some value does. *)
Lemma min_cancels_plus :
  cancels plus_infinity (run_lo u0 us)
  = existsb (cancels plus_infinity) (u0 :: us).
Proof.
  apply eq_true_iff_eq. rewrite existsb_exists. split.
  - intros H. exists (run_lo u0 us). split; [apply run_lo_in | exact H].
  - intros (u & Hu & C). apply cancels_plus in C. subst u.
    apply cancels_plus. apply leb_below_minus_infinity.
    now apply min_below.
Qed.

Lemma max_survives_plus :
  survives plus_infinity (run_hi u0 us)
  = existsb (survives plus_infinity) (u0 :: us).
Proof.
  apply eq_true_iff_eq. rewrite existsb_exists. split.
  - intros H. exists (run_hi u0 us). split; [apply run_hi_in | exact H].
  - intros (u & Hu & S). unfold survives in S.
    apply andb_true_iff in S. destruct S as [N C].
    apply negb_true_iff in N. apply negb_true_iff in C.
    rewrite survives_number by apply max_number.
    apply negb_true_iff. destruct (cancels plus_infinity (run_hi u0 us)) eqn:E;
      [|reflexivity].
    apply cancels_plus in E. pose proof (max_above u Hu N) as L.
    rewrite E in L. apply leb_below_minus_infinity in L. subst u.
    discriminate C.
Qed.

(** With [-inf] added it is the other way round. *)
Lemma max_cancels_minus :
  cancels minus_infinity (run_hi u0 us)
  = existsb (cancels minus_infinity) (u0 :: us).
Proof.
  apply eq_true_iff_eq. rewrite existsb_exists. split.
  - intros H. exists (run_hi u0 us). split; [apply run_hi_in | exact H].
  - intros (u & Hu & C). apply cancels_minus in C. subst u.
    apply cancels_minus. apply leb_above_plus_infinity.
    now apply max_above.
Qed.

Lemma min_survives_minus :
  survives minus_infinity (run_lo u0 us)
  = existsb (survives minus_infinity) (u0 :: us).
Proof.
  apply eq_true_iff_eq. rewrite existsb_exists. split.
  - intros H. exists (run_lo u0 us). split; [apply run_lo_in | exact H].
  - intros (u & Hu & S). unfold survives in S.
    apply andb_true_iff in S. destruct S as [N C].
    apply negb_true_iff in N. apply negb_true_iff in C.
    rewrite survives_number by apply min_number.
    apply negb_true_iff. destruct (cancels minus_infinity (run_lo u0 us)) eqn:E;
      [|reflexivity].
    apply cancels_minus in E. pose proof (min_below u Hu N) as L.
    rewrite E in L. apply leb_above_plus_infinity in L. subst u.
    discriminate C.
Qed.

End Extremes.

(** The claim on one axis, for an infinite translation. *)
Lemma shift_infinite (s : bool) (w0 : float) (ws : list float) :
  alike (run_lo (moved (S754_infinity s) w0)
           (map (moved (S754_infinity s)) ws))
        (F32.add (run_lo (unmoved w0) (map unmoved ws)) (S754_infinity s))
  && alike (run_hi (moved (S754_infinity s) w0)
              (map (moved (S754_infinity s)) ws))
           (F32.add (run_hi (unmoved w0) (map unmoved ws)) (S754_infinity s))
  = negb (broken (S754_infinity s) (map unmoved (w0 :: ws))).
Proof.
  rewrite run_lo_moved_infinity, run_hi_moved_infinity.
  destruct (F32.is_nan w0) eqn:N0.
  { apply is_nan_true in N0. subst w0.
    change (unmoved S754_nan) with S754_nan.
    rewrite run_lo_nan, run_hi_nan. reflexivity. }
  assert (Nu : F32.is_nan (unmoved w0) = false) by now rewrite unmoved_nan.
  change (F32.add (run_lo (unmoved w0) (map unmoved ws)) (S754_infinity s))
    with (moved (S754_infinity s) (run_lo (unmoved w0) (map unmoved ws))).
  change (F32.add (run_hi (unmoved w0) (map unmoved ws)) (S754_infinity s))
    with (moved (S754_infinity s) (run_hi (unmoved w0) (map unmoved ws))).
  rewrite !alike_moved_infinity.
  cbn [map broken]. rewrite Nu. cbn [negb andb].
  rewrite <- (survives_unmoved (S754_infinity s) w0).
  set (us := map unmoved ws) in *. set (u0 := unmoved w0) in *.
  set (t := S754_infinity s) in *.
  assert (S0 : survives t u0 = true -> existsb (survives t) (u0 :: us) = true)
    by (intros H; cbn [existsb]; now rewrite H).
  assert (C0 : survives t u0 = false -> existsb (cancels t) (u0 :: us) = true).
  { intros H. rewrite (survives_number t u0 Nu) in H.
    apply negb_false_iff in H. cbn [existsb]. now rewrite H. }
  destruct s.
  - change t with minus_infinity in *.
    rewrite (min_survives_minus u0 us Nu).
    rewrite (survives_number _ _ (max_number u0 us Nu)).
    rewrite (max_cancels_minus u0 us Nu).
    destruct (survives minus_infinity u0);
      destruct (existsb (cancels minus_infinity) (u0 :: us));
      destruct (existsb (survives minus_infinity) (u0 :: us));
      try reflexivity;
      try (now discriminate S0); try (now discriminate C0).
  - change t with plus_infinity in *.
    rewrite (max_survives_plus u0 us Nu).
    rewrite (survives_number _ _ (min_number u0 us Nu)).
    rewrite (min_cancels_plus u0 us Nu).
    destruct (survives plus_infinity u0);
      destruct (existsb (cancels plus_infinity) (u0 :: us));
      destruct (existsb (survives plus_infinity) (u0 :: us));
      try reflexivity;
      try (now discriminate S0); try (now discriminate C0).
Qed.

(** ** Any translation *)

Lemma valid_cases (t : float) :
  F32.valid t = true ->
  t = S754_nan \/ (exists s, t = S754_infinity s) \/ finite_valid t = true.
Proof.
  intros V. destruct t as [s|s| |s m e].
  - right. right. reflexivity.
  - right. left. now exists s.
  - now left.
  - right. right. unfold finite_valid. now rewrite V.
Qed.

Lemma cancels_finite (t : float) :
  F32.is_finite t = true -> forall u, cancels t u = false.
Proof. intros H u. now destruct t. Qed.

(** The claim on one axis holds exactly where it is not [broken]. *)
Lemma shift_axis (t w0 : float) (ws : list float) :
  F32.valid t = true ->
  Forall sound (w0 :: ws) ->
  alike (run_lo (moved t w0) (map (moved t) ws))
        (F32.add (run_lo (unmoved w0) (map unmoved ws)) t)
  && alike (run_hi (moved t w0) (map (moved t) ws))
           (F32.add (run_hi (unmoved w0) (map unmoved ws)) t)
  = negb (broken t (map unmoved (w0 :: ws))).
Proof.
  intros V F. destruct (valid_cases t V) as [->|[[s ->]|Ft]].
  - rewrite shift_lo_nan, shift_hi_nan.
    now rewrite broken_not_infinite.
  - apply shift_infinite.
  - rewrite (shift_lo_finite t Ft w0 ws F), (shift_hi_finite t Ft w0 ws F).
    rewrite broken_not_infinite; [reflexivity|].
    apply cancels_finite. now apply finite_valid_finite.
Qed.

(** ** The values before the translation *)

Lemma add_finite_inv (a b : float) :
  F32.is_finite (F32.add a b) = true ->
  F32.is_finite a = true /\ F32.is_finite b = true.
Proof.
  destruct a as [sa|sa| |sa ma ea], b as [sb|sb| |sb mb eb];
    try (intros _; split; reflexivity);
    try destruct sa; try destruct sb; intros H; discriminate H.
Qed.

Lemma mul_finite_inv (c y : float) :
  F32.is_finite (F32.mul c y) = true -> F32.is_finite y = true.
Proof.
  destruct y as [sy|sy| |sy my ey]; try (intros _; reflexivity);
    destruct c as [sc|sc| |sc mc ec]; intros H; discriminate H.
Qed.

Lemma base_finite_inv (k : axis) (p : vec3) :
  F32.is_finite (base k p) = true ->
  forall j, F32.is_finite (coord j p) = true.
Proof.
  intros H.
  assert (E : F32.is_finite (c0 p) = true /\ F32.is_finite (c1 p) = true
              /\ F32.is_finite (c2 p) = true).
  { destruct k; cbn [base] in H;
      apply add_finite_inv in H; destruct H as [H Hz];
      apply add_finite_inv in H; destruct H as [Hx Hy];
      apply mul_finite_inv in Hx, Hy, Hz; auto. }
  destruct E as (Hx & Hy & Hz). intros j. now destruct j.
Qed.

Lemma base_sound (k : axis) (p : vec3) :
  (forall j, F32.valid (coord j p) = true) -> sound (base k p).
Proof.
  intros V F. apply base_finite_valid. intros j. unfold finite_valid.
  now rewrite (base_finite_inv k p F j), V.
Qed.

Lemma gathered_valid (buf : list byte) (n st off : Z) (ps : list vec3) :
  gather (Z.to_nat n) buf st off 0 = Some ps ->
  forall p, In p ps -> forall k, F32.valid (coord k p) = true.
Proof.
  intros G p Hp k.
  destruct (In_nth_error _ _ Hp) as [j Hj].
  pose proof (gather_length _ _ _ _ _ _ G) as Len.
  assert (Hjn : (j < Z.to_nat n)%nat).
  { rewrite <- Len. apply nth_error_Some. congruence. }
  pose proof (gather_nth _ _ _ _ _ _ G j Hjn) as E.
  rewrite Hj in E. simpl in E.
  eapply record_position_valid; eauto.
Qed.

Lemma coord_identity (k : axis) (p : vec3) :
  coord k (transform (translation_coeffs zero3) p) = unmoved (base k p).
Proof. rewrite coord_translation. now destruct k. Qed.

(** C6, amended. For a call on a non-empty buffer that returns with the
    identity matrix, a translation-only matrix and an axis [k] whose
    translation [t_k] is a binary32 value: the call with that matrix
    returns too, and [out_min[k]] and [out_max[k]] each compare equal to,
    or are NaN together with, the corresponding bound of the identity
    result plus [t_k], the sum taken in single precision, exactly when the
    axis is not [broken]: unless [t_k] is an infinity, the coordinate of
    record 0 under the identity is not a NaN, the coordinate of some
    record is the opposite infinity, and the coordinate of some record is
    neither a NaN nor that infinity. *)
Theorem translation_shifts_axis (buf : list byte) (n st off : Z) (t : vec3)
  (omin omax : vec3) (sI : machine) (k : axis) :
  0 < n ->
  F32.valid (coord k t) = true ->
  call (Some buf) n st off (Some identity) omin omax = Some sI ->
  exists sT ts,
    call (Some buf) n st off (Some (translation t)) omin omax = Some sT /\
    transformed_all buf n st off (Some identity) = Some ts /\
    (shifted_axis k t sI sT = true
     <-> broken (coord k t) (map (coord k) ts) = false).
Proof.
  intros Hn Vt HI.
  destruct (call_nonempty _ _ _ _ _ _ _ _ Hn HI)
    as (m & p0 & ps & Hm & G & Emin & Emax).
  change (coeffs_of (Some identity)) with (Some (translation_coeffs zero3))
    in Hm.
  injection Hm as <-.
  pose proof (gathered_valid buf n st off (p0 :: ps) G) as PV.
  eexists. exists (map (transform (translation_coeffs zero3)) (p0 :: ps)).
  split; [|split].
  - rewrite call_spec.
    replace (n <=? 0) with false by (symmetry; apply Z.leb_gt; lia).
    change (coeffs_of (Some (translation t)))
      with (Some (translation_coeffs t)).
    rewrite G. reflexivity.
  - unfold transformed_all.
    change (coeffs_of (Some identity))
      with (Some (translation_coeffs zero3)).
    now rewrite G.
  - unfold shifted_axis. cbn [out_min out_max]. rewrite Emin, Emax.
    rewrite !coord_shift, !coord_lo_corner, !coord_hi_corner,
      !lo_translation, !hi_translation.
    assert (Z0 : moved (coord k zero3) = unmoved) by now destruct k.
    rewrite Z0.
    assert (U : map (coord k)
                  (map (transform (translation_coeffs zero3)) (p0 :: ps))
                = map unmoved (map (base k) (p0 :: ps))).
    { rewrite !map_map. apply map_ext. intros p. apply coord_identity. }
    rewrite U.
    assert (F : Forall sound (base k p0 :: map (base k) ps)).
    { change (base k p0 :: map (base k) ps)
        with (map (base k) (p0 :: ps)).
      apply Forall_forall. intros w Hw. apply in_map_iff in Hw.
      destruct Hw as (p & <- & Hp). apply base_sound. now apply PV. }
    change (map (base k) (p0 :: ps)) with (base k p0 :: map (base k) ps).
    rewrite (shift_axis (coord k t) (base k p0) (map (base k) ps) Vt F).
    apply negb_true_iff.
Qed.

Lemma translation_shifts_axis_witness :
  exists sI sT,
    call (Some spec_example) 3 12 0 (Some identity) junk junk = Some sI /\
    call (Some spec_example) 3 12 0 (Some (translation far_shift)) junk junk
    = Some sT /\
    shifted_axis AX far_shift sI sT = true.
Proof.
  assert (R : exists s,
             call (Some spec_example) 3 12 0 (Some identity) junk junk
             = Some s) by (eexists; vm_compute; reflexivity).
  destruct R as [sI HI]. exists sI.
  destruct (translation_shifts_axis spec_example 3 12 0 far_shift junk junk
              sI AX) as (sT & ts & HT & Hts & Iff).
  - lia.
  - reflexivity.
  - exact HI.
  - exists sT. split; [exact HI|]. split; [exact HT|].
    apply Iff. vm_compute in Hts. injection Hts as <-.
    vm_compute. reflexivity.
Defined.

(** Why the translation theorem speaks of [==] and not of identical bits:
    for the record (-0,-1,-1) and the translation (-0,0,0), all finite,
    [out_min[0]] is -0 under the translation; under the identity it is +0,
    and +0 moved by -0 is +0. The bits differ, the values compare equal. *)
Lemma translation_changes_zero_sign :
  let buf := packed [mkvec3 minus_zero (fz (-1)) (fz (-1))] in
  let t := mkvec3 minus_zero (fz 0) (fz 0) in
  ~ translation_claim buf 1 12 0 t /\
  exists sI sT,
    call (Some buf) 1 12 0 (Some identity) junk junk = Some sI /\
    call (Some buf) 1 12 0 (Some (translation t)) junk junk = Some sT /\
    coord AX (out_min sT) = minus_zero /\
    coord AX (shift (out_min sI) t) = F32.zero /\
    forall k, shifted_axis k t sI sT = true.
Proof.
  intros buf t.
  assert (R : exists sI sT,
    call (Some buf) 1 12 0 (Some identity) junk junk = Some sI /\
    call (Some buf) 1 12 0 (Some (translation t)) junk junk = Some sT /\
    coord AX (out_min sT) = minus_zero /\
    coord AX (shift (out_min sI) t) = F32.zero /\
    shifted_axis AX t sI sT = true /\
    shifted_axis AY t sI sT = true /\
    shifted_axis AZ t sI sT = true).
  { do 2 eexists.
    split; [|split; [|split; [|split; [|split; [|split]]]]];
      vm_compute; reflexivity. }
  destruct R as (sI & sT & HI & HT & E1 & E2 & Kx & Ky & Kz).
  split.
  - intros H. destruct (H ltac:(lia) junk junk sI sT HI HT) as [Hmin _].
    rewrite Hmin, E2 in E1. discriminate E1.
  - exists sI, sT. repeat (split; [assumption|]).
    intros k. now destruct k.
Qed.

(** The x axis of the counterexample [translation_claim_fails] is
    [broken]. *)
Lemma translation_claim_fails_broken :
  let buf := packed [mkvec3 plus_infinity (fz 0) (fz 0); vz 1 0 0] in
  let t := mkvec3 minus_infinity (fz 0) (fz 0) in
  exists ts,
    transformed_all buf 2 12 0 (Some identity) = Some ts /\
    broken (coord AX t) (map (coord AX) ts) = true.
Proof.
  intros buf t. eexists. split; vm_compute; reflexivity.
Qed.
